(** * A Whitted-style ray tracer: KD-tree, lights and the image driver

    Shallow embedding of [src/ray/src/scene/kdTree.h],
    [src/ray/src/scene/light.cpp] and [src/ray/src/RayTracer.cpp].

    Numbers.  A C++ [double] is idealised as an exact rational ([Q]): the
    order, the field operations and the casts to [int] are the exact ones,
    rounding error is not modelled.  A quotient whose divisor can be zero
    where the source decides on its value is a [dquot], with the
    infinities and NaN.  A cast [(int) x] is defined where the truncated
    value is an [int] ([fits_int]).  [sqrt] is not rational; it is taken
    from the platform ([Libm]).  A C++ [int] is a [Z]; signed overflow is
    undefined behaviour in the source and is modelled for the depth
    counter of [buildTreeHelper] only.  An [unsigned char] is a [Z]
    reduced modulo 256.

    Interfaces whose headers are outside the translated sources
    ([ray.h], [bbox.h], [material.h], [scene.h], the camera and the UI) are
    either taken as parameters (type classes [RayConsts], [Libm],
    [MaterialOps], [SceneOps], [TraceUI]) or modelled from the specification; the
    latter definitions say so in their documentation. *)

From Stdlib Require Import ZArith QArith Qabs Qminmax Qround Lia Lqa Bool List.
From stdpp Require Import base list.
Import ListNotations.

Open Scope Q_scope.

(** ** Numbers *)

(** [a < b] on doubles. *)
Definition Qltb (a b : Q) : bool := negb (Qle_bool b a).

(** The conversion [(int) x] of a double: truncation toward zero.  The
    conversion is defined in the source when the truncated value is an
    [int] ([fits_int]); outside this range the behaviour of the source is
    undefined and the value here stands for nothing.  What is stated of a
    cast below is stated where [fits_int] holds. *)
Definition double_to_int (x : Q) : Z := Z.quot (Qnum x) (Zpos (Qden x)).

Definition fits_int (x : Q) : bool :=
  (- 2 ^ 31 <=? double_to_int x)%Z && (double_to_int x <? 2 ^ 31)%Z.

(** The value of a quotient [a / b] of doubles.  With a divisor that is
    not zero it is the rational quotient; with a zero divisor it is what
    IEEE 754 gives: an infinity with the sign of [a], or NaN when [a] is
    zero as well (the zero of a rational stands for +0). *)
Inductive dquot := Finite (q : Q) | PosInf | NegInf | NaN.

Definition ddiv (a b : Q) : dquot :=
  if Qeq_bool b 0 then
    if Qltb 0 a then PosInf else if Qltb a 0 then NegInf else NaN
  else Finite (a / b).

(** [a < b] on such values: false as soon as one side is NaN. *)
Definition dlt (a b : dquot) : bool :=
  match a, b with
  | Finite x, Finite y => Qltb x y
  | Finite _, PosInf => true
  | NegInf, Finite _ => true
  | NegInf, PosInf => true
  | _, _ => false
  end.

(** The conversion of an [int] to [unsigned char]. *)
Definition to_uchar (n : Z) : Z := (n mod 256)%Z.

(** [round(x)] of the C library, halfway cases away from zero; only the
    specification mentions it. *)
Definition round_half_away (x : Q) : Z :=
  if Qle_bool 0 x then Qfloor (x + (1 # 2)) else Qceiling (x - (1 # 2)).

(** The square root of the platform. *)
Class Libm := { sqrt : Q -> Q }.

(** [RAY_EPSILON] of [ray.h]. *)
Class RayConsts := { RAY_EPSILON : Q }.

(** ** glm::dvec3 *)

Record dvec3 := Dvec3 { vx : Q; vy : Q; vz : Q }.

Declare Scope vec_scope.
Delimit Scope vec_scope with vec.
Bind Scope vec_scope with dvec3.

Module Glm.

(** [v[axis]]; glm asserts [0 <= axis < 3], any other index reads [z]
    here. *)
Definition idx (v : dvec3) (axis : Z) : Q :=
  if (axis =? 0)%Z then vx v else if (axis =? 1)%Z then vy v else vz v.

(** [v[axis] = val]. *)
Definition set_idx (v : dvec3) (axis : Z) (val : Q) : dvec3 :=
  if (axis =? 0)%Z then Dvec3 val (vy v) (vz v)
  else if (axis =? 1)%Z then Dvec3 (vx v) val (vz v)
  else Dvec3 (vx v) (vy v) val.

Definition zero : dvec3 := Dvec3 0 0 0.
Definition ones : dvec3 := Dvec3 1 1 1.

Definition add (a b : dvec3) : dvec3 :=
  Dvec3 (vx a + vx b) (vy a + vy b) (vz a + vz b).
Definition sub (a b : dvec3) : dvec3 :=
  Dvec3 (vx a - vx b) (vy a - vy b) (vz a - vz b).
(** Component-wise product, [a * b] on two vectors. *)
Definition mul (a b : dvec3) : dvec3 :=
  Dvec3 (vx a * vx b) (vy a * vy b) (vz a * vz b).
Definition scale (k : Q) (a : dvec3) : dvec3 :=
  Dvec3 (k * vx a) (k * vy a) (k * vz a).
Definition neg (a : dvec3) : dvec3 := Dvec3 (- vx a) (- vy a) (- vz a).
Definition dot (a b : dvec3) : Q := vx a * vx b + vy a * vy b + vz a * vz b.

Definition length `{Libm} (a : dvec3) : Q := sqrt (dot a a).
Definition distance `{Libm} (a b : dvec3) : Q := length (sub a b).
(** [glm::normalize(v)] is [v * inversesqrt(dot(v, v))]. *)
Definition normalize `{Libm} (a : dvec3) : dvec3 :=
  scale (1 / sqrt (dot a a)) a.

Definition clampQ (x lo hi : Q) : Q := Qmin (Qmax x lo) hi.
(** [glm::clamp(v, lo, hi)] with scalar bounds. *)
Definition clamp (a : dvec3) (lo hi : Q) : dvec3 :=
  Dvec3 (clampQ (vx a) lo hi) (clampQ (vy a) lo hi) (clampQ (vz a) lo hi).

(** [glm::abs(v)], component-wise. *)
Definition abs (a : dvec3) : dvec3 :=
  Dvec3 (Qabs (vx a)) (Qabs (vy a)) (Qabs (vz a)).
(** [v / k] for a scalar [k]. *)
Definition div_scalar (a : dvec3) (k : Q) : dvec3 :=
  Dvec3 (vx a / k) (vy a / k) (vz a / k).

(** Component-wise order and equality of values. *)
Definition le (a b : dvec3) : Prop :=
  vx a <= vx b /\ vy a <= vy b /\ vz a <= vz b.
Definition equiv (a b : dvec3) : Prop :=
  vx a == vx b /\ vy a == vy b /\ vz a == vz b.

End Glm.

Infix "+" := Glm.add : vec_scope.
Infix "-" := Glm.sub : vec_scope.
Infix "*" := Glm.mul : vec_scope.
Infix "*|" := Glm.scale (at level 40, left associativity) : vec_scope.
Notation "- v" := (Glm.neg v) : vec_scope.
Notation "v .[ a ]" := (Glm.idx v a) (at level 1, left associativity,
  format "v .[ a ]").

(** ** Rays and intersection records ([ray.h], outside the translated
    sources) *)

(** Modelled from the spec: the kind tag of a ray, "VISIBILITY, REFLECTION,
    REFRACTION, SHADOW". *)
Inductive RayType := VISIBILITY | REFLECTION | REFRACTION | SHADOW.

(** Modelled from the spec: "Ray: origin, direction, a per-ray attenuation
    weight, and a kind tag", built in the source as
    [ray(position, direction, atten, type)]. *)
Record ray := Ray {
  getPosition : dvec3;
  getDirection : dvec3;
  getAtten : dvec3;
  rayType : RayType
}.

(** Modelled from the spec: [r.at(t)], the point "origin + t * direction"
    of the ray. *)
Definition ray_at (r : ray) (t : Q) : dvec3 :=
  (getPosition r + t *| getDirection r)%vec.

(** Modelled from the spec: "Isect: parametric distance t along the ray,
    surface normal n, a reference to the material at the hit". *)
Section Isect.
Context {Material : Type}.

Record isect := Isect {
  getT : Q;
  getN : dvec3;
  getMaterial : Material
}.

Definition setT (i : isect) (t : Q) : isect :=
  Isect t (getN i) (getMaterial i).
End Isect.
Arguments isect : clear implicits.

(** ** Bounding boxes ([bbox.h], outside the translated sources) *)

Record BoundingBox := mkBBox { getMin : dvec3; getMax : dvec3 }.

Module BBox.

(** Modelled from the spec: [setMin]/[setMax] of [bbox.h] are missing;
    "left/right child boxes formed by clipping the parent box at the
    plane" overwrite one coordinate of a corner. *)
Definition setMin (b : BoundingBox) (axis : Z) (val : Q) : BoundingBox :=
  mkBBox (Glm.set_idx (getMin b) axis val) (getMax b).
Definition setMax (b : BoundingBox) (axis : Z) (val : Q) : BoundingBox :=
  mkBBox (getMin b) (Glm.set_idx (getMax b) axis val).

(** Modelled from the spec: [BoundingBox::area] is missing; "Surface area
    is 2(ex*ey + ey*ez + ex*ez) where e = max - min". *)
Definition area (b : BoundingBox) : Q :=
  let e := (getMax b - getMin b)%vec in
  2 * (vx e * vy e + vy e * vz e + vx e * vz e).

(** Modelled from the spec: the slab method starts from the whole line;
    [T_FAR] stands for its unbounded ends. *)
Definition T_FAR : Q := 1e308.

(** Modelled from the spec: one axis of the slab method.  "For each axis
    with direction within RAY_EPSILON of 0, the origin must lie between the
    slabs or the ray misses"; on the other axes the interval is clipped to
    the two crossings of the slab. *)
Definition slab `{RayConsts} (b : BoundingBox) (r : ray) (axis : Z)
    (acc : bool * Q * Q) : bool * Q * Q :=
  let '(ok, t_min, t_max) := acc in
  let o := (getPosition r).[axis] in
  let d := (getDirection r).[axis] in
  let lo := (getMin b).[axis] in
  let hi := (getMax b).[axis] in
  if Qltb d RAY_EPSILON && Qltb (- RAY_EPSILON) d then
    (ok && Qle_bool lo o && Qle_bool o hi, t_min, t_max)
  else
    let t1 := (lo - o) / d in
    let t2 := (hi - o) / d in
    let near := if Qltb t2 t1 then t2 else t1 in
    let far := if Qltb t2 t1 then t1 else t2 in
    (ok,
     if Qltb t_min near then near else t_min,
     if Qltb far t_max then far else t_max).

(** Modelled from the spec: [BoundingBox::intersect] is missing.
    "intersect(ray) -> (t_min, t_max) updates (or returns) the parametric
    interval of overlap.  For each axis with direction within RAY_EPSILON
    of 0, the origin must lie between the slabs or the ray misses.
    Returns false when t_max < t_min or t_max < 0."  The interval is
    computed from the ray and the box alone: whatever the caller held in
    [t_min] and [t_max] is overwritten by the result. *)
Definition intersect `{RayConsts} (b : BoundingBox) (r : ray)
    : bool * Q * Q :=
  let '(ok, t_min, t_max) :=
    slab b r 2 (slab b r 1 (slab b r 0 (true, - T_FAR, T_FAR))) in
  (ok && negb (Qltb t_max t_min) && negb (Qltb t_max 0), t_min, t_max).

End BBox.

(** ** Geometry ([scene.h], outside the translated sources)

    Modelled from the spec: a geometry "exposes boundingBox(),
    intersect(ray) -> Option<Isect>, and a normal() oracle"; the KD-tree
    calls them [getBoundingBox], [intersect] and [getNormal]. *)

Module Geometry.
Section Geometry.
Context {Material : Type}.
Record t := Build {
  getBoundingBox : BoundingBox;
  intersect : ray -> option (isect Material);
  getNormal : dvec3
}.
End Geometry.
Arguments t : clear implicits.
End Geometry.

(** ** The KD-tree ([kdTree.h]) *)

Module KdTree.
Section KdTree.
Context {Material : Type} `{RayConsts} `{Libm}.

Abbreviation Geometry := (Geometry.t Material).
Abbreviation isect := (isect Material).

Record Plane := mkPlane {
  axis : Z;   (* 0 = x, 1 = y, 2 = z *)
  position : Q;
  leftCount : Z;
  rightCount : Z;
  leftBBoxArea : Q;
  rightBBoxArea : Q;
  leftBBox : BoundingBox;
  rightBBox : BoundingBox
}.

Inductive Node :=
| SplitNode (axis : Z) (left right : Node) (pos : Q) (bbox : BoundingBox)
| LeafNode (objList : list Geometry).

(** The constructor [SplitNode(int a, int p, BoundingBox b, Node* l,
    Node* r)]: the position arrives through an [int] parameter and
    initialises the [double] member [pos].  The conversion is defined
    when the position fits an [int]; [buildTreeHelper] tests it. *)
Definition newSplitNode (a : Z) (p : Q) (b : BoundingBox) (l r : Node)
    : Node :=
  SplitNode a l r (inject_Z (double_to_int p)) b.

(** The part of the traversal state that travels by reference. *)
Record Trav := mkTrav { trav_i : isect; t_min : Q; t_max : Q }.

(** The sentinel [1e13] of [LeafNode::findIntersection]. *)
Definition T_SENTINEL : Q := 1e13.

(** The body of the loop of [LeafNode::findIntersection]. *)
Definition leafStep (r : ray) (acc : bool * Trav) (obj : Geometry)
    : bool * Trav :=
  let '(found, st) := acc in
  let '(_, t_min, t_max) :=
    BBox.intersect (Geometry.getBoundingBox obj) r in
  match Geometry.intersect obj r with
  | Some curr =>
      if Qltb (getT curr) (getT (trav_i st))
         && Qle_bool t_min (getT curr)
         && Qle_bool (getT curr) t_max
      then (true, mkTrav curr t_min t_max)
      else (found, mkTrav (trav_i st) t_min t_max)
  | None => (found, mkTrav (trav_i st) t_min t_max)
  end.

(** A hit the loop accepts when none better is held: below the sentinel
    and inside the interval [BoundingBox::intersect] computes for the
    object's own box. *)
Definition accepts (r : ray) (obj : Geometry) (cur : isect) : Prop :=
  Geometry.intersect obj r = Some cur
  /\ getT cur < T_SENTINEL
  /\ (let '(_, lo, hi) := BBox.intersect (Geometry.getBoundingBox obj) r in
      lo <= getT cur <= hi).

Definition leafFind (objList : list Geometry) (r : ray) (st : Trav)
    : bool * Trav :=
  fold_left (leafStep r) objList
    (false, mkTrav (setT (trav_i st) T_SENTINEL) (t_min st) (t_max st)).

(** [Node::findIntersection], both overrides. *)
Fixpoint findIntersection (n : Node) (r : ray) (st : Trav)
    : bool * Trav :=
  match n with
  | LeafNode objList => leafFind objList r st
  | SplitNode axis lchild rchild pos bbox =>
      let '(_, t_min, t_max) := BBox.intersect bbox r in
      let st := mkTrav (trav_i st) t_min t_max in
      let pos_min := (ray_at r t_min).[axis] in
      let pos_max := (ray_at r t_max).[axis] in
      let parallel :=
        Qltb (getDirection r).[axis] RAY_EPSILON
        && Qltb (- RAY_EPSILON) (getDirection r).[axis] in
      let pos_min := if parallel then pos_min + 1e-6 else pos_min in
      let pos_max := if parallel then pos_max + 1e-6 else pos_max in
      if Qltb pos_min pos && Qltb pos_max pos then
        findIntersection lchild r st
      else if Qltb pos pos_min && Qltb pos pos_max then
        findIntersection rchild r st
      else
        let '(b, st1) := findIntersection lchild r st in
        if b then (true, st1) else findIntersection rchild r st1
  end.

(** [KdTree::intersect]. *)
Definition intersect (root : Node) (r : ray) (st : Trav) : bool * Trav :=
  findIntersection root r st.

(** [KdTree::countP]. *)
Definition countP (objList : list Geometry) (plane : Plane) (left : bool)
    : Z :=
  let '(countL, countR) :=
    fold_left
      (fun (c : Z * Z) obj =>
         let min := (getMin (Geometry.getBoundingBox obj)).[axis plane] in
         let max := (getMax (Geometry.getBoundingBox obj)).[axis plane] in
         let countL := if Qltb min (position plane)
                       then (fst c + 1)%Z else fst c in
         let countR := if Qltb (position plane) max
                       then (snd c + 1)%Z else snd c in
         (countL, countR))
      objList (0%Z, 0%Z) in
  if left then countL else countR.

(** A plane as pushed on [planeList]: the counts and areas are not yet
    assigned there (they read as 0 here and are never read before
    [evalPlane] assigns them). *)
Definition candidate (bbox : BoundingBox) (axis : Z) (position : Q)
    : Plane :=
  mkPlane axis position 0 0 0 0
    (BBox.setMax (mkBBox (getMin bbox) (getMax bbox)) axis position)
    (BBox.setMin (mkBBox (getMin bbox) (getMax bbox)) axis position).

(** The first pair of loops of [findBestPlane]: [planeList]. *)
Definition planeList (objList : list Geometry) (bbox : BoundingBox)
    : list Plane :=
  flat_map
    (fun axis =>
       flat_map
         (fun obj =>
            [ candidate bbox axis
                (getMin (Geometry.getBoundingBox obj)).[axis];
              candidate bbox axis
                (getMax (Geometry.getBoundingBox obj)).[axis] ])
         objList)
    [0%Z; 1%Z; 2%Z].

(** The assignments to [plane] at the head of the second loop. *)
Definition evalPlane (objList : list Geometry) (q : Plane) : Plane :=
  mkPlane (axis q) (position q)
    (countP objList q true) (countP objList q false)
    (BBox.area (leftBBox q)) (BBox.area (rightBBox q))
    (leftBBox q) (rightBBox q).

(** The value [s] of the second loop: a quotient of doubles, infinite or
    NaN when the area of the parent box is zero. *)
Definition cost (objList : list Geometry) (bbox : BoundingBox)
    (q : Plane) : dquot :=
  let plane := evalPlane objList q in
  ddiv (inject_Z (leftCount plane) * leftBBoxArea plane
        + inject_Z (rightCount plane) * rightBBoxArea plane)
       (BBox.area bbox).

Definition MIN_S : Q := 1e100.

(** The body of the second loop: [if (s < minS) { minS = s; bestPlane =
    plane; }]. *)
Definition bestStep (objList : list Geometry) (bbox : BoundingBox)
    (acc : dquot * option Plane) (q : Plane) : dquot * option Plane :=
  let s := cost objList bbox q in
  if dlt s (fst acc) then (s, Some (evalPlane objList q)) else acc.

(** [KdTree::findBestPlane]; [None] is the local [bestPlane] that no
    iteration assigned. *)
Definition findBestPlane (objList : list Geometry) (bbox : BoundingBox)
    : option Plane :=
  snd (fold_left (bestStep objList bbox) (planeList objList bbox)
         (Finite MIN_S, None)).

(** The guard of the left-routing branch of the tie-break. *)
Definition tieBreakLeft (obj : Geometry) : bool :=
  Qltb (Glm.length (Geometry.getNormal obj)) 0.

(** The body of the routing loop of [buildTreeHelper]. *)
Definition routeStep (bestPlane : Plane)
    (acc : list Geometry * list Geometry) (obj : Geometry)
    : list Geometry * list Geometry :=
  let min := (getMin (Geometry.getBoundingBox obj)).[axis bestPlane] in
  let max := (getMax (Geometry.getBoundingBox obj)).[axis bestPlane] in
  let leftList :=
    if Qltb min (position bestPlane) then fst acc ++ [obj] else fst acc in
  let rightList :=
    if Qltb (position bestPlane) max then snd acc ++ [obj] else snd acc in
  if Qeq_bool (position bestPlane) max
     && Qeq_bool (position bestPlane) min
     && tieBreakLeft obj
  then (leftList ++ [obj], rightList)
  else if Qeq_bool (position bestPlane) max
          && Qeq_bool (position bestPlane) min
          && Qle_bool 0 (Glm.length (Geometry.getNormal obj))
  then (leftList, rightList ++ [obj])
  else (leftList, rightList).

Definition route (bestPlane : Plane) (objList : list Geometry)
    : list Geometry * list Geometry :=
  fold_left (routeStep bestPlane) objList ([], []).

(** [objList.size() <= leafSize]: the [int] is converted to [size_t]. *)
Definition size_le (objList : list Geometry) (leafSize : Z) : bool :=
  (Z.of_nat (List.length objList) <=? leafSize mod 2 ^ 64)%Z.

(** How a call of [buildTreeHelper] leaves defined behaviour. *)
Inductive Fault :=
| UnassignedPlane    (* [findBestPlane] returned its [bestPlane] unassigned *)
| DepthOverflow      (* [++depth] at [INT_MAX] *)
| PositionOverflow.  (* the position does not fit the [int] parameter *)

(** What a call of [buildTreeHelper] comes to. *)
Inductive Built :=
| Tree (n : Node)
| Undefined (f : Fault).

(** One activation of [KdTree::buildTreeHelper]; [rec] stands for the two
    recursive calls.  [objList.size() <= leafSize || ++depth ==
    depthLimit] increments [depth] only when the first test fails.  A
    fault in either child makes the call undefined. *)
Definition buildTreeHelperBody
    (rec : list Geometry -> BoundingBox -> Z -> Z -> Z -> Built)
    (objList : list Geometry) (bbox : BoundingBox)
    (depthLimit leafSize depth : Z) : Built :=
  if size_le objList leafSize then Tree (LeafNode objList)
  else if (2 ^ 31 - 1 <=? depth)%Z then Undefined DepthOverflow
  else
    let depth := (depth + 1)%Z in
    if (depth =? depthLimit)%Z then Tree (LeafNode objList)
    else
      match findBestPlane objList bbox with
      | None => Undefined UnassignedPlane
      | Some bestPlane =>
          let '(leftList, rightList) := route bestPlane objList in
          match rightList, leftList with
          | [], _ | _, [] => Tree (LeafNode objList)
          | _, _ =>
              match
                rec leftList (leftBBox bestPlane) depthLimit leafSize depth,
                rec rightList (rightBBox bestPlane) depthLimit leafSize depth
              with
              | Tree l, Tree r =>
                  if fits_int (position bestPlane)
                  then Tree (newSplitNode (axis bestPlane)
                               (position bestPlane) bbox l r)
                  else Undefined PositionOverflow
              | Undefined f, _ => Undefined f
              | _, Undefined f => Undefined f
              end
          end
      end.

(** [2 ^ n] activations nested in one another, the innermost calling
    [rec].  The function is applied to [rec] alone where it is handed
    down, so that an activation is computed only when it is called. *)
Fixpoint nest (n : nat)
    (rec : list Geometry -> BoundingBox -> Z -> Z -> Z -> Built)
    (objList : list Geometry) (bbox : BoundingBox)
    (depthLimit leafSize depth : Z) {struct n} : Built :=
  match n with
  | O => buildTreeHelperBody rec objList bbox depthLimit leafSize depth
  | S n => nest n (nest n rec) objList bbox depthLimit leafSize depth
  end.

(** [KdTree::buildTreeHelper].  The recursion of the source has no bound
    of its own when [depthLimit <= depth]; the counter is an [int], so
    that no run has more than [2 ^ 31] activations nested with defined
    behaviour: from [depth >= 0] the activation number [2 ^ 31] returns
    a leaf or overflows the counter, and calls no further. *)
Definition buildTreeHelper (objList : list Geometry) (bbox : BoundingBox)
    (depthLimit leafSize depth : Z) : Built :=
  nest 31 (fun _ _ _ _ _ => Undefined DepthOverflow)
    objList bbox depthLimit leafSize depth.

(** [KdTree::buildTree]: [root] when the behaviour is defined. *)
Definition buildTree (objList : list Geometry) (bbox : BoundingBox)
    (depthLimit leafSize : Z) : option Node :=
  match buildTreeHelper objList bbox depthLimit leafSize 0 with
  | Tree root => Some root
  | Undefined _ => None
  end.

(** The geometries a subtree holds, leaf by leaf from left to right, and
    the number of split nodes on its longest branch. *)
Fixpoint leafObjects (n : Node) : list Geometry :=
  match n with
  | LeafNode objList => objList
  | SplitNode _ lchild rchild _ _ => leafObjects lchild ++ leafObjects rchild
  end.

Fixpoint height (n : Node) : nat :=
  match n with
  | LeafNode _ => O
  | SplitNode _ lchild rchild _ _ =>
      Datatypes.S (Nat.max (height lchild) (height rchild))
  end.

(** The objects the third and fourth test of the routing loop are about:
    the box is flat on the split axis and lies in the plane. *)
Definition inPlane (bestPlane : Plane) (obj : Geometry) : bool :=
  Qeq_bool (position bestPlane)
    (getMax (Geometry.getBoundingBox obj)).[axis bestPlane]
  && Qeq_bool (position bestPlane)
       (getMin (Geometry.getBoundingBox obj)).[axis bestPlane].

End KdTree.
Arguments Node : clear implicits.
Arguments Trav : clear implicits.
Arguments Built : clear implicits.
End KdTree.

(** ** The scene ([scene.h], outside the translated sources) *)

Module Scene.
Section Linear.
Context {Material : Type}.

(** Modelled from the spec: the linear branch of [Scene::intersect] is
    missing.  "[Geometry.intersect(ray)] returns the nearest hit along
    the positive ray parameter"; the scene's [intersect] "dispatches to
    KD traversal if built, else linear", and an isect is the "record of
    the nearest surface hit along a ray": the scan keeps the hit with
    the smallest [t], the earlier object on equal [t]. *)
Definition linearIntersect (objects : list (Geometry.t Material))
    (r : ray) : option (isect Material) :=
  fold_left
    (fun best obj =>
       match Geometry.intersect obj r, best with
       | Some cur, Some b =>
           if Qltb (getT cur) (getT b) then Some cur else best
       | Some cur, None => Some cur
       | None, _ => best
       end)
    objects None.
End Linear.
End Scene.

(** The material interface ([material.h]) as the tracer and the lights use
    it. *)
Class MaterialOps (Material : Type) := {
  Refl : Material -> bool;
  Trans : Material -> bool;
  kr : Material -> isect Material -> dvec3;
  kt : Material -> isect Material -> dvec3;
  index : Material -> isect Material -> Q
}.

(** The scene interface ([scene.h], [camera.h], [material.cpp]) as the
    tracer and the lights use it: [scene->intersect(r, i)],
    [m.shade(scene, r, i)], [scene->getCamera().rayThrough(x, y, r)] and
    [scene->buildTree(depth, leafSize)]. *)
Class SceneOps (Material Scene : Type) := {
  scene_intersect : Scene -> ray -> option (isect Material);
  shade : Material -> Scene -> ray -> isect Material -> dvec3;
  rayThrough : Scene -> Q -> Q -> ray -> ray;
  scene_buildTree : Scene -> Z -> Z -> Scene
}.

(** ** Lights ([light.cpp]) *)

Module DirectionalLight.
Section DirectionalLight.
Context {Material Scene : Type} `{RayConsts} `{Libm}
        `{MaterialOps Material} `{SceneOps Material Scene}.

Record t := Build {
  getScene : Scene;
  color : dvec3;
  orientation : dvec3
}.

Definition distanceAttenuation (l : t) (P : dvec3) : Q := 1.

Definition getColor (l : t) : dvec3 := color l.

Definition getDirection (l : t) (P : dvec3) : dvec3 :=
  (- orientation l)%vec.

(** The shadow ray both lights build. *)
Definition shadowRay (p direction : dvec3) : ray :=
  Ray (p + RAY_EPSILON *| direction)%vec direction Glm.ones SHADOW.

Definition shadowAttenuation (l : t) (r : ray) (p : dvec3) : dvec3 :=
  let direction := Glm.normalize (getDirection l p) in
  let shadow := shadowRay p direction in
  match scene_intersect (getScene l) shadow with
  | Some i => (kt (getMaterial i) i * color l)%vec
  | None => color l
  end.
End DirectionalLight.
Arguments t : clear implicits.
End DirectionalLight.

Module PointLight.
Section PointLight.
Context {Material Scene : Type} `{RayConsts} `{Libm}
        `{MaterialOps Material} `{SceneOps Material Scene}.

Record t := Build {
  getScene : Scene;
  color : dvec3;
  position : dvec3;
  constantTerm : Q;
  linearTerm : Q;
  quadraticTerm : Q
}.

Definition distanceAttenuation (l : t) (P : dvec3) : Q :=
  let d := Glm.distance (position l) P in
  Qmin 1 (1 / (constantTerm l + linearTerm l * d + quadraticTerm l * d * d)).

Definition getColor (l : t) : dvec3 := color l.

Definition getDirection (l : t) (P : dvec3) : dvec3 :=
  Glm.normalize (position l - P)%vec.

Definition shadowAttenuation (l : t) (r : ray) (p : dvec3) : dvec3 :=
  let direction := Glm.normalize (getDirection l p) in
  let shadow := DirectionalLight.shadowRay p direction in
  match scene_intersect (getScene l) shadow with
  | Some i =>
      let distToLight := Glm.distance (position l) p in
      if Qltb (getT i) distToLight
      then (kt (getMaterial i) i * color l)%vec
      else color l
  | None => color l
  end.
End PointLight.
Arguments t : clear implicits.
End PointLight.

(** ** The tracer and the image driver ([RayTracer.cpp]) *)

(** The configuration object behind the global [traceUI]. *)
Class TraceUI := {
  getDepth : Z;
  getThreshold : Q;
  cubeMap : bool;
  getCubeMapColor : ray -> dvec3;   (* traceUI->getCubeMap()->getColor(r) *)
  getThreads : Z;
  getBlockSize : Z;
  getSuperSamples : Z;
  getAaThreshold : Q;
  kdSwitch : bool;
  getMaxDepth : Z;
  getLeafSize : Z
}.

(** [for (int p = start; p < limit; p += step) s = body(p, s);]
    [None] when [fuel] iterations did not reach the end of the loop. *)
Fixpoint strideLoop {S : Type} (fuel : nat) (p limit step : Z)
    (body : Z -> S -> S) (s : S) : option S :=
  match fuel with
  | O => if (p <? limit)%Z then None else Some s
  | Datatypes.S fuel =>
      if (p <? limit)%Z
      then strideLoop fuel (p + step) limit step body (body p s)
      else Some s
  end.

(** The first [n] values of the counter of such a loop, and the number of
    rounds the loop makes when [step] is positive. *)
Fixpoint strideSeq (n : nat) (p step : Z) : list Z :=
  match n with
  | O => []
  | Datatypes.S n => p :: strideSeq n (p + step) step
  end.

Definition rounds (p limit step : Z) : nat :=
  Z.to_nat ((limit - p + step - 1) / step).

Module RayTracer.
Section RayTracer.
Context {Material Scene : Type} `{RayConsts} `{Libm} `{TraceUI}
        `{MaterialOps Material} `{SceneOps Material Scene}.

(** The members of [class RayTracer] that the translated functions
    use; [scene = None] is the null [unique_ptr]. *)
Record t := Build {
  scene : option Scene;
  buffer : list Z;            (* std::vector<unsigned char> *)
  thresh : Q;
  buffer_width : Z;
  buffer_height : Z;
  m_bBufferReady : bool;
  threads : Z;
  block_size : Z;
  samples : Z;
  aaThresh : Q;
  finishedThreads : list Z
}.

Definition with_buffer (rt : t) (b : list Z) : t :=
  Build (scene rt) b (thresh rt) (buffer_width rt) (buffer_height rt)
    (m_bBufferReady rt) (threads rt) (block_size rt) (samples rt)
    (aaThresh rt) (finishedThreads rt).

Definition with_finished (rt : t) (f : list Z) : t :=
  Build (scene rt) (buffer rt) (thresh rt) (buffer_width rt)
    (buffer_height rt) (m_bBufferReady rt) (threads rt) (block_size rt)
    (samples rt) (aaThresh rt) f.

(** [sceneLoaded()], declared in [RayTracer.h]: [loadScene] stores the
    parsed scene in [scene] and answers [sceneLoaded()], a scene is loaded
    when the pointer is set. *)
Definition sceneLoaded (rt : t) : bool :=
  match scene rt with Some _ => true | None => false end.

(** *** traceRay *)

Section Body.
(** The loaded scene, and [traceRay] one level down: the recursive
    calls all pass [depth - 1]; the [double&] result [t] is threaded
    through. *)
Variable sc : Scene.
Variable rec : ray -> dvec3 -> Q -> dvec3 * Q.

(** The block "Handle reflection". *)
Definition reflectStep (i : isect Material) (position d n thresh : dvec3)
    (acc : dvec3 * Q) : dvec3 * Q :=
  let m := getMaterial i in
  if Refl m then
    let direction :=
      Glm.normalize (d - (2 * Glm.dot d n) *| n)%vec in
    let reflect :=
      Ray (position + RAY_EPSILON *| direction)%vec direction
        Glm.ones REFLECTION in
    let '(c, t) := rec reflect (kr m i * thresh)%vec (snd acc) in
    ((fst acc + kr m i * c)%vec, t)
  else acc.

(** The locals of the block "Handle refraction". *)
Definition rayIsExiting (d n : dvec3) : bool := Qltb 0 (Glm.dot d n).
Definition normalSign (d n : dvec3) : dvec3 :=
  if rayIsExiting d n then (- n)%vec else n.
Definition eta (i : isect Material) (d n : dvec3) : Q :=
  let m := getMaterial i in
  let n_current := if rayIsExiting d n then index m i else 1 in
  let n_other := if rayIsExiting d n then 1 else index m i in
  n_current / n_other.
Definition cosd (d n : dvec3) : Q := Qabs (Glm.dot (normalSign d n) d).
Definition refr_w (i : isect Material) (d n : dvec3) : Q :=
  eta i d n * cosd d n.
Definition refr_k (i : isect Material) (d n : dvec3) : Q :=
  1 + (refr_w i d n - eta i d n) * (refr_w i d n + eta i d n).

(** The block "Handle refraction". *)
Definition refractStep (i : isect Material) (position d n thresh : dvec3)
    (acc : dvec3 * Q) : dvec3 * Q :=
  let m := getMaterial i in
  if Trans m then
    let k := refr_k i d n in
    if Qltb 0 k then
      let direction :=
        Glm.normalize
          ((refr_w i d n - sqrt k) *| normalSign d n
           + eta i d n *| d)%vec in
      let refract :=
        Ray (position + RAY_EPSILON *| direction)%vec direction
          Glm.ones REFRACTION in
      let '(tempColor, t) :=
        rec refract (kt m i * thresh)%vec (snd acc) in
      ((fst acc + kt m i * tempColor)%vec, t)
    else acc
  else acc.

(** The cut-off test on the ray weight. *)
Definition belowThreshold (thresh : dvec3) : bool :=
  Qltb thresh.[0] getThreshold
  && Qltb thresh.[1] getThreshold
  && Qltb thresh.[2] getThreshold.

(** What [traceRay] does once both base cases are passed. *)
Definition traceHit (r : ray) (thresh : dvec3) (t : Q) : dvec3 * Q :=
  match scene_intersect sc r with
  | Some i =>
      let m := getMaterial i in
      let t := getT i in
      let colorC := shade m sc r i in
      let position := ray_at r (getT i) in
      let d := Glm.normalize (getDirection r) in
      let n := Glm.normalize (getN i) in
      refractStep i position d n thresh
        (reflectStep i position d n thresh (colorC, t))
  | None =>
      (if cubeMap then getCubeMapColor r else Dvec3 0 0 0, t)
  end.

Definition traceRay_body (r : ray) (thresh : dvec3) (depth : Z) (t : Q)
    : dvec3 * Q :=
  if (depth <? 0)%Z then (Dvec3 0 0 0, t)
  else if belowThreshold thresh then (Dvec3 0 0 0, t)
  else traceHit r thresh t.
End Body.

(** [n] is [depth + 1] clipped at 0: at [n = 0] the depth is negative
    and the first base case answers. *)
Fixpoint traceRay_rec (n : nat) (sc : Scene) (r : ray) (thresh : dvec3)
    (depth : Z) (t : Q) : dvec3 * Q :=
  match n with
  | O => (Dvec3 0 0 0, t)
  | Datatypes.S n =>
      traceRay_body sc
        (fun r' thresh' t' => traceRay_rec n sc r' thresh' (depth - 1) t')
        r thresh depth t
  end.

(** [RayTracer::traceRay]; the pair is the returned colour and the value
    left in [t]. *)
Definition traceRay (sc : Scene) (r : ray) (thresh : dvec3) (depth : Z)
    (t : Q) : dvec3 * Q :=
  traceRay_rec (Z.to_nat (depth + 1)) sc r thresh depth t.

(** [RayTracer::trace]; [dummy] is not initialised in the source and is
    only written, 0 stands for it. *)
Definition trace (sc : Scene) (x y : Q) : dvec3 :=
  let r := Ray (Dvec3 0 0 0) (Dvec3 0 0 0) (Dvec3 1 1 1) VISIBILITY in
  let r := rayThrough sc x y r in
  let ret := fst (traceRay sc r (Dvec3 1 1 1) getDepth 0) in
  Glm.clamp ret 0 1.

(** *** The frame buffer *)

(** [( i + j * buffer_width ) * 3]. *)
Definition pixelOffset (rt : t) (i j : Z) : Z :=
  ((i + j * buffer_width rt) * 3)%Z.

(** [pixel[k] = v]; writing outside the vector is undefined in the
    source and leaves the buffer as it is here. *)
Definition store (buf : list Z) (off : Z) (v : Z) : list Z :=
  if (0 <=? off)%Z then <[Z.to_nat off := to_uchar v]> buf else buf.

(** [pixel[k]]; reading outside the vector is undefined in the source
    and reads 0 here. *)
Definition load (buf : list Z) (off : Z) : Z :=
  if (0 <=? off)%Z then default 0%Z (buf !! Z.to_nat off) else 0%Z.

(** The three assignments [pixel[k] = (int)( 255.0 * col[k] )]. *)
Definition storePixel (buf : list Z) (off : Z) (col : dvec3) : list Z :=
  let buf := store buf off (double_to_int (255 * col.[0])) in
  let buf := store buf (off + 1) (double_to_int (255 * col.[1])) in
  store buf (off + 2) (double_to_int (255 * col.[2])).

(** [RayTracer::tracePixel]: the returned colour and the tracer
    afterwards. *)
Definition tracePixel (rt : t) (i j : Z) : dvec3 * t :=
  let col := Dvec3 0 0 0 in
  if negb (sceneLoaded rt) then (col, rt)
  else
    match scene rt with
    | None => (col, rt)   (* not reached: the scene is loaded *)
    | Some sc =>
        let x := inject_Z i / inject_Z (buffer_width rt) in
        let y := inject_Z j / inject_Z (buffer_height rt) in
        let col := trace sc x y in
        (col,
         with_buffer rt (storePixel (buffer rt) (pixelOffset rt i j) col))
    end.

(** [RayTracer::getPixel]. *)
Definition getPixel (rt : t) (i j : Z) : dvec3 :=
  let off := pixelOffset rt i j in
  Dvec3 (inject_Z (load (buffer rt) off) / 255)
        (inject_Z (load (buffer rt) (off + 1)) / 255)
        (inject_Z (load (buffer rt) (off + 2)) / 255).

(** [RayTracer::setPixel]. *)
Definition setPixel (rt : t) (i j : Z) (color : dvec3) : t :=
  with_buffer rt (storePixel (buffer rt) (pixelOffset rt i j) color).

(** [RayTracer::traceSetup]: the buffer has [w * h * 3] bytes, all 0,
    afterwards. *)
Definition traceSetup (rt : t) (w h : Z) : t :=
  let sc :=
    if kdSwitch
    then option_map (fun s => scene_buildTree s getMaxDepth getLeafSize)
           (scene rt)
    else scene rt in
  Build sc (replicate (Z.to_nat (w * h * 3)) 0%Z) getThreshold w h true
    getThreads getBlockSize getSuperSamples getAaThreshold
    (finishedThreads rt).

(** The pixel the loop of [traceImageThread] visits at counter [p]. *)
Definition pixelOf (rt : t) (p : Z) : Z * Z :=
  (Z.quot p (buffer_height rt), Z.rem p (buffer_height rt)).

(** [RayTracer::traceImageThread]; the loop takes at most [w * h - id]
    rounds when [threads] is positive, and does not end otherwise
    ([None]). *)
Definition traceImageThread (rt : t) (id w h : Z) : option t :=
  match
    strideLoop (Z.to_nat (w * h - id)) id (w * h) (threads rt)
      (fun p rt =>
         let '(i, j) := pixelOf rt p in snd (tracePixel rt i j))
      rt
  with
  | Some rt => Some (with_finished rt (id :: finishedThreads rt))
  | None => None
  end.

(** The arguments of the calls to [tracePixel] that [traceImageThread]
    makes, in order: the same loop, recording instead of tracing. *)
Definition workerPixels (rt : t) (id w h : Z) : option (list (Z * Z)) :=
  strideLoop (Z.to_nat (w * h - id)) id (w * h) (threads rt)
    (fun p acc => acc ++ [pixelOf rt p]) [].

(** The bytes a call [tracePixel(i, j)] assigns. *)
Definition pixelBytes (rt : t) (ij : Z * Z) : list Z :=
  let off := pixelOffset rt (fst ij) (snd ij) in
  [off; (off + 1)%Z; (off + 2)%Z].

(** The values of [t] in [for (int t = 0; t < n; ++t)]. *)
Definition workerIds (n : Z) : list Z := map Z.of_nat (seq 0 (Z.to_nat n)).

(** [RayTracer::traceImage]: the tracer after [traceSetup] and the ids of
    the workers started, in the order of their start. *)
Definition traceImage (rt : t) (w h : Z) : t * list Z :=
  let rt := traceSetup rt w h in
  (rt, workerIds (threads rt)).

(** The workers run to their end one after another, in the order given. *)
Fixpoint runWorkers (order : list Z) (rt : t) (w h : Z) : option t :=
  match order with
  | [] => Some rt
  | id :: rest =>
      match traceImageThread rt id w h with
      | Some rt => runWorkers rest rt w h
      | None => None
      end
  end.

(** [finishedThreads.find(i) != finishedThreads.end()]. *)
Definition isFinished (rt : t) (i : Z) : bool :=
  existsb (Z.eqb i) (finishedThreads rt).

(** [RayTracer::checkRender]: the answer and the tracer afterwards. *)
Definition checkRender (rt : t) : bool * t :=
  if forallb (isFinished rt) (workerIds (threads rt))
  then (true, with_finished rt [])
  else (false, rt).

(** [RayTracer::waitRender]: joining the workers changes none of the
    members kept here; the set is cleared. *)
Definition waitRender (rt : t) : t := with_finished rt [].

(** [RayTracer::aaImage]: the value returned and the ids of the workers
    started. *)
Definition aaImage (rt : t) : Z * list Z :=
  (0%Z, if (0 <? samples rt)%Z then workerIds (threads rt) else []).

(** The test on one neighbour in [aaImageThread]:
    [diff[0] > aaThresh || diff[1] > aaThresh || diff[2] > aaThresh]. *)
Definition differs (rt : t) (color : dvec3) (i j : Z) : bool :=
  let diff := Glm.abs (getPixel rt i j - color)%vec in
  Qltb (aaThresh rt) diff.[0] || Qltb (aaThresh rt) diff.[1]
  || Qltb (aaThresh rt) diff.[2].

(** The values of [v] in [for (int v = lo; v < hi; ++v)]. *)
Definition range (lo hi : Z) : list Z :=
  map (fun k => (lo + Z.of_nat k)%Z) (seq 0 (Z.to_nat (hi - lo))).

(** The loop over [b] of [aaImageThread], run on the values of [b] that
    are left, from the value of the flag [onBoundary] at its entry:
    [continue] goes on with the next value, [break] leaves the loop with
    the flag set. *)
Fixpoint neighbourRow (rt : t) (color : dvec3) (i j a : Z) (bs : list Z)
    (onBoundary : bool) : bool :=
  match bs with
  | [] => onBoundary
  | b :: bs =>
      if (a =? 0)%Z && (b =? 0)%Z
      then neighbourRow rt color i j a bs onBoundary          (* continue *)
      else if (j + b <? 0)%Z || (buffer_height rt <=? j + b)%Z
      then neighbourRow rt color i j a bs onBoundary          (* continue *)
      else if differs rt color (i + a) (j + b)
      then true                             (* onBoundary = true; break *)
      else neighbourRow rt color i j a bs onBoundary
  end.

(** The loop over [a], with the loop over [b] inside and the test
    [if (onBoundary) break;] after it. *)
Fixpoint neighbourRows (rt : t) (color : dvec3) (i j : Z) (avals : list Z)
    (onBoundary : bool) : bool :=
  match avals with
  | [] => onBoundary
  | a :: avals =>
      if (i + a <? 0)%Z || (buffer_width rt <=? i + a)%Z
      then neighbourRows rt color i j avals onBoundary        (* continue *)
      else
        let onBoundary :=
          neighbourRow rt color i j a (range (-1) 2) onBoundary in
        if onBoundary then onBoundary                          (* break *)
        else neighbourRows rt color i j avals onBoundary
  end.

(** The value of [onBoundary] after the two loops of [aaImageThread]. *)
Definition onBoundary (rt : t) (i j : Z) : bool :=
  let color := getPixel rt i j in
  neighbourRows rt color i j (range (-1) 2) false.

(** The two loops over the grid of [aaImageThread], for the samples
    [g a b] that the calls of [trace] return: [newColor] after them. *)
Definition gridSum (g : Z -> Z -> dvec3) (samples : Z) : dvec3 :=
  let totalSamples := (samples ^ 2)%Z in
  fold_left
    (fun newColor a =>
       fold_left
         (fun newColor b =>
            (newColor
             + Glm.div_scalar (g a b) (inject_Z totalSamples))%vec)
         (workerIds samples) newColor)
    (workerIds samples) (Dvec3 0 0 0).

(** The grid loop of [aaImageThread] with its samples: the colour handed
    to [setPixel]. *)
Definition superSample (rt : t) (sc : Scene) (i j : Z) : dvec3 :=
  let x_offset := 1 / inject_Z (buffer_width rt * samples rt) in
  let y_offset := 1 / inject_Z (buffer_height rt * samples rt) in
  let x := (inject_Z i - 0.5) / inject_Z (buffer_width rt) in
  let y := (inject_Z j - 0.5) / inject_Z (buffer_height rt) in
  gridSum
    (fun a b =>
       let x_sample := x + inject_Z a * x_offset in
       let y_sample := y + inject_Z b * y_offset in
       trace sc x_sample y_sample)
    (samples rt).

(** One round of the loop of [aaImageThread].  [trace] dereferences the
    scene without a test; with no scene the round leaves the tracer as it
    is here. *)
Definition aaPixel (rt : t) (p : Z) : t :=
  let '(i, j) := pixelOf rt p in
  if onBoundary rt i j then
    match scene rt with
    | Some sc => setPixel rt i j (superSample rt sc i j)
    | None => rt
    end
  else rt.

(** [RayTracer::aaImageThread]. *)
Definition aaImageThread (rt : t) (id w h : Z) : option t :=
  match
    strideLoop (Z.to_nat (w * h - id)) id (w * h) (threads rt)
      (fun p rt => aaPixel rt p) rt
  with
  | Some rt => Some (with_finished rt (id :: finishedThreads rt))
  | None => None
  end.

End RayTracer.
Arguments t : clear implicits.
End RayTracer.

(** ** The statements of the specification that are compared with the code *)

Module Spec.
(** "At a leaf ... keep the hit with the smallest [t] within
    [[t_min, t_max]]": the leaf reports a hit exactly when an object of the
    leaf has a hit inside the interval handed to it. *)
Definition leaf_reports_hits_in_interval {Material : Type} `{RayConsts}
    (objList : list (Geometry.t Material)) (r : ray)
    (st : KdTree.Trav Material) : Prop :=
  fst (KdTree.findIntersection (KdTree.LeafNode objList) r st) = true
  <-> exists obj cur,
        In obj objList /\ Geometry.intersect obj r = Some cur
        /\ KdTree.t_min st <= getT cur <= KdTree.t_max st.

(** "[Nl] counts objects whose bbox min lies strictly below the plane,
    [Nr] counts those whose bbox max lies strictly above." *)
Definition Nl {Material : Type} (objs : list (Geometry.t Material))
    (axis : Z) (pos : Q) : Z :=
  Z.of_nat
    (List.length
       (List.filter
          (fun o => Qltb (getMin (Geometry.getBoundingBox o)).[axis] pos)
          objs)).
Definition Nr {Material : Type} (objs : list (Geometry.t Material))
    (axis : Z) (pos : Q) : Z :=
  Z.of_nat
    (List.length
       (List.filter
          (fun o => Qltb pos (getMax (Geometry.getBoundingBox o)).[axis])
          objs)).

(** Modelled from the spec: "Otherwise selects a split plane by SAH over
    candidate planes": the plane [findBestPlane] returns is one of the
    candidates, with its counts and areas. *)
Definition selects_candidate {Material : Type}
    (objs : list (Geometry.t Material)) (bbox : BoundingBox) : Prop :=
  exists q,
    In q (KdTree.planeList objs bbox)
    /\ KdTree.findBestPlane objs bbox = Some (KdTree.evalPlane objs q).

(** "each [round(255 * clamp(c, 0, 1))]". *)
Definition quantize_round (c : Q) : Z :=
  round_half_away (255 * Glm.clampQ c 0 1).

(** What the assignments [pixel[k] = (int)( 255.0 * c )] store. *)
Definition quantize_trunc (c : Q) : Z := to_uchar (double_to_int (255 * c)).
End Spec.

(** ** Concrete scenes

    A platform, a material type, axis-aligned boxes as geometry and a small
    configuration, on which the definitions above compute. *)

Module Fixtures.

#[export] Instance consts : RayConsts := {| RAY_EPSILON := 1e-12 |}.

(** Exact on squares of rationals, rounded down otherwise. *)
Definition sqrt_down (q : Q) : Q :=
  Z.sqrt (Qnum q * Zpos (Qden q)) # Qden q.

#[export] Instance libm : Libm := {| sqrt := sqrt_down |}.

Record Mat := mkMat {
  m_name : Z;
  m_ke : dvec3;
  m_refl : bool;
  m_trans : bool;
  m_kr : dvec3;
  m_kt : dvec3;
  m_index : Q
}.

#[export] Instance mat_ops : MaterialOps Mat := {|
  Refl := m_refl;
  Trans := m_trans;
  kr := fun m _ => m_kr m;
  kt := fun m _ => m_kt m;
  index := fun m _ => m_index m
|}.

(** An axis-aligned box: the nearest crossing of its surface at a
    parameter above [RAY_EPSILON]. *)
Definition box (m : Mat) (b : BoundingBox) : Geometry.t Mat :=
  Geometry.Build b
    (fun r =>
       let '(ok, t0, t1) := BBox.intersect b r in
       if ok then
         if Qltb RAY_EPSILON t0 then Some (Isect t0 (Dvec3 0 0 1) m)
         else if Qltb RAY_EPSILON t1 then Some (Isect t1 (Dvec3 0 0 1) m)
         else None
       else None)
    (Dvec3 0 0 1).

(** A scene is its list of objects, scanned linearly; materials shade
    with their emissive term only; the camera looks down [-z]. *)
#[export] Instance scene_ops : SceneOps Mat (list (Geometry.t Mat)) := {|
  scene_intersect := Scene.linearIntersect;
  shade := fun m _ _ _ => m_ke m;
  rayThrough := fun _ x y r =>
    Ray (Dvec3 0 0 0) (Dvec3 (x - (1 # 2)) (y - (1 # 2)) (-1))
      (getAtten r) (rayType r);
  scene_buildTree := fun s _ _ => s
|}.

(** Depth 1, cut-off 1/2, a grey cube map, two workers. *)
#[export] Instance ui : TraceUI := {|
  getDepth := 1;
  getThreshold := 1 # 2;
  cubeMap := true;
  getCubeMapColor := fun _ => Dvec3 (3 # 16) (3 # 16) (3 # 16);
  getThreads := 2;
  getBlockSize := 4;
  getSuperSamples := 3;
  getAaThreshold := 1 # 10;
  kdSwitch := false;
  getMaxDepth := 15;
  getLeafSize := 1
|}.

Definition matte (name : Z) (ke : dvec3) : Mat :=
  mkMat name ke false false (Dvec3 0 0 0) (Dvec3 0 0 0) 1.
Definition red : Mat := matte 1 (Dvec3 1 0 0).
Definition blue : Mat := matte 2 (Dvec3 0 0 1).
Definition glass : Mat :=
  mkMat 3 (Dvec3 0.2 0.2 0.2) false true (Dvec3 0 0 0)
    (Dvec3 (1 # 2) (1 # 2) (1 # 2)) (3 # 2).

(** A vector with its components in lowest terms. *)
Definition reduced (v : dvec3) : dvec3 :=
  Dvec3 (Qred (vx v)) (Qred (vy v)) (Qred (vz v)).

(** Two unit-high boxes side by side on the x axis, and a ray that comes
    from beyond the far one and runs against the x axis. *)
Definition boxA : Geometry.t Mat :=
  box red (mkBBox (Dvec3 0 0 0) (Dvec3 1 1 1)).
Definition boxB : Geometry.t Mat :=
  box blue (mkBBox (Dvec3 3 0 0) (Dvec3 4 1 1)).
Definition boundsAB : BoundingBox := mkBBox (Dvec3 0 0 0) (Dvec3 4 1 1).
Definition rayAgainstX : ray :=
  Ray (Dvec3 6 (1 # 2) (1 # 2)) (Dvec3 (-1) 0 0) Glm.ones VISIBILITY.

(** Two thin boxes, [0.25, 0.5] and [0.75, 1] on the x axis, and a ray
    along y through the first one only. *)
Definition boxC : Geometry.t Mat :=
  box red (mkBBox (Dvec3 0.25 0 0) (Dvec3 0.5 1 1)).
Definition boxD : Geometry.t Mat :=
  box blue (mkBBox (Dvec3 0.75 0 0) (Dvec3 1 1 1)).
Definition boundsCD : BoundingBox := mkBBox (Dvec3 0.25 0 0) (Dvec3 1 1 1).
Definition rayAlongY : ray :=
  Ray (Dvec3 0.375 (-1) 0.5) (Dvec3 0 1 0) Glm.ones VISIBILITY.

(** The traversal state a caller starts from: a fresh [isect] and the
    whole parametric interval. *)
Definition freshTrav : KdTree.Trav Mat :=
  KdTree.mkTrav (Isect 0 (Dvec3 0 0 0) (matte 0 (Dvec3 0 0 0))) 0 BBox.T_FAR.

(** [KdTree::buildTree] followed by [KdTree::intersect]; [None] when a
    hit is not reported. *)
Definition kdIntersect (objs : list (Geometry.t Mat)) (bounds : BoundingBox)
    (depthLimit leafSize : Z) (r : ray) : option (option (isect Mat)) :=
  match KdTree.buildTree objs bounds depthLimit leafSize with
  | Some root =>
      let '(found, st) := KdTree.intersect root r freshTrav in
      Some (if found then Some (KdTree.trav_i st) else None)
  | None => None
  end.

(** What is compared between two intersection results: the parameter
    (in lowest terms) and the material. *)
Definition hitSummary (o : option (isect Mat)) : option (Q * Z) :=
  option_map (fun i => (Qred (getT i), m_name (getMaterial i))) o.

(** A glass cube, a ray that leaves it through the top face at a grazing
    angle, and a ray that enters it from above. *)
Definition glassBox : Geometry.t Mat :=
  box glass (mkBBox (Dvec3 0 0 0) (Dvec3 1 1 1)).
Definition rayLeavingGlass : ray :=
  Ray (Dvec3 0.1 0.5 0.9) (Dvec3 (4 # 5) 0 (3 # 5)) Glm.ones VISIBILITY.
Definition rayEnteringGlass : ray :=
  Ray (Dvec3 0.5 0.5 2) (Dvec3 0 0 (-1)) Glm.ones VISIBILITY.

(** A flat square in the plane [x = 1]. *)
Definition flatSquare : Geometry.t Mat :=
  box red (mkBBox (Dvec3 1 0 0) (Dvec3 1 1 1)).

(** A white directional light shining down and a white point light, both
    seen from a point below the glass cube. *)
Definition white : dvec3 := Dvec3 1 1 1.
Definition sun : DirectionalLight.t (list (Geometry.t Mat)) :=
  DirectionalLight.Build [glassBox] white (Dvec3 0 0 (-1)).
Definition lamp : PointLight.t (list (Geometry.t Mat)) :=
  PointLight.Build [glassBox] white (Dvec3 0.5 0.5 (-0.5)) 1 0 0.
Definition belowCube : dvec3 := Dvec3 0.5 0.5 (-1).

(** A far box: the ray along x meets it at [t = 2e13 - 1]. *)
Definition farBox : Geometry.t Mat :=
  box red (mkBBox (Dvec3 2e13 (-1) (-1)) (Dvec3 (2e13 + 1) 1 1)).
Definition rayAlongX : ray :=
  Ray (Dvec3 1 0 0) (Dvec3 1 0 0) Glm.ones VISIBILITY.

(** Two boxes shrunk to points on the x axis, and the segment that
    bounds them: a box of area 0. *)
Definition pointA : Geometry.t Mat :=
  box red (mkBBox (Dvec3 0 0 0) (Dvec3 0 0 0)).
Definition pointB : Geometry.t Mat :=
  box blue (mkBBox (Dvec3 1 0 0) (Dvec3 1 0 0)).
Definition segmentAB : BoundingBox := mkBBox (Dvec3 0 0 0) (Dvec3 1 0 0).

(** A tracer on a [w] by [h] buffer. *)
Definition tracer (sc : option (list (Geometry.t Mat))) (w h : Z)
    : RayTracer.t (list (Geometry.t Mat)) :=
  RayTracer.traceSetup
    (RayTracer.Build sc [] 0 0 0 false 0 0 0 0 []) w h.

End Fixtures.


(** ** Predicates on tracer states used in the statements below *)

Section TracerPredicates.
Context {Material Scene : Type} `{RayConsts} `{Libm} `{TraceUI}
        `{MaterialOps Material} `{SceneOps Material Scene}.

(** [rt'] differs from [rt] in the buffer and the set of finished workers
    at most. *)
Definition keepsSettings (rt rt' : RayTracer.t Scene) : Prop :=
  rt' = RayTracer.with_finished
          (RayTracer.with_buffer rt (RayTracer.buffer rt'))
          (RayTracer.finishedThreads rt').

(** ... and the buffer has kept its size. *)
Definition sameConfig (rt rt' : RayTracer.t Scene) : Prop :=
  keepsSettings rt rt'
  /\ length (RayTracer.buffer rt') = length (RayTracer.buffer rt).

(** The three bytes of pixel [ij] in [buf] are the quantised colour that
    [tracePixel] returns for it on [rt]. *)
Definition renderedAt (rt : RayTracer.t Scene) (buf : list Z) (ij : Z * Z)
    : Prop :=
  forall k, (0 <= k < 3)%Z ->
    RayTracer.load buf (RayTracer.pixelOffset rt (fst ij) (snd ij) + k)
    = Spec.quantize_trunc
        (fst (RayTracer.tracePixel rt (fst ij) (snd ij))).[k].

(** Pixel [ij] lies inside the image of [rt]. *)
Definition inImage (rt : RayTracer.t Scene) (ij : Z * Z) : Prop :=
  (0 <= fst ij < RayTracer.buffer_width rt)%Z
  /\ (0 <= snd ij < RayTracer.buffer_height rt)%Z.

End TracerPredicates.

(** ** Predicates on trees used in the statements below *)

Section TreePredicates.
Context {Material : Type}.

(** The tree keeps the objects it was given: a leaf never holds an object
    that was not in the list, an object of the list whose box is well
    formed on every axis is held by some leaf, and the branches have fewer
    than [depthLimit - depth] split nodes. *)
Definition keeps_objects (objList : list (Geometry.t Material))
    (depthLimit depth : Z) (root : KdTree.Node Material) : Prop :=
  (forall obj, In obj (KdTree.leafObjects root) -> In obj objList)
  /\ (forall obj, In obj objList ->
        (forall a, (getMin (Geometry.getBoundingBox obj)).[a]
                   <= (getMax (Geometry.getBoundingBox obj)).[a]) ->
        In obj (KdTree.leafObjects root))
  /\ ((depth < depthLimit)%Z ->
      (Z.of_nat (KdTree.height root) <= depthLimit - depth - 1)%Z).

End TreePredicates.
(** * Properties *)

(** ** Comparisons on doubles *)

Lemma Qltb_lt (a b : Q) : Qltb a b = true <-> a < b.
Proof.
  unfold Qltb. rewrite negb_true_iff, <- not_true_iff_false, Qle_bool_iff.
  split; [apply Qnot_le_lt | apply Qlt_not_le].
Qed.

Lemma Qltb_ge (a b : Q) : Qltb a b = false <-> b <= a.
Proof.
  unfold Qltb. rewrite negb_false_iff, Qle_bool_iff. reflexivity.
Qed.

Lemma Qmult_comm_eq (a b : Q) : a * b = b * a.
Proof.
  unfold Qmult. f_equal; [apply Z.mul_comm | apply Pos.mul_comm].
Qed.

Lemma dot_comm (a b : dvec3) : Glm.dot a b = Glm.dot b a.
Proof.
  unfold Glm.dot.
  rewrite (Qmult_comm_eq (vx a)), (Qmult_comm_eq (vy a)), (Qmult_comm_eq (vz a)).
  reflexivity.
Qed.

(** ** traceRay *)

Section TraceRayFacts.
Context {Material Scene : Type} `{RayConsts} `{Libm} `{TraceUI}
        `{MaterialOps Material} `{SceneOps Material Scene}.

Lemma belowThreshold_iff (thresh : dvec3) :
  RayTracer.belowThreshold thresh = true <->
  thresh.[0] < getThreshold /\ thresh.[1] < getThreshold
  /\ thresh.[2] < getThreshold.
Proof.
  unfold RayTracer.belowThreshold.
  rewrite !andb_true_iff, !Qltb_lt. tauto.
Qed.

(** [traceRay] satisfies the recursion equation of the source: its body,
    with the recursive calls made at [depth - 1]. *)
Lemma traceRay_unfold (sc : Scene) (r : ray) (thresh : dvec3) (depth : Z)
    (t : Q) :
  RayTracer.traceRay sc r thresh depth t =
  RayTracer.traceRay_body sc
    (fun r' thresh' t' => RayTracer.traceRay sc r' thresh' (depth - 1) t')
    r thresh depth t.
Proof.
  unfold RayTracer.traceRay.
  destruct (Z.ltb_spec depth 0) as [Hneg | Hpos].
  - replace (Z.to_nat (depth + 1)) with O by lia.
    unfold RayTracer.traceRay_body.
    destruct (Z.ltb_spec depth 0); [reflexivity | lia].
  - replace (Z.to_nat (depth + 1)) with (Datatypes.S (Z.to_nat depth)) by lia.
    replace (depth - 1 + 1)%Z with depth by lia.
    reflexivity.
Qed.

(** C3.  [traceRay] returns (0,0,0) when [depth < 0], and returns (0,0,0)
    when all three components of [thresh] are below the global threshold.
    The cut-off is a conjunction: as soon as one component is at or above
    the threshold (and the depth is not negative) neither base case
    answers and [traceRay] goes on to intersect the scene. *)
Theorem traceRay_base_cases (sc : Scene) (r : ray) (thresh : dvec3)
    (depth : Z) (t : Q) :
  ((depth < 0)%Z ->
     RayTracer.traceRay sc r thresh depth t = (Dvec3 0 0 0, t))
  /\ (thresh.[0] < getThreshold /\ thresh.[1] < getThreshold
      /\ thresh.[2] < getThreshold ->
      RayTracer.traceRay sc r thresh depth t = (Dvec3 0 0 0, t))
  /\ ((0 <= depth)%Z ->
      getThreshold <= thresh.[0] \/ getThreshold <= thresh.[1]
      \/ getThreshold <= thresh.[2] ->
      RayTracer.traceRay sc r thresh depth t =
      RayTracer.traceHit sc
        (fun r' thresh' t' =>
           RayTracer.traceRay sc r' thresh' (depth - 1) t')
        r thresh t).
Proof.
  rewrite traceRay_unfold. unfold RayTracer.traceRay_body.
  split; [| split].
  - intros Hd. destruct (Z.ltb_spec depth 0); [reflexivity | lia].
  - intros Hth. apply belowThreshold_iff in Hth. rewrite Hth.
    destruct (depth <? 0)%Z; reflexivity.
  - intros Hd Hth. destruct (Z.ltb_spec depth 0); [lia |].
    destruct (RayTracer.belowThreshold thresh) eqn:Hb; [| reflexivity].
    apply belowThreshold_iff in Hb. lra.
Qed.

(** C2.  A hit on a transmissive material.  The ray is exiting exactly
    when [d.n > 0]; then the working normal is [-n] and the indices are
    (index, 1), else [n] and (1, index).  With [eta = n_from / n_to],
    [c = |d . n_working|] and [k = 1 + (eta c - eta)(eta c + eta)]:
    when [k <= 0] the refraction step leaves colour and [t] as the
    reflection step left them; when [k > 0] it adds [kt * childColor],
    the child being [traceRay] on the ray from [P + eps * dir] along
    [dir = normalize((eta c - sqrt k) n_working + eta d)] with weight
    [kt * thresh] and depth [depth - 1]. *)
Theorem traceRay_refraction (sc : Scene) (r : ray) (thresh : dvec3)
    (depth : Z) (t : Q) (i : isect Material) :
  (0 <= depth)%Z ->
  RayTracer.belowThreshold thresh = false ->
  scene_intersect sc r = Some i ->
  Trans (getMaterial i) = true ->
  let m := getMaterial i in
  let P := ray_at r (getT i) in
  let d := Glm.normalize (getDirection r) in
  let n := Glm.normalize (getN i) in
  let child := fun r' thresh' t' =>
                 RayTracer.traceRay sc r' thresh' (depth - 1) t' in
  let before :=
    RayTracer.reflectStep child i P d n thresh (shade m sc r i, getT i) in
  let exiting := Qltb 0 (Glm.dot d n) in
  let n_working := if exiting then (- n)%vec else n in
  let n_from := if exiting then index m i else 1 in
  let n_to := if exiting then 1 else index m i in
  let eta := n_from / n_to in
  let c := Qabs (Glm.dot d n_working) in
  let k := 1 + (eta * c - eta) * (eta * c + eta) in
  (exiting = true <-> 0 < Glm.dot d n)
  /\ (k <= 0 -> RayTracer.traceRay sc r thresh depth t = before)
  /\ (0 < k ->
      let dir :=
        Glm.normalize ((eta * c - sqrt k) *| n_working + eta *| d)%vec in
      let refract :=
        Ray (P + RAY_EPSILON *| dir)%vec dir (Dvec3 1 1 1) REFRACTION in
      let childResult :=
        RayTracer.traceRay sc refract (kt m i * thresh)%vec (depth - 1)
          (snd before) in
      RayTracer.traceRay sc r thresh depth t =
      ((fst before + kt m i * fst childResult)%vec, snd childResult)).
Proof.
  intros Hd Hb Hi Htr m P d n child before exiting n_working n_from n_to
    eta c k.
  split; [apply Qltb_lt |].
  assert (Hk : RayTracer.refr_k i d n = k).
  { unfold RayTracer.refr_k, RayTracer.refr_w, RayTracer.cosd,
      RayTracer.eta, RayTracer.normalSign, RayTracer.rayIsExiting.
    fold m exiting n_working n_from n_to eta.
    rewrite (dot_comm n_working d). reflexivity. }
  assert (Hw : RayTracer.refr_w i d n = eta * c).
  { unfold RayTracer.refr_w, RayTracer.cosd, RayTracer.eta,
      RayTracer.normalSign, RayTracer.rayIsExiting.
    fold m exiting n_working n_from n_to eta.
    rewrite (dot_comm n_working d). reflexivity. }
  assert (Hstep : RayTracer.traceRay sc r thresh depth t =
                  RayTracer.refractStep child i P d n thresh before).
  { rewrite traceRay_unfold. unfold RayTracer.traceRay_body.
    destruct (Z.ltb_spec depth 0); [lia |].
    rewrite Hb. unfold RayTracer.traceHit. rewrite Hi. reflexivity. }
  rewrite Hstep. unfold RayTracer.refractStep. cbv zeta.
  rewrite Htr, Hk, Hw.
  split.
  - intros Hle. apply Qltb_ge in Hle. rewrite Hle. reflexivity.
  - intros Hlt. apply Qltb_lt in Hlt. rewrite Hlt.
    cbv zeta. unfold Glm.ones.
    change (RayTracer.eta i d n) with eta.
    change (RayTracer.normalSign d n) with n_working.
    unfold child.
    destruct (RayTracer.traceRay sc _ _ (depth - 1) (snd before));
      reflexivity.
Qed.

End TraceRayFacts.

(** ** Shadow rays *)

Section LightFacts.
Context {Material Scene : Type} `{RayConsts} `{Libm}
        `{MaterialOps Material} `{SceneOps Material Scene}.

(** C8.  Both lights cast one shadow ray, from [p + RAY_EPSILON * dir] along
    [dir], the normalised direction toward the light.  Without an occluder
    the light's colour is returned; a point light also returns it when the
    occluder's [t] is not less than the distance from [p] to the light.
    Otherwise the result is [kt] of the occluder's material at that hit
    times the light's colour: the scene is asked once and the first
    occluder alone attenuates. *)
Theorem shadowAttenuation_one_bounce
    (dl : DirectionalLight.t Scene) (pl : PointLight.t Scene)
    (r : ray) (p : dvec3) :
  let ddir := Glm.normalize (- DirectionalLight.orientation dl)%vec in
  let dshadow := Ray (p + RAY_EPSILON *| ddir)%vec ddir (Dvec3 1 1 1) SHADOW in
  let pdir :=
    Glm.normalize (Glm.normalize (PointLight.position pl - p)%vec) in
  let pshadow := Ray (p + RAY_EPSILON *| pdir)%vec pdir (Dvec3 1 1 1) SHADOW in
  let dist := Glm.distance (PointLight.position pl) p in
  (scene_intersect (DirectionalLight.getScene dl) dshadow = None ->
   DirectionalLight.shadowAttenuation dl r p = DirectionalLight.color dl)
  /\ (forall i,
      scene_intersect (DirectionalLight.getScene dl) dshadow = Some i ->
      DirectionalLight.shadowAttenuation dl r p =
      (kt (getMaterial i) i * DirectionalLight.color dl)%vec)
  /\ (scene_intersect (PointLight.getScene pl) pshadow = None ->
      PointLight.shadowAttenuation pl r p = PointLight.color pl)
  /\ (forall i,
      scene_intersect (PointLight.getScene pl) pshadow = Some i ->
      dist <= getT i ->
      PointLight.shadowAttenuation pl r p = PointLight.color pl)
  /\ (forall i,
      scene_intersect (PointLight.getScene pl) pshadow = Some i ->
      getT i < dist ->
      PointLight.shadowAttenuation pl r p =
      (kt (getMaterial i) i * PointLight.color pl)%vec).
Proof.
  intros ddir dshadow pdir pshadow dist.
  unfold DirectionalLight.shadowAttenuation, PointLight.shadowAttenuation,
    DirectionalLight.shadowRay, DirectionalLight.getDirection,
    PointLight.getDirection, Glm.ones.
  fold ddir dshadow pdir pshadow dist.
  repeat split.
  - intros ->. reflexivity.
  - intros i ->. reflexivity.
  - intros ->. reflexivity.
  - intros i -> Hfar. apply Qltb_ge in Hfar. rewrite Hfar. reflexivity.
  - intros i -> Hnear. apply Qltb_lt in Hnear. rewrite Hnear. reflexivity.
Qed.

End LightFacts.

(** ** The frame buffer *)

Section BufferFacts.
Context {Material Scene : Type} `{RayConsts} `{Libm} `{TraceUI}
        `{MaterialOps Material} `{SceneOps Material Scene}.

(** C10.  Without a loaded scene [tracePixel] returns (0,0,0) and the tracer,
    its frame buffer included, is what it was: no ray is traced and no byte
    is written. *)
Theorem tracePixel_without_scene (rt : RayTracer.t Scene) (i j : Z) :
  RayTracer.sceneLoaded rt = false ->
  RayTracer.tracePixel rt i j = (Dvec3 0 0 0, rt).
Proof.
  intros Hnone. unfold RayTracer.tracePixel. rewrite Hnone. reflexivity.
Qed.

Lemma double_to_int_floor (x : Q) : 0 <= x -> double_to_int x = Qfloor x.
Proof.
  intros Hx. unfold double_to_int, Qfloor. destruct x as [n d]. simpl.
  apply Z.quot_div_nonneg; [| lia].
  unfold Qle in Hx. simpl in Hx. lia.
Qed.

Lemma clampQ_bounds (x : Q) : 0 <= Glm.clampQ x 0 1 <= 1.
Proof.
  unfold Glm.clampQ. split.
  - apply Q.min_glb; [apply Q.le_max_r | lra].
  - apply Q.le_min_r.
Qed.

(** A clamped component is quantised to a byte without wrap-around. *)
Lemma quantize_trunc_clamped (x : Q) :
  Spec.quantize_trunc (Glm.clampQ x 0 1)
  = double_to_int (255 * Glm.clampQ x 0 1)
  /\ (0 <= double_to_int (255 * Glm.clampQ x 0 1) <= 255)%Z.
Proof.
  pose proof (clampQ_bounds x) as [Hlo Hhi].
  set (u := Glm.clampQ x 0 1) in *. clearbody u.
  assert (Hr : (0 <= double_to_int (255 * u) <= 255)%Z).
  { rewrite double_to_int_floor by lra. split.
    - exact (Qfloor_resp_le 0 (255 * u) ltac:(lra)).
    - exact (Qfloor_resp_le (255 * u) 255 ltac:(lra)). }
  split; [| exact Hr].
  unfold Spec.quantize_trunc, to_uchar. apply Z.mod_small. lia.
Qed.

Lemma length_store (buf : list Z) (off v : Z) :
  length (RayTracer.store buf off v) = length buf.
Proof.
  unfold RayTracer.store. destruct (0 <=? off)%Z; [apply length_insert | easy].
Qed.

Lemma load_store_eq (buf : list Z) (off v : Z) :
  (0 <= off < Z.of_nat (length buf))%Z ->
  RayTracer.load (RayTracer.store buf off v) off = to_uchar v.
Proof.
  intros Hoff. unfold RayTracer.load, RayTracer.store.
  destruct (Z.leb_spec 0 off); [| lia].
  rewrite list_lookup_insert_eq by lia. reflexivity.
Qed.

Lemma load_store_ne (buf : list Z) (off off' v : Z) :
  off <> off' ->
  RayTracer.load (RayTracer.store buf off v) off' = RayTracer.load buf off'.
Proof.
  intros Hne. unfold RayTracer.load, RayTracer.store.
  destruct (Z.leb_spec 0 off'); [| reflexivity].
  destruct (Z.leb_spec 0 off); [| reflexivity].
  rewrite list_lookup_insert_ne by lia. reflexivity.
Qed.

(** The three bytes [storePixel] writes, and the bytes it leaves. *)
Lemma storePixel_spec (buf : list Z) (off : Z) (col : dvec3) :
  (0 <= off)%Z -> (off + 2 < Z.of_nat (length buf))%Z ->
  let buf' := RayTracer.storePixel buf off col in
  RayTracer.load buf' off = Spec.quantize_trunc col.[0]
  /\ RayTracer.load buf' (off + 1) = Spec.quantize_trunc col.[1]
  /\ RayTracer.load buf' (off + 2) = Spec.quantize_trunc col.[2]
  /\ length buf' = length buf
  /\ (forall o, o <> off -> o <> (off + 1)%Z -> o <> (off + 2)%Z ->
      RayTracer.load buf' o = RayTracer.load buf o).
Proof.
  intros Hlo Hhi buf'. unfold buf', RayTracer.storePixel, Spec.quantize_trunc.
  repeat split.
  - rewrite !load_store_ne by lia. apply load_store_eq. lia.
  - rewrite load_store_ne by lia. apply load_store_eq.
    rewrite length_store. lia.
  - apply load_store_eq. rewrite !length_store. lia.
  - rewrite !length_store. reflexivity.
  - intros o Ha Hb Hc. rewrite !load_store_ne by lia. reflexivity.
Qed.

(** An in-range pixel owns three bytes of a [w * h * 3] buffer. *)
Lemma pixelOffset_in_range (rt : RayTracer.t Scene) (i j h : Z) :
  (0 <= i < RayTracer.buffer_width rt)%Z -> (0 <= j < h)%Z ->
  Z.of_nat (length (RayTracer.buffer rt))
  = (RayTracer.buffer_width rt * h * 3)%Z ->
  (0 <= RayTracer.pixelOffset rt i j)%Z
  /\ (RayTracer.pixelOffset rt i j + 2
      < Z.of_nat (length (RayTracer.buffer rt)))%Z.
Proof.
  intros Hi Hj Hlen. unfold RayTracer.pixelOffset. rewrite Hlen. nia.
Qed.

(** A component between 0 and 1 is what [glm::clamp] returns for it, and
    is quantised to a byte without wrap-around. *)
Lemma clampQ_unit (x : Q) : 0 <= x <= 1 -> Glm.clampQ x 0 1 = x.
Proof.
  intros [Hlo Hhi]. unfold Glm.clampQ, Qmin, Qmax, GenericMinMax.gmin,
    GenericMinMax.gmax.
  destruct (x ?= 0) eqn:E0.
  - destruct (x ?= 1) eqn:E1; try reflexivity.
    apply Qgt_alt in E1. lra.
  - apply Qlt_alt in E0. lra.
  - destruct (x ?= 1) eqn:E1; try reflexivity.
    apply Qgt_alt in E1. lra.
Qed.

Lemma quantize_trunc_unit (x : Q) :
  0 <= x <= 1 ->
  Spec.quantize_trunc x = double_to_int (255 * x)
  /\ (0 <= double_to_int (255 * x) <= 255)%Z.
Proof.
  intros Hx. rewrite <- (clampQ_unit x Hx). apply quantize_trunc_clamped.
Qed.


End BufferFacts.

(** ** The KD-tree: building *)

Section BuildFacts.
Context {Material : Type} `{RayConsts} `{Libm}.

Local Abbreviation Geometry := (Geometry.t Material).
Local Abbreviation minOn o a := ((getMin (Geometry.getBoundingBox o)).[a]).
Local Abbreviation maxOn o a := ((getMax (Geometry.getBoundingBox o)).[a]).

Lemma route_snoc (p : KdTree.Plane) (l : list Geometry) (x : Geometry) :
  KdTree.route p (l ++ [x]) = KdTree.routeStep p (KdTree.route p l) x.
Proof. unfold KdTree.route. rewrite fold_left_app. reflexivity. Qed.

(** A vector length is not negative as soon as the square root is not. *)
Lemma tieBreakLeft_false (obj : Geometry) :
  (forall x, 0 <= sqrt x) -> KdTree.tieBreakLeft obj = false.
Proof.
  intros Hsqrt. unfold KdTree.tieBreakLeft, Glm.length.
  apply Qltb_ge, Hsqrt.
Qed.

(** Where the routing loop sends the objects. *)
Lemma route_spec (p : KdTree.Plane) (objs : list Geometry) (x : Geometry) :
  (forall x, 0 <= sqrt x) ->
  (In x (fst (KdTree.route p objs)) <->
   In x objs /\ Qltb (minOn x (KdTree.axis p)) (KdTree.position p) = true)
  /\ (In x (snd (KdTree.route p objs)) <->
      In x objs
      /\ (Qltb (KdTree.position p) (maxOn x (KdTree.axis p)) = true
          \/ (Qeq_bool (KdTree.position p) (maxOn x (KdTree.axis p)) = true
              /\ Qeq_bool (KdTree.position p) (minOn x (KdTree.axis p))
                 = true))).
Proof.
  intros Hsqrt. induction objs as [| y l IH] using rev_ind.
  - simpl. tauto.
  - rewrite route_snoc. destruct IH as [IHl IHr].
    unfold KdTree.routeStep.
    rewrite (tieBreakLeft_false y Hsqrt), andb_false_r.
    assert (Hlen : Qle_bool 0 (Glm.length (Geometry.getNormal y)) = true).
    { apply Qle_bool_iff, Hsqrt. }
    rewrite Hlen, andb_true_r.
    destruct (KdTree.route p l) as [ll rl]. simpl in *.
    rewrite !in_app_iff.
    destruct (Qltb (minOn y (KdTree.axis p)) (KdTree.position p)) eqn:E1;
    destruct (Qltb (KdTree.position p) (maxOn y (KdTree.axis p))) eqn:E2;
    destruct (Qeq_bool (KdTree.position p) (maxOn y (KdTree.axis p))) eqn:E3;
    destruct (Qeq_bool (KdTree.position p) (minOn y (KdTree.axis p))) eqn:E4;
    simpl; rewrite ?in_app_iff; simpl; rewrite ?IHl, ?IHr;
    (split; split; intros Hx;
     repeat match goal with
       | Hx : _ /\ _ |- _ => destruct Hx
       | Hx : _ \/ _ |- _ => destruct Hx
       | Hx : False |- _ => destruct Hx
       end; subst; try congruence; auto 6).
Qed.

(** C7.  An object whose box on the split axis has [min == max == position]
    goes to the right list and not to the left one: the guard of the
    left-routing branch, [glm::length(obj->getNormal()) < 0], is false for
    every object, a length being a square root. *)
Theorem degenerate_object_routed_right (bestPlane : KdTree.Plane)
    (objList : list Geometry) (obj : Geometry) :
  (forall x, 0 <= sqrt x) ->
  In obj objList ->
  minOn obj (KdTree.axis bestPlane) == KdTree.position bestPlane ->
  maxOn obj (KdTree.axis bestPlane) == KdTree.position bestPlane ->
  (forall o : Geometry, KdTree.tieBreakLeft o = false)
  /\ In obj (snd (KdTree.route bestPlane objList))
  /\ ~ In obj (fst (KdTree.route bestPlane objList)).
Proof.
  intros Hsqrt Hin Hmin Hmax.
  destruct (route_spec bestPlane objList obj Hsqrt) as [Hl Hr].
  split; [intros o; apply tieBreakLeft_false, Hsqrt |].
  split.
  - apply Hr. split; [exact Hin |]. right.
    split; apply Qeq_bool_iff; symmetry; assumption.
  - intros Hleft. apply Hl in Hleft. destruct Hleft as [_ Hlt].
    apply Qltb_lt in Hlt. lra.
Qed.

(** *** Choosing the split plane *)

Lemma countP_fold (l : list Geometry) (a : Z) (pos : Q) (cl cr : Z) :
  fold_left
    (fun (c : Z * Z) obj =>
       let min := minOn obj a in
       let max := maxOn obj a in
       let countL := if Qltb min pos then (fst c + 1)%Z else fst c in
       let countR := if Qltb pos max then (snd c + 1)%Z else snd c in
       (countL, countR))
    l (cl, cr)
  = ((cl + Spec.Nl l a pos)%Z, (cr + Spec.Nr l a pos)%Z).
Proof.
  revert cl cr. induction l as [| x l IH]; intros cl cr.
  - unfold Spec.Nl, Spec.Nr. simpl. f_equal; lia.
  - cbn [fold_left]. rewrite IH. unfold Spec.Nl, Spec.Nr. cbn [List.filter fst snd].
    destruct (Qltb (minOn x a) pos), (Qltb pos (maxOn x a));
      cbn [List.length]; f_equal; lia.
Qed.

(** [countP] counts as the specification says. *)
Lemma countP_spec (objs : list Geometry) (q : KdTree.Plane) :
  KdTree.countP objs q true = Spec.Nl objs (KdTree.axis q) (KdTree.position q)
  /\ KdTree.countP objs q false
     = Spec.Nr objs (KdTree.axis q) (KdTree.position q).
Proof.
  unfold KdTree.countP. rewrite countP_fold. split; reflexivity.
Qed.

Lemma in_planeList (objs : list Geometry) (bbox : BoundingBox)
    (q : KdTree.Plane) :
  In q (KdTree.planeList objs bbox) <->
  exists a obj,
    In a [0%Z; 1%Z; 2%Z] /\ In obj objs
    /\ (q = KdTree.candidate bbox a (minOn obj a)
        \/ q = KdTree.candidate bbox a (maxOn obj a)).
Proof.
  unfold KdTree.planeList. rewrite in_flat_map. split.
  - intros (a & Ha & Hq). apply in_flat_map in Hq.
    destruct Hq as (obj & Hobj & Hq). exists a, obj.
    simpl in Hq. intuition.
  - intros (a & obj & Ha & Hobj & Hq). exists a. split; [exact Ha |].
    apply in_flat_map. exists obj. split; [exact Hobj |].
    simpl. intuition.
Qed.

(** The order on quotients of doubles. *)
Lemma dlt_asym (a b : dquot) : dlt a b = true -> dlt b a = false.
Proof.
  destruct a as [x | | |], b as [y | | |]; cbn; try reflexivity;
    try discriminate.
  intros Hlt. apply Qltb_lt in Hlt. apply Qltb_ge. lra.
Qed.

Lemma dlt_trans (a b c : dquot) :
  dlt a b = true -> dlt b c = true -> dlt a c = true.
Proof.
  destruct a as [x | | |], b as [y | | |], c as [z | | |]; cbn;
    try reflexivity; try discriminate.
  intros H1 H2. apply Qltb_lt in H1, H2. apply Qltb_lt. lra.
Qed.

(** A value that is not below a bound, and is a number, is not below
    anything below the bound. *)
Lemma dlt_below_bound (a b s : dquot) :
  dlt a s = true -> dlt b s = false -> b <> NaN -> dlt a b = true.
Proof.
  destruct a as [x | | |], b as [y | | |], s as [z | | |]; cbn;
    try reflexivity; try discriminate; try congruence.
  intros H1 H2 _. apply Qltb_lt in H1. apply Qltb_ge in H2.
  apply Qltb_lt. lra.
Qed.

Lemma dlt_not_NaN (a b : dquot) : dlt a b = true -> a <> NaN.
Proof. destruct a; [discriminate | discriminate | discriminate |].
  destruct b; discriminate. Qed.

(** The second loop of [findBestPlane] from any starting bound: either no
    plane is below the bound and nothing is assigned, or the first plane of
    least cost is held at the end. *)
Lemma bestStep_fold (objs : list Geometry) (bbox : BoundingBox)
    (l : list KdTree.Plane) (s0 : dquot) (b0 : option KdTree.Plane) :
  let cost := KdTree.cost objs bbox in
  let res := fold_left (KdTree.bestStep objs bbox) l (s0, b0) in
  (res = (s0, b0) /\ forall q, In q l -> dlt (cost q) s0 = false)
  \/ (exists pre q post,
        l = pre ++ q :: post
        /\ res = (cost q, Some (KdTree.evalPlane objs q))
        /\ dlt (cost q) s0 = true
        /\ (forall q', In q' pre ->
              cost q' = NaN \/ dlt (cost q) (cost q') = true)
        /\ (forall q', In q' post -> dlt (cost q') (cost q) = false)).
Proof.
  intros cost. revert s0 b0.
  induction l as [| x l IH]; intros s0 b0; cbn [fold_left].
  - left. split; [reflexivity | intros q []].
  - assert (Hstep : KdTree.bestStep objs bbox (s0, b0) x
                    = if dlt (cost x) s0
                      then (cost x, Some (KdTree.evalPlane objs x))
                      else (s0, b0)) by reflexivity.
    rewrite Hstep. clear Hstep.
    destruct (dlt (cost x) s0) eqn:E.
    + right.
      destruct (IH (cost x) (Some (KdTree.evalPlane objs x)))
        as [[Hres Hall] | (pre & q & post & Hl & Hres & Hlt & Hpre & Hpost)].
      * exists [], x, l.
        split; [reflexivity |]. split; [exact Hres |]. split; [exact E |].
        split; [intros q' [] | exact Hall].
      * exists (x :: pre), q, post. subst l.
        split; [reflexivity |]. split; [exact Hres |].
        split; [exact (dlt_trans _ _ _ Hlt E) |].
        split; [| exact Hpost].
        intros q' [<- | Hq']; [right; exact Hlt | apply Hpre, Hq'].
    + destruct (IH s0 b0)
        as [[Hres Hall] | (pre & q & post & Hl & Hres & Hlt & Hpre & Hpost)].
      * left. split; [exact Hres |].
        intros q [<- | Hq]; [exact E | apply Hall, Hq].
      * right. exists (x :: pre), q, post. subst l.
        split; [reflexivity |]. split; [exact Hres |]. split; [exact Hlt |].
        split; [| exact Hpost].
        intros q' [<- | Hq']; [| apply Hpre, Hq'].
        destruct (cost x) as [c | | |] eqn:Ec; try (left; reflexivity);
          right; rewrite <- Ec in *;
          apply (dlt_below_bound _ _ s0 Hlt E); rewrite Ec; discriminate.
Qed.

(** The area of a well-formed box clipped at a position inside it on one
    axis lies between 0 and the area of the box. *)
Lemma area_clip_bounds (bbox : BoundingBox) (a : Z) (pos : Q) :
  In a [0%Z; 1%Z; 2%Z] ->
  (forall k, In k [0%Z; 1%Z; 2%Z] -> (getMin bbox).[k] <= (getMax bbox).[k]) ->
  (getMin bbox).[a] <= pos <= (getMax bbox).[a] ->
  0 <= BBox.area (BBox.setMax bbox a pos) <= BBox.area bbox
  /\ 0 <= BBox.area (BBox.setMin bbox a pos) <= BBox.area bbox.
Proof.
  intros Ha Hwf Hpos.
  pose proof (Hwf 0%Z ltac:(cbn; auto)) as Hx.
  pose proof (Hwf 1%Z ltac:(cbn; auto)) as Hy.
  pose proof (Hwf 2%Z ltac:(cbn; auto)) as Hz.
  destruct bbox as [[x0 y0 z0] [x1 y1 z1]].
  unfold BBox.area, BBox.setMax, BBox.setMin, Glm.set_idx, Glm.idx, Glm.sub
    in *.
  cbn [getMin getMax vx vy vz Z.eqb Pos.eqb] in *.
  destruct Ha as [<- | [<- | [<- | []]]];
    cbn [getMin getMax vx vy vz Z.eqb Pos.eqb] in *;
    repeat split; nra.
Qed.


End BuildFacts.


(** ** The KD-tree: traversal *)

Section TraversalFacts.
Context {Material : Type} `{RayConsts} `{Libm}.

Local Abbreviation Geometry := (Geometry.t Material).

Lemma leafFind_snoc (l : list Geometry) (x : Geometry) (r : ray)
    (st : KdTree.Trav Material) :
  KdTree.leafFind (l ++ [x]) r st
  = KdTree.leafStep r (KdTree.leafFind l r st) x.
Proof. unfold KdTree.leafFind. rewrite fold_left_app. reflexivity. Qed.

(** What the loop of the leaf holds after any number of objects. *)
Lemma leafFind_invariant (objList : list Geometry) (r : ray)
    (st : KdTree.Trav Material) :
  let res := KdTree.leafFind objList r st in
  let best := KdTree.trav_i (snd res) in
  (fst res = false ->
     best = setT (KdTree.trav_i st) KdTree.T_SENTINEL
     /\ forall obj cur, In obj objList -> ~ KdTree.accepts r obj cur)
  /\ (fst res = true ->
      (exists obj, In obj objList /\ KdTree.accepts r obj best)
      /\ forall obj cur, In obj objList -> KdTree.accepts r obj cur ->
           getT best <= getT cur).
Proof.
  induction objList as [| x l IH] using rev_ind.
  - simpl. split; [| discriminate]. intros _. split; [reflexivity |].
    intros obj cur [].
  - rewrite leafFind_snoc. cbv zeta in IH.
    destruct (KdTree.leafFind l r st) as [found [i tmn tmx]].
    cbn [fst snd KdTree.trav_i] in IH. destruct IH as [IHf IHt].
    unfold KdTree.leafStep.
    assert (Hbound : getT i <= KdTree.T_SENTINEL).
    { destruct found.
      - destruct (proj1 (IHt eq_refl)) as (o & _ & _ & Hlt & _).
        apply Qlt_le_weak, Hlt.
      - rewrite (proj1 (IHf eq_refl)). simpl. apply Qle_refl. }
    assert (Hx : forall cur,
               KdTree.accepts r x cur
               <-> Geometry.intersect x r = Some cur
                   /\ getT cur < KdTree.T_SENTINEL
                   /\ (let '(_, lo, hi) :=
                         BBox.intersect (Geometry.getBoundingBox x) r in
                       lo <= getT cur <= hi)) by reflexivity.
    destruct (BBox.intersect (Geometry.getBoundingBox x) r) as [[ok lo] hi].
    cbn [KdTree.trav_i].
    destruct (Geometry.intersect x r) as [curr |] eqn:Ecur.
    + destruct (Qltb (getT curr) (getT i) && Qle_bool lo (getT curr)
                && Qle_bool (getT curr) hi) eqn:Econd.
      * apply andb_true_iff in Econd. destruct Econd as [Econd Ehi].
        apply andb_true_iff in Econd. destruct Econd as [Elt Elo].
        apply Qltb_lt in Elt. apply Qle_bool_iff in Elo, Ehi.
        cbn [fst snd KdTree.trav_i]. split; [discriminate |]. intros _.
        split.
        -- exists x. split; [apply in_app_iff; right; left; reflexivity |].
           apply Hx. split; [reflexivity |]. split; [lra | split; assumption].
        -- intros obj cur Hin Hacc. apply in_app_iff in Hin.
           destruct Hin as [Hin | [<- | []]].
           ++ destruct found.
              ** pose proof (proj2 (IHt eq_refl) obj cur Hin Hacc). lra.
              ** exfalso. exact (proj2 (IHf eq_refl) obj cur Hin Hacc).
           ++ apply Hx in Hacc. destruct Hacc as [Hsome _].
              injection Hsome as <-. apply Qle_refl.
      * cbn [fst snd KdTree.trav_i].
        assert (Hrej : forall cur,
                   Some curr = Some cur /\ getT cur < KdTree.T_SENTINEL
                   /\ lo <= getT cur <= hi -> getT i <= getT cur).
        { intros cur (Hsome & Hlt & Hlo & Hhi). injection Hsome as <-.
          apply Qle_bool_iff in Hlo, Hhi. rewrite Hlo, Hhi, !andb_true_r in Econd.
          apply Qltb_ge in Econd. exact Econd. }
        split.
        -- intros ->. destruct (IHf eq_refl) as [Hi Hnone].
           split; [exact Hi |]. intros obj cur Hin Hacc.
           apply in_app_iff in Hin. destruct Hin as [Hin | [<- | []]].
           ++ exact (Hnone obj cur Hin Hacc).
           ++ apply Hx in Hacc. pose proof (Hrej cur Hacc) as Hle.
              rewrite Hi in Hle. simpl in Hle.
              destruct Hacc as (_ & Hlt & _). lra.
        -- intros ->. destruct (IHt eq_refl) as [(o & Ho & Hacc) Hmin].
           split.
           ++ exists o. split; [apply in_app_iff; left; exact Ho | exact Hacc].
           ++ intros obj cur Hin Hacc'. apply in_app_iff in Hin.
              destruct Hin as [Hin | [<- | []]].
              ** exact (Hmin obj cur Hin Hacc').
              ** apply Hx in Hacc'. exact (Hrej cur Hacc').
    + cbn [fst snd KdTree.trav_i]. split.
      * intros ->. destruct (IHf eq_refl) as [Hi Hnone].
        split; [exact Hi |]. intros obj cur Hin Hacc.
        apply in_app_iff in Hin. destruct Hin as [Hin | [<- | []]].
        -- exact (Hnone obj cur Hin Hacc).
        -- apply Hx in Hacc. destruct Hacc as [Hsome _]. discriminate.
      * intros ->. destruct (IHt eq_refl) as [(o & Ho & Hacc) Hmin].
        split.
        -- exists o. split; [apply in_app_iff; left; exact Ho | exact Hacc].
        -- intros obj cur Hin Hacc'. apply in_app_iff in Hin.
           destruct Hin as [Hin | [<- | []]].
           ++ exact (Hmin obj cur Hin Hacc').
           ++ apply Hx in Hacc'. destruct Hacc' as [Hsome _]. discriminate.
Qed.

(** C5, as the code has it.  The leaf reports a hit exactly when one of its
    objects has a hit that is below the sentinel 1e13 and lies inside the
    interval of the ray's overlap with that object's own bounding box (the
    interval handed to the leaf is overwritten before it is read).  The
    isect returned is then such a hit, of the smallest [t] among them. *)
Theorem leaf_findIntersection_nearest_accepted (objList : list Geometry)
    (r : ray) (st : KdTree.Trav Material) :
  let res := KdTree.findIntersection (KdTree.LeafNode objList) r st in
  let best := KdTree.trav_i (snd res) in
  (fst res = true <->
   exists obj cur, In obj objList /\ KdTree.accepts r obj cur)
  /\ (fst res = true ->
      (exists obj, In obj objList /\ KdTree.accepts r obj best)
      /\ forall obj cur, In obj objList -> KdTree.accepts r obj cur ->
           getT best <= getT cur).
Proof.
  cbn [KdTree.findIntersection].
  pose proof (leafFind_invariant objList r st) as Hinv. cbv zeta in *.
  destruct Hinv as [Hf Ht].
  split; [| exact Ht]. split.
  - intros Hfound. destruct (proj1 (Ht Hfound)) as (obj & Hin & Hacc).
    exists obj, (KdTree.trav_i (snd (KdTree.leafFind objList r st))).
    split; assumption.
  - intros (obj & cur & Hin & Hacc).
    destruct (fst (KdTree.leafFind objList r st)) eqn:E; [reflexivity |].
    exfalso. exact (proj2 (Hf eq_refl) obj cur Hin Hacc).
Qed.

End TraversalFacts.
(** ** The image driver *)

Lemma strideSeq_In (n : nat) (p step q : Z) :
  In q (strideSeq n p step) <->
  exists k : nat, (k < n)%nat /\ q = (p + Z.of_nat k * step)%Z.
Proof.
  revert p. induction n as [| n IH]; intros p; cbn [strideSeq].
  - split; [intros [] | intros (k & Hk & _); lia].
  - cbn [In]. rewrite IH. split.
    + intros [<- | (k & Hk & ->)].
      * exists O. split; lia.
      * exists (Datatypes.S k). split; lia.
    + intros (k & Hk & ->). destruct k as [| k].
      * left. lia.
      * right. exists k. split; lia.
Qed.

Lemma strideSeq_NoDup (n : nat) (p step : Z) :
  (0 < step)%Z -> List.NoDup (strideSeq n p step).
Proof.
  intros Hstep. revert p. induction n as [| n IH]; intros p; cbn [strideSeq].
  - constructor.
  - constructor; [| apply IH].
    rewrite strideSeq_In. intros (k & _ & Hk). nia.
Qed.

Lemma rounds_step (p limit step : Z) :
  (0 < step)%Z -> (p < limit)%Z ->
  rounds p limit step = Datatypes.S (rounds (p + step) limit step).
Proof.
  intros Hstep Hlt. unfold rounds.
  replace (limit - p + step - 1)%Z
    with (1 * step + (limit - (p + step) + step - 1))%Z by lia.
  rewrite Z.div_add_l by lia.
  assert (0 <= (limit - (p + step) + step - 1) / step)%Z
    by (apply Z.div_pos; lia).
  lia.
Qed.

Lemma rounds_done (p limit step : Z) :
  (0 < step)%Z -> (limit <= p)%Z -> rounds p limit step = O.
Proof.
  intros Hstep Hge. unfold rounds.
  assert ((limit - p + step - 1) / step <= 0)%Z.
  { apply Z.lt_succ_r. apply Z.div_lt_upper_bound; lia. }
  lia.
Qed.

(** The counters the loop reaches are those below the limit. *)
Lemma strideSeq_rounds_In (p limit step q : Z) :
  (0 < step)%Z ->
  In q (strideSeq (rounds p limit step) p step) <->
  (p <= q < limit)%Z /\ ((q - p) mod step = 0)%Z.
Proof.
  intros Hstep. rewrite strideSeq_In. unfold rounds. split.
  - intros (k & Hk & ->). split.
    + assert (Hk' : (Z.of_nat k < (limit - p + step - 1) / step)%Z) by lia.
      assert (Hm : (Z.of_nat k + 1 <= (limit - p + step - 1) / step)%Z) by lia.
      assert (Hd : (step * ((limit - p + step - 1) / step)
                    <= limit - p + step - 1)%Z)
        by (apply Z.mul_div_le; lia).
      nia.
    + replace (p + Z.of_nat k * step - p)%Z with (Z.of_nat k * step)%Z by lia.
      apply Z.mod_mul. lia.
  - intros [[Hlo Hhi] Hmod].
    apply Z.mod_divide in Hmod; [| lia]. destruct Hmod as [c Hc].
    assert (0 <= c)%Z by nia.
    exists (Z.to_nat c). split; [| lia].
    assert (c + 1 <= (limit - p + step - 1) / step)%Z; [| lia].
    apply Z.div_le_lower_bound; nia.
Qed.

(** The loop, run with enough fuel, folds its body over the counters. *)
Lemma strideLoop_fold {S : Type} (body : Z -> S -> S) (limit step : Z) :
  (0 < step)%Z ->
  forall (fuel : nat) (p : Z) (s : S),
    (limit - p <= Z.of_nat fuel)%Z ->
    strideLoop fuel p limit step body s
    = Some (fold_left (fun s q => body q s)
              (strideSeq (rounds p limit step) p step) s).
Proof.
  intros Hstep. induction fuel as [| fuel IH]; intros p s Hfuel;
    cbn [strideLoop]; destruct (Z.ltb_spec p limit) as [Hlt | Hge].
  - lia.
  - rewrite rounds_done by lia. reflexivity.
  - rewrite IH by lia. rewrite (rounds_step p limit step) by lia.
    reflexivity.
  - rewrite rounds_done by lia. reflexivity.
Qed.

Lemma fold_left_record {A B : Type} (f : A -> B) (l : list A) (acc : list B) :
  fold_left (fun acc q => acc ++ [f q]) l acc = acc ++ map f l.
Proof.
  revert acc. induction l as [| x l IH]; intros acc; cbn [fold_left map].
  - rewrite app_nil_r. reflexivity.
  - rewrite IH, <- app_assoc. reflexivity.
Qed.

Section DriverFacts.
Context {Material Scene : Type} `{RayConsts} `{Libm} `{TraceUI}
        `{MaterialOps Material} `{SceneOps Material Scene}.

Local Abbreviation tracePixelAt :=
  (fun (rt : RayTracer.t Scene) (ij : Z * Z) =>
     snd (RayTracer.tracePixel rt (fst ij) (snd ij))).

Lemma tracePixel_keeps_height (rt : RayTracer.t Scene) (i j : Z) :
  RayTracer.buffer_height (snd (RayTracer.tracePixel rt i j))
  = RayTracer.buffer_height rt.
Proof.
  unfold RayTracer.tracePixel, RayTracer.sceneLoaded.
  destruct (RayTracer.scene rt); reflexivity.
Qed.

(** The loop of [traceImageThread] traces the pixels of its counters, the
    pixel of a counter being the same all along. *)
Lemma trace_loop_fold (l : list Z) (rt0 rt : RayTracer.t Scene) :
  RayTracer.buffer_height rt = RayTracer.buffer_height rt0 ->
  fold_left
    (fun rt p => let '(i, j) := RayTracer.pixelOf rt p in
                 snd (RayTracer.tracePixel rt i j)) l rt
  = fold_left tracePixelAt (map (RayTracer.pixelOf rt0) l) rt.
Proof.
  revert rt. induction l as [| p l IH]; intros rt Hh; cbn [fold_left map].
  - reflexivity.
  - assert (Hp : RayTracer.pixelOf rt p = RayTracer.pixelOf rt0 p)
      by (unfold RayTracer.pixelOf; rewrite Hh; reflexivity).
    rewrite Hp. unfold RayTracer.pixelOf at 1. cbn [fst snd].
    apply IH. rewrite tracePixel_keeps_height. exact Hh.
Qed.

(** Counters below [w * h] are the pixels of the image, one to one. *)
Lemma pixelOf_in_range (rt : RayTracer.t Scene) (w p : Z) :
  (0 < RayTracer.buffer_height rt)%Z ->
  (0 <= p < w * RayTracer.buffer_height rt)%Z ->
  (0 <= fst (RayTracer.pixelOf rt p) < w)%Z
  /\ (0 <= snd (RayTracer.pixelOf rt p) < RayTracer.buffer_height rt)%Z
  /\ p = (fst (RayTracer.pixelOf rt p) * RayTracer.buffer_height rt
          + snd (RayTracer.pixelOf rt p))%Z.
Proof.
  intros Hh Hp. unfold RayTracer.pixelOf. cbn [fst snd].
  set (h := RayTracer.buffer_height rt) in *.
  rewrite Z.quot_div_nonneg, Z.rem_mod_nonneg by lia.
  pose proof (Z.div_mod p h ltac:(lia)) as Hdm.
  pose proof (Z.mod_pos_bound p h Hh) as Hm.
  assert (0 <= p / h)%Z by (apply Z.div_pos; lia).
  assert (p / h < w)%Z by (apply Z.div_lt_upper_bound; lia).
  lia.
Qed.

Lemma pixelOf_of_pixel (rt : RayTracer.t Scene) (i j : Z) :
  (0 <= i)%Z -> (0 <= j < RayTracer.buffer_height rt)%Z ->
  RayTracer.pixelOf rt (i * RayTracer.buffer_height rt + j) = (i, j).
Proof.
  intros Hi Hj. unfold RayTracer.pixelOf.
  set (h := RayTracer.buffer_height rt) in *.
  rewrite Z.quot_div_nonneg, Z.rem_mod_nonneg by nia.
  f_equal.
  - rewrite Z.div_add_l by lia. rewrite Z.div_small by lia. lia.
  - rewrite Z.add_comm, Z.mod_add by lia. apply Z.mod_small. lia.
Qed.

(** The three bytes of distinct in-range pixels do not overlap, and the
    pixels cover the buffer. *)
Lemma pixelBytes_disjoint (rt : RayTracer.t Scene) (h b : Z)
    (ij ij' : Z * Z) :
  (0 <= fst ij < RayTracer.buffer_width rt)%Z -> (0 <= snd ij < h)%Z ->
  (0 <= fst ij' < RayTracer.buffer_width rt)%Z -> (0 <= snd ij' < h)%Z ->
  In b (RayTracer.pixelBytes rt ij) -> In b (RayTracer.pixelBytes rt ij') ->
  ij = ij'.
Proof.
  destruct ij as [i j], ij' as [i' j'].
  unfold RayTracer.pixelBytes, RayTracer.pixelOffset. cbn [fst snd In].
  intros Hi Hj Hi' Hj' Hb Hb'.
  assert (Heq : (i + j * RayTracer.buffer_width rt
                 = i' + j' * RayTracer.buffer_width rt)%Z) by lia.
  assert (j = j') by nia. subst j'. f_equal. lia.
Qed.

Lemma pixelBytes_cover (rt : RayTracer.t Scene) (h b : Z) :
  (0 < RayTracer.buffer_width rt)%Z ->
  (0 <= b < RayTracer.buffer_width rt * h * 3)%Z ->
  exists i j,
    (0 <= i < RayTracer.buffer_width rt)%Z /\ (0 <= j < h)%Z
    /\ In b (RayTracer.pixelBytes rt (i, j)).
Proof.
  intros Hw Hb. set (w := RayTracer.buffer_width rt) in *.
  exists ((b / 3) mod w)%Z, ((b / 3) / w)%Z.
  pose proof (Z.div_mod b 3 ltac:(lia)) as Hb3.
  pose proof (Z.mod_pos_bound b 3 ltac:(lia)) as Hm3.
  pose proof (Z.div_mod (b / 3) w ltac:(lia)) as Hbw.
  pose proof (Z.mod_pos_bound (b / 3) w Hw) as Hmw.
  assert (0 <= b / 3)%Z by (apply Z.div_pos; lia).
  assert (b / 3 < w * h)%Z by (apply Z.div_lt_upper_bound; lia).
  assert (0 <= b / 3 / w)%Z by (apply Z.div_pos; lia).
  assert (b / 3 / w < h)%Z by (apply Z.div_lt_upper_bound; lia).
  split; [lia |]. split; [lia |].
  unfold RayTracer.pixelBytes, RayTracer.pixelOffset. cbn [fst snd In].
  fold w. lia.
Qed.

Lemma stride_residue (n id q : Z) :
  (0 <= id < n)%Z -> ((q - id) mod n = 0)%Z -> (q mod n = id)%Z.
Proof.
  intros Hid Hmod. apply Z.mod_divide in Hmod; [| lia].
  destruct Hmod as [c Hc].
  replace q with (id + c * n)%Z by lia.
  rewrite Z.mod_add by lia. apply Z.mod_small. lia.
Qed.

Lemma residue_stride (n q : Z) :
  (0 < n)%Z -> (0 <= q)%Z ->
  (q mod n <= q)%Z /\ ((q - q mod n) mod n = 0)%Z.
Proof.
  intros Hn Hq. pose proof (Z.div_mod q n ltac:(lia)) as Hdm.
  pose proof (Z.mod_pos_bound q n Hn) as Hm.
  assert (0 <= q / n)%Z by (apply Z.div_pos; lia).
  split; [nia |].
  replace (q - q mod n)%Z with (q / n * n)%Z by lia.
  apply Z.mod_mul. lia.
Qed.

(** The counters of the workers and the pixels they stand for: worker
    [id] ends, having called [tracePixel] on the pixels of the counters
    [id, id + threads, ...] below [w * h], each once; every pixel of the
    image belongs to exactly one worker, and every byte of the
    [w * h * 3] buffer to the pixel of exactly one worker. *)
Lemma workers_partition_pixels (rt : RayTracer.t Scene) (w h : Z) :
  RayTracer.buffer_width rt = w -> RayTracer.buffer_height rt = h ->
  (0 < w)%Z -> (0 < h)%Z -> (0 < RayTracer.threads rt)%Z ->
  let n := RayTracer.threads rt in
  let counters := fun id => strideSeq (rounds id (w * h) n) id n in
  let pixels := fun id => map (RayTracer.pixelOf rt) (counters id) in
  (forall p, RayTracer.pixelOf rt p = (Z.quot p h, Z.rem p h))
  /\ (forall id, (0 <= id < n)%Z ->
      (forall p, In p (counters id) <->
                 (id <= p < w * h)%Z /\ ((p - id) mod n = 0)%Z)
      /\ RayTracer.workerPixels rt id w h = Some (pixels id)
      /\ (exists rt',
            fold_left tracePixelAt (pixels id) rt = rt'
            /\ RayTracer.traceImageThread rt id w h
               = Some (RayTracer.with_finished rt'
                         (id :: RayTracer.finishedThreads rt')))
      /\ List.NoDup (pixels id)
      /\ (forall ij, In ij (pixels id) ->
            (0 <= fst ij < w)%Z /\ (0 <= snd ij < h)%Z))
  /\ (forall i j, (0 <= i < w)%Z -> (0 <= j < h)%Z ->
      exists id,
        (0 <= id < n)%Z /\ In (i, j) (pixels id)
        /\ forall id', (0 <= id' < n)%Z -> In (i, j) (pixels id') ->
             id' = id)
  /\ (forall b, (0 <= b < w * h * 3)%Z ->
      exists id ij,
        (0 <= id < n)%Z /\ In ij (pixels id)
        /\ In b (RayTracer.pixelBytes rt ij)
        /\ forall id' ij', (0 <= id' < n)%Z -> In ij' (pixels id') ->
             In b (RayTracer.pixelBytes rt ij') -> id' = id /\ ij' = ij).
Proof.
  intros Hw Hh Hwpos Hhpos Hn n counters pixels.
  assert (Hcounters : forall id p,
             In p (counters id) <->
             (id <= p < w * h)%Z /\ ((p - id) mod n = 0)%Z).
  { intros id p. apply strideSeq_rounds_In. exact Hn. }
  assert (Hrange : forall id ij, (0 <= id)%Z -> In ij (pixels id) ->
             exists p, In p (counters id) /\ RayTracer.pixelOf rt p = ij
                       /\ (0 <= fst ij < w)%Z /\ (0 <= snd ij < h)%Z
                       /\ p = (fst ij * h + snd ij)%Z).
  { intros id ij Hid Hin. apply in_map_iff in Hin.
    destruct Hin as (p & Hp & Hin). exists p.
    pose proof (proj1 (Hcounters id p) Hin) as [Hpr _].
    destruct (pixelOf_in_range rt w p) as (Hi & Hj & Hdec);
      [lia | rewrite Hh; lia |].
    rewrite Hp, Hh in *. auto. }
  assert (Hone : forall i j, (0 <= i < w)%Z -> (0 <= j < h)%Z ->
             exists id,
               (0 <= id < n)%Z /\ In (i, j) (pixels id)
               /\ forall id', (0 <= id' < n)%Z -> In (i, j) (pixels id') ->
                    id' = id).
  { intros i j Hi Hj. set (p0 := (i * h + j)%Z).
    assert (Hp0 : (0 <= p0 < w * h)%Z) by (unfold p0; nia).
    destruct (residue_stride n p0 Hn ltac:(lia)) as [Hle Hres].
    pose proof (Z.mod_pos_bound p0 n Hn) as Hm.
    exists (p0 mod n)%Z. split; [exact Hm |]. split.
    - apply in_map_iff. exists p0. split.
      + unfold p0. rewrite <- Hh. apply pixelOf_of_pixel; rewrite ?Hh; lia.
      + apply Hcounters. split; [lia | exact Hres].
    - intros id' Hid' Hin.
      destruct (Hrange id' (i, j) ltac:(lia) Hin)
        as (p & Hp & _ & _ & _ & Hdec).
      cbn [fst snd] in Hdec. fold p0 in Hdec. subst p.
      apply Hcounters in Hp. destruct Hp as [_ Hmod].
      symmetry. apply stride_residue; assumption. }
  split; [intros p; unfold RayTracer.pixelOf; rewrite Hh; reflexivity |].
  split; [| split; [exact Hone |]].
  - intros id Hid. split; [apply Hcounters |]. split; [| split; [| split]].
    + unfold RayTracer.workerPixels.
      rewrite strideLoop_fold by lia.
      rewrite (fold_left_record (RayTracer.pixelOf rt)). reflexivity.
    + eexists. split; [reflexivity |].
      unfold RayTracer.traceImageThread.
      rewrite strideLoop_fold by lia.
      rewrite (trace_loop_fold _ rt rt eq_refl). reflexivity.
    + apply NoDup_map_NoDup_ForallPairs; [| apply strideSeq_NoDup; exact Hn].
      intros x y Hx Hy Heq.
      apply Hcounters in Hx, Hy. destruct Hx as [Hx _], Hy as [Hy _].
      destruct (pixelOf_in_range rt w x) as (_ & _ & Hdx);
        [lia | rewrite Hh; lia |].
      destruct (pixelOf_in_range rt w y) as (_ & _ & Hdy);
        [lia | rewrite Hh; lia |].
      rewrite Hdx, Hdy, Heq. reflexivity.
    + intros ij Hin.
      destruct (Hrange id ij ltac:(lia) Hin) as (_ & _ & _ & Hi & Hj & _).
      split; assumption.
  - intros b Hb.
    destruct (pixelBytes_cover rt h b) as (i & j & Hi & Hj & Hbin);
      [lia | rewrite Hw; exact Hb |].
    rewrite Hw in Hi.
    destruct (Hone i j Hi Hj) as (id & Hid & Hin & Huniq).
    exists id, (i, j). split; [exact Hid |]. split; [exact Hin |].
    split; [exact Hbin |].
    intros id' ij' Hid' Hin' Hbin'.
    destruct (Hrange id' ij' ltac:(lia) Hin') as (_ & _ & _ & Hi' & Hj' & _).
    assert (Heq : ij' = (i, j)).
    { apply (pixelBytes_disjoint rt h b); cbn [fst snd]; rewrite ?Hw;
        assumption. }
    subst ij'. split; [apply Huniq; assumption | reflexivity].
Qed.

End DriverFacts.

(** ** The KD-tree: what the build keeps and what the traversal reports *)

Section KdMoreFacts.
Context {Material : Type} `{RayConsts} `{Libm}.

Local Abbreviation Geometry := (Geometry.t Material).
Local Abbreviation minOn o a := ((getMin (Geometry.getBoundingBox o)).[a]).
Local Abbreviation maxOn o a := ((getMax (Geometry.getBoundingBox o)).[a]).

(** Each object is appended to the lists independently of the others. *)
Lemma routeStep_app (p : KdTree.Plane) (ll rl : list Geometry)
    (x : Geometry) :
  exists dl dr,
    KdTree.routeStep p (ll, rl) x = (ll ++ dl, rl ++ dr)
    /\ (forall y, In y dl -> y = x) /\ (forall y, In y dr -> y = x)
    /\ (minOn x (KdTree.axis p) <= maxOn x (KdTree.axis p) ->
        dl <> [] \/ dr <> [])
    /\ length dl
       = ((if Qltb (minOn x (KdTree.axis p)) (KdTree.position p)
           then 1 else 0)
          + (if KdTree.inPlane p x && KdTree.tieBreakLeft x then 1 else 0))%nat
    /\ length dr
       = ((if Qltb (KdTree.position p) (maxOn x (KdTree.axis p))
           then 1 else 0)
          + (if KdTree.inPlane p x && negb (KdTree.tieBreakLeft x)
             then 1 else 0))%nat.
Proof.
  unfold KdTree.routeStep, KdTree.inPlane, KdTree.tieBreakLeft. cbn [fst snd].
  assert (Hlen : Qle_bool 0 (Glm.length (Geometry.getNormal x))
                 = negb (Qltb (Glm.length (Geometry.getNormal x)) 0)).
  { unfold Qltb. rewrite negb_involutive. reflexivity. }
  rewrite Hlen.
  destruct (Qltb (minOn x (KdTree.axis p)) (KdTree.position p)) eqn:E1;
  destruct (Qltb (KdTree.position p) (maxOn x (KdTree.axis p))) eqn:E2;
  destruct (Qeq_bool (KdTree.position p) (maxOn x (KdTree.axis p))) eqn:E3;
  destruct (Qeq_bool (KdTree.position p) (minOn x (KdTree.axis p))) eqn:E4;
  destruct (Qltb (Glm.length (Geometry.getNormal x)) 0) eqn:E5;
  cbn [andb negb];
  repeat rewrite <- app_assoc;
  match goal with
  | |- exists dl dr, (?l ++ ?a, ?r ++ ?b) = _ /\ _ =>
      exists a, b
  | |- exists dl dr, (?l, ?r ++ ?b) = _ /\ _ =>
      exists [], b; rewrite (app_nil_r l)
  | |- exists dl dr, (?l ++ ?a, ?r) = _ /\ _ =>
      exists a, []; rewrite (app_nil_r r)
  | |- exists dl dr, (?l, ?r) = _ /\ _ =>
      exists [], []; rewrite (app_nil_r l), (app_nil_r r)
  end;
  (split; [reflexivity |]);
  (split; [cbn [In app]; intuition congruence |]);
  (split; [cbn [In app]; intuition congruence |]);
  (split; [| split; reflexivity]);
  intros Hwf; try (left; discriminate); try (right; discriminate);
  exfalso;
  apply Qltb_ge in E1; apply Qltb_ge in E2;
  try (apply Qeq_bool_neq in E3; apply E3; lra);
  try (apply Qeq_bool_neq in E4; apply E4; lra).
Qed.

Lemma route_lengths (p : KdTree.Plane) (l : list Geometry) :
  length (fst (KdTree.route p l))
  = (length (List.filter
               (fun o => Qltb (minOn o (KdTree.axis p)) (KdTree.position p)) l)
     + length (List.filter
                 (fun o => KdTree.inPlane p o && KdTree.tieBreakLeft o) l))%nat
  /\ length (snd (KdTree.route p l))
     = (length (List.filter
                  (fun o => Qltb (KdTree.position p) (maxOn o (KdTree.axis p)))
                  l)
        + length (List.filter
                    (fun o => KdTree.inPlane p o
                              && negb (KdTree.tieBreakLeft o)) l))%nat.
Proof.
  induction l as [| x l [IHl IHr]] using rev_ind.
  - split; reflexivity.
  - rewrite route_snoc. destruct (KdTree.route p l) as [ll rl].
    destruct (routeStep_app p ll rl x)
      as (dl & dr & -> & _ & _ & _ & Hdl & Hdr).
    cbn [fst snd] in *. rewrite !List.filter_app, !List.length_app.
    rewrite IHl, IHr, Hdl, Hdr. cbn [List.filter].
    destruct (Qltb (minOn x (KdTree.axis p)) (KdTree.position p));
    destruct (Qltb (KdTree.position p) (maxOn x (KdTree.axis p)));
    destruct (KdTree.inPlane p x); destruct (KdTree.tieBreakLeft x);
    cbn [andb negb length]; lia.
Qed.

Lemma route_members (p : KdTree.Plane) (l : list Geometry) (y : Geometry) :
  (In y (fst (KdTree.route p l)) -> In y l)
  /\ (In y (snd (KdTree.route p l)) -> In y l)
  /\ (In y l -> minOn y (KdTree.axis p) <= maxOn y (KdTree.axis p) ->
      In y (fst (KdTree.route p l)) \/ In y (snd (KdTree.route p l))).
Proof.
  induction l as [| x l (IHl & IHr & IHc)] using rev_ind.
  - cbn. tauto.
  - rewrite route_snoc. destruct (KdTree.route p l) as [ll rl].
    destruct (routeStep_app p ll rl x)
      as (dl & dr & -> & Hdl & Hdr & Hne & _ & _).
    cbn [fst snd] in *. rewrite !in_app_iff. cbn [In].
    split; [| split].
    + intros [Hy | Hy]; [left; apply IHl, Hy | right; left].
      symmetry. apply Hdl, Hy.
    + intros [Hy | Hy]; [left; apply IHr, Hy | right; left].
      symmetry. apply Hdr, Hy.
    + intros [Hy | [<- | []]] Hwf.
      * destruct (IHc Hy Hwf); [left | right]; left; assumption.
      * destruct (Hne Hwf) as [Hd | Hd].
        -- left. right. destruct dl as [| z dl]; [congruence |].
           rewrite (Hdl z (or_introl eq_refl)). left. reflexivity.
        -- right. right. destruct dr as [| z dr]; [congruence |].
           rewrite (Hdr z (or_introl eq_refl)). left. reflexivity.
Qed.

(** The counts of [countP] for a plane are the sizes of the two lists the
    routing loop builds for it, the right list holding in addition the
    objects that lie flat in the plane. *)
Theorem route_sizes_match_counts (bestPlane : KdTree.Plane)
    (objList : list Geometry) :
  (forall x, 0 <= sqrt x) ->
  Z.of_nat (length (fst (KdTree.route bestPlane objList)))
  = KdTree.countP objList bestPlane true
  /\ Z.of_nat (length (snd (KdTree.route bestPlane objList)))
     = (KdTree.countP objList bestPlane false
        + Z.of_nat (length (List.filter (KdTree.inPlane bestPlane) objList)))%Z
  /\ (length (fst (KdTree.route bestPlane objList)) <= length objList)%nat.
Proof.
  intros Hsqrt.
  destruct (route_lengths bestPlane objList) as [Hl Hr].
  destruct (countP_spec objList bestPlane) as [-> ->].
  assert (Hno : forall l : list Geometry,
             List.filter
               (fun o => KdTree.inPlane bestPlane o && KdTree.tieBreakLeft o) l
             = []).
  { induction l as [| x l IH]; [reflexivity |]. cbn [List.filter].
    rewrite (tieBreakLeft_false x Hsqrt), andb_false_r. exact IH. }
  assert (Hall : forall l : list Geometry,
             List.filter
               (fun o => KdTree.inPlane bestPlane o
                         && negb (KdTree.tieBreakLeft o)) l
             = List.filter (KdTree.inPlane bestPlane) l).
  { induction l as [| x l IH]; [reflexivity |]. cbn [List.filter].
    rewrite (tieBreakLeft_false x Hsqrt), andb_true_r, IH. reflexivity. }
  rewrite Hno in Hl. rewrite Hall in Hr. rewrite Hl, Hr.
  unfold Spec.Nl, Spec.Nr. cbn [length].
  split; [lia |]. split; [lia |].
  rewrite Nat.add_0_r. apply List.filter_length_le.
Qed.

(** One activation of [buildTreeHelper] that returns: a leaf holding the
    list, or a split node over the two routed lists. *)
Lemma body_tree
    (rec : list Geometry -> BoundingBox -> Z -> Z -> Z
           -> KdTree.Built Material)
    (objList : list Geometry) (bbox : BoundingBox)
    (depthLimit leafSize depth : Z) (root : KdTree.Node Material) :
  KdTree.buildTreeHelperBody rec objList bbox depthLimit leafSize depth
  = KdTree.Tree root ->
  root = KdTree.LeafNode objList
  \/ (KdTree.size_le objList leafSize = false
      /\ (depth + 1)%Z <> depthLimit
      /\ exists bestPlane l r,
           KdTree.findBestPlane objList bbox = Some bestPlane
           /\ fst (KdTree.route bestPlane objList) <> []
           /\ snd (KdTree.route bestPlane objList) <> []
           /\ rec (fst (KdTree.route bestPlane objList))
                (KdTree.leftBBox bestPlane) depthLimit leafSize (depth + 1)%Z
              = KdTree.Tree l
           /\ rec (snd (KdTree.route bestPlane objList))
                (KdTree.rightBBox bestPlane) depthLimit leafSize (depth + 1)%Z
              = KdTree.Tree r
           /\ root = KdTree.newSplitNode (KdTree.axis bestPlane)
                       (KdTree.position bestPlane) bbox l r).
Proof.
  unfold KdTree.buildTreeHelperBody.
  destruct (KdTree.size_le objList leafSize) eqn:Esize.
  { intros [= <-]. left. reflexivity. }
  destruct (2 ^ 31 - 1 <=? depth)%Z; [discriminate |].
  destruct (Z.eqb_spec (depth + 1)%Z depthLimit) as [Hd | Hd].
  { intros [= <-]. left. reflexivity. }
  destruct (KdTree.findBestPlane objList bbox) as [bestPlane |] eqn:Ebest;
    [| discriminate].
  destruct (KdTree.route bestPlane objList) as [leftList rightList] eqn:Eroute.
  destruct rightList as [| y rightList].
  { intros [= <-]. left. reflexivity. }
  destruct leftList as [| x leftList].
  { intros [= <-]. left. reflexivity. }
  destruct (rec (x :: leftList) _ _ _ _) as [l | fl] eqn:El;
    [| discriminate].
  destruct (rec (y :: rightList) _ _ _ _) as [r | fr] eqn:Er;
    [| discriminate].
  destruct (fits_int (KdTree.position bestPlane)); [| discriminate].
  intros [= <-]. right. split; [reflexivity |]. split; [exact Hd |].
  exists bestPlane, l, r. rewrite Eroute. cbn [fst snd].
  repeat split; try reflexivity; try assumption; discriminate.
Qed.

(** One activation of [buildTreeHelper] that does not return. *)
Lemma body_fault
    (rec : list Geometry -> BoundingBox -> Z -> Z -> Z
           -> KdTree.Built Material)
    (objList : list Geometry) (bbox : BoundingBox)
    (depthLimit leafSize depth : Z) (f : KdTree.Fault) :
  KdTree.buildTreeHelperBody rec objList bbox depthLimit leafSize depth
  = KdTree.Undefined f ->
  KdTree.size_le objList leafSize = false
  /\ ((f = KdTree.DepthOverflow /\ (2 ^ 31 - 1 <= depth)%Z)
      \/ ((depth < 2 ^ 31 - 1)%Z /\ (depth + 1)%Z <> depthLimit
          /\ ((f = KdTree.UnassignedPlane
               /\ KdTree.findBestPlane objList bbox = None)
              \/ exists bestPlane,
                   KdTree.findBestPlane objList bbox = Some bestPlane
                   /\ (rec (fst (KdTree.route bestPlane objList))
                         (KdTree.leftBBox bestPlane) depthLimit leafSize
                         (depth + 1)%Z
                       = KdTree.Undefined f
                       \/ rec (snd (KdTree.route bestPlane objList))
                            (KdTree.rightBBox bestPlane) depthLimit leafSize
                            (depth + 1)%Z
                          = KdTree.Undefined f
                       \/ (f = KdTree.PositionOverflow
                           /\ fits_int (KdTree.position bestPlane)
                              = false))))).
Proof.
  unfold KdTree.buildTreeHelperBody.
  destruct (KdTree.size_le objList leafSize) eqn:Esize; [discriminate |].
  destruct (Z.leb_spec (2 ^ 31 - 1) depth) as [Hov | Hov].
  { intros [= <-]. split; [reflexivity |]. left. split; [reflexivity | lia]. }
  destruct (Z.eqb_spec (depth + 1)%Z depthLimit) as [Hd | Hd]; [discriminate |].
  intros Hout. split; [reflexivity |]. right.
  split; [lia |]. split; [exact Hd |].
  destruct (KdTree.findBestPlane objList bbox) as [bestPlane |] eqn:Ebest.
  2:{ injection Hout as <-. left. split; reflexivity. }
  right. exists bestPlane. split; [reflexivity |].
  destruct (KdTree.route bestPlane objList) as [leftList rightList] eqn:Eroute.
  cbn [fst snd].
  destruct rightList as [| y rightList]; [discriminate |].
  destruct leftList as [| x leftList]; [discriminate |].
  destruct (rec (x :: leftList) _ _ _ _) as [l | fl] eqn:El.
  - destruct (rec (y :: rightList) _ _ _ _) as [r | fr] eqn:Er.
    + destruct (fits_int (KdTree.position bestPlane)) eqn:Efit;
        [discriminate |].
      injection Hout as <-. right. right. split; reflexivity.
    + injection Hout as <-. right. left. reflexivity.
  - injection Hout as <-. left. reflexivity.
Qed.

(** What holds of the calls an activation makes, and carries over to the
    activation, holds of any nest of activations; [k] counts them. *)
Lemma nest_lift
    (Phi : Z -> list Geometry -> BoundingBox -> Z -> Z -> Z
           -> KdTree.Built Material -> Prop) :
  (forall k rec, (0 <= k)%Z ->
     (forall l b dl ls d, Phi k l b dl ls d (rec l b dl ls d)) ->
     forall l b dl ls d,
       Phi (k + 1)%Z l b dl ls d
         (KdTree.buildTreeHelperBody rec l b dl ls d)) ->
  forall n k rec, (0 <= k)%Z ->
    (forall l b dl ls d, Phi k l b dl ls d (rec l b dl ls d)) ->
    forall l b dl ls d,
      Phi (k + 2 ^ Z.of_nat n)%Z l b dl ls d (KdTree.nest n rec l b dl ls d).
Proof.
  intros Hstep. induction n as [| n IH]; intros k rec Hk Hrec l b dl ls d.
  - cbn [KdTree.nest]. change (2 ^ Z.of_nat 0)%Z with 1%Z.
    apply Hstep; assumption.
  - cbn [KdTree.nest].
    pose proof (Z.pow_pos_nonneg 2 (Z.of_nat n) ltac:(lia) ltac:(lia)) as Hp.
    replace (k + 2 ^ Z.of_nat (Datatypes.S n))%Z
      with (k + 2 ^ Z.of_nat n + 2 ^ Z.of_nat n)%Z
      by (rewrite Nat2Z.inj_succ, Z.pow_succ_r; lia).
    apply IH; [lia |]. apply IH; assumption.
Qed.

(** The outermost activation of a nest. *)
Lemma nest_outer (n : nat) :
  forall rec, exists rec',
    forall l b dl ls d,
      KdTree.nest (Material := Material) n rec l b dl ls d
      = KdTree.buildTreeHelperBody rec' l b dl ls d.
Proof.
  induction n as [| n IH]; intros rec.
  - exists rec. reflexivity.
  - cbn [KdTree.nest]. apply IH.
Qed.

(** An activation depends on [rec] through the two calls it makes, at
    the next depth. *)
Lemma body_ext_at
    (r1 r2 : list Geometry -> BoundingBox -> Z -> Z -> Z
             -> KdTree.Built Material)
    (objList : list Geometry) (bbox : BoundingBox)
    (depthLimit leafSize depth : Z) :
  ((depth < 2 ^ 31 - 1)%Z ->
   forall l b, r1 l b depthLimit leafSize (depth + 1)%Z
               = r2 l b depthLimit leafSize (depth + 1)%Z) ->
  KdTree.buildTreeHelperBody r1 objList bbox depthLimit leafSize depth
  = KdTree.buildTreeHelperBody r2 objList bbox depthLimit leafSize depth.
Proof.
  intros Hagree. unfold KdTree.buildTreeHelperBody.
  destruct (KdTree.size_le objList leafSize); [reflexivity |].
  destruct (Z.leb_spec (2 ^ 31 - 1) depth) as [Hov | Hov]; [reflexivity |].
  destruct (depth + 1 =? depthLimit)%Z; [reflexivity |].
  destruct (KdTree.findBestPlane objList bbox) as [bestPlane |];
    [| reflexivity].
  destruct (KdTree.route bestPlane objList) as [leftList rightList].
  destruct rightList as [| y rightList]; [reflexivity |].
  destruct leftList as [| x leftList]; [reflexivity |].
  rewrite !(Hagree Hov). reflexivity.
Qed.

Lemma iter_body_ext (k : nat) :
  forall (r1 r2 : list Geometry -> BoundingBox -> Z -> Z -> Z
                  -> KdTree.Built Material),
    (forall l b dl ls d, r1 l b dl ls d = r2 l b dl ls d) ->
    forall l b dl ls d,
      Nat.iter k KdTree.buildTreeHelperBody r1 l b dl ls d
      = Nat.iter k KdTree.buildTreeHelperBody r2 l b dl ls d.
Proof.
  induction k as [| k IH]; intros r1 r2 Hr l b dl ls d.
  - apply Hr.
  - cbn [Nat.iter nat_rect]. apply body_ext_at. intros _ l' b'.
    apply IH, Hr.
Qed.

(** A nest of [2 ^ n] activations, one by one. *)
Lemma nest_iter (n : nat) :
  forall (rec : list Geometry -> BoundingBox -> Z -> Z -> Z
                -> KdTree.Built Material) l b dl ls d,
    KdTree.nest n rec l b dl ls d
    = Nat.iter (2 ^ n) KdTree.buildTreeHelperBody rec l b dl ls d.
Proof.
  induction n as [| n IH]; intros rec l b dl ls d.
  - reflexivity.
  - cbn [KdTree.nest]. rewrite IH.
    rewrite (iter_body_ext (2 ^ n) _
               (Nat.iter (2 ^ n) KdTree.buildTreeHelperBody rec)
               (IH rec)).
    rewrite <- Nat.iter_add.
    replace (2 ^ Datatypes.S n)%nat with (2 ^ n + 2 ^ n)%nat
      by (rewrite Nat.pow_succ_r'; lia).
    reflexivity.
Qed.

(** From a depth that is an [int], [2 ^ 31 - depth] activations are all
    that a call can nest: what stands beyond them is never called. *)
Lemma iter_body_fuel (k : nat) :
  forall (k' : nat)
         (r r' : list Geometry -> BoundingBox -> Z -> Z -> Z
                 -> KdTree.Built Material) l b dl ls d,
    (0 <= d < 2 ^ 31)%Z ->
    (2 ^ 31 - d <= Z.of_nat k)%Z -> (2 ^ 31 - d <= Z.of_nat k')%Z ->
    Nat.iter k KdTree.buildTreeHelperBody r l b dl ls d
    = Nat.iter k' KdTree.buildTreeHelperBody r' l b dl ls d.
Proof.
  induction k as [| k IH]; intros k' r r' l b dl ls d Hd Hk Hk'; [lia |].
  destruct k' as [| k']; [lia |].
  cbn [Nat.iter nat_rect]. apply body_ext_at. intros Hnext l' b'.
  apply IH; lia.
Qed.

(** [buildTreeHelper] satisfies the recursion of the source at every
    depth that is an [int]: it is one activation whose two calls are
    calls of [buildTreeHelper]. *)
Lemma buildTreeHelper_unfold (objList : list Geometry) (bbox : BoundingBox)
    (depthLimit leafSize depth : Z) :
  (0 <= depth < 2 ^ 31)%Z ->
  KdTree.buildTreeHelper objList bbox depthLimit leafSize depth
  = KdTree.buildTreeHelperBody KdTree.buildTreeHelper objList bbox
      depthLimit leafSize depth.
Proof.
  intros Hd. unfold KdTree.buildTreeHelper at 1. rewrite nest_iter.
  assert (HK : Z.of_nat (2 ^ 31)%nat = (2 ^ 31)%Z).
  { rewrite Nat2Z.inj_pow. reflexivity. }
  set (K := (2 ^ 31)%nat) in *.
  assert (Hcalls : forall l b d',
            (0 <= d' < 2 ^ 31)%Z ->
            KdTree.buildTreeHelper l b depthLimit leafSize d'
            = Nat.iter K (KdTree.buildTreeHelperBody (Material := Material))
                (fun _ _ _ _ _ => KdTree.Undefined KdTree.DepthOverflow)
                l b depthLimit leafSize d').
  { intros l b d' _. unfold KdTree.buildTreeHelper. apply nest_iter. }
  clearbody K.
  destruct K as [| K']; [lia |].
  cbn [Nat.iter nat_rect]. apply body_ext_at. intros Hnext l b.
  rewrite (Hcalls l b (depth + 1)%Z) by lia.
  apply iter_body_fuel; lia.
Qed.

Lemma nest_keeps (n : nat) :
  forall (objList : list Geometry) (bbox : BoundingBox)
         (depthLimit leafSize depth : Z) (root : KdTree.Node Material),
    KdTree.nest n (fun _ _ _ _ _ => KdTree.Undefined KdTree.DepthOverflow)
      objList bbox depthLimit leafSize depth
    = KdTree.Tree root ->
    keeps_objects objList depthLimit depth root.
Proof.
  intros objList bbox depthLimit leafSize depth.
  pose proof (nest_lift
    (fun _ l _ dl _ d out =>
       forall root, out = KdTree.Tree root -> keeps_objects l dl d root))
    as Hlift.
  cbv beta in Hlift.
  refine (Hlift _ n 0%Z _ ltac:(lia) _ objList bbox depthLimit leafSize depth);
    [| discriminate].
  clear. intros _ rec _ IH objList bbox depthLimit leafSize depth root Hbuild.
  apply body_tree in Hbuild.
  destruct Hbuild as [-> | (_ & Hd & p & l & r & _ & _ & _ & Hl & Hr & ->)].
  - unfold keeps_objects. cbn [KdTree.leafObjects KdTree.height].
    repeat split; auto. lia.
  - destruct (IH _ _ _ _ _ _ Hl) as (Hsubl & Hcovl & Hhl).
    destruct (IH _ _ _ _ _ _ Hr) as (Hsubr & Hcovr & Hhr).
    unfold keeps_objects, KdTree.newSplitNode.
    cbn [KdTree.leafObjects KdTree.height].
    split; [| split].
    + intros obj Hin. apply in_app_iff in Hin.
      destruct Hin as [Hin | Hin].
      * apply (proj1 (route_members p objList obj)), Hsubl, Hin.
      * apply (proj1 (proj2 (route_members p objList obj))), Hsubr, Hin.
    + intros obj Hin Hwf. apply in_app_iff.
      destruct (proj2 (proj2 (route_members p objList obj)) Hin
                  (Hwf (KdTree.axis p))) as [Hleft | Hright].
      * left. apply Hcovl; assumption.
      * right. apply Hcovr; assumption.
    + intros Hlt. specialize (Hhl ltac:(lia)). specialize (Hhr ltac:(lia)).
      lia.
Qed.

(** Below a depth limit that is an [int], the counter does not overflow:
    [k] activations are enough for [depthLimit - depth <= k]. *)
Lemma nest_no_overflow (n : nat) :
  forall (rec : list Geometry -> BoundingBox -> Z -> Z -> Z
                -> KdTree.Built Material)
         (objList : list Geometry) (bbox : BoundingBox)
         (depthLimit leafSize depth : Z),
    (0 <= depth < depthLimit)%Z -> (depthLimit < 2 ^ 31)%Z ->
    (depthLimit - depth <= 2 ^ Z.of_nat n)%Z ->
    KdTree.nest n rec objList bbox depthLimit leafSize depth
    <> KdTree.Undefined KdTree.DepthOverflow.
Proof.
  intros rec objList bbox depthLimit leafSize depth.
  pose proof (nest_lift
    (fun k _ _ dl _ d out =>
       (0 <= d < dl)%Z -> (dl < 2 ^ 31)%Z -> (dl - d <= k)%Z ->
       out <> KdTree.Undefined KdTree.DepthOverflow))
    as Hlift.
  cbv beta in Hlift.
  intros Hd0 Hint0 Hfuel0.
  refine (Hlift _ n 0%Z rec ltac:(lia) _ objList bbox depthLimit leafSize depth
            Hd0 Hint0 ltac:(lia)); [| intros; lia].
  clear. intros k rec Hk IH objList bbox depthLimit leafSize depth
    Hd Hint Hfuel Hout.
  apply body_fault in Hout.
  destruct Hout as (_ & [[_ Hov] | (_ & Hne & [[Hf _] | (p & _ & Hsub)])]).
  - lia.
  - discriminate.
  - destruct Hsub as [Hsub | [Hsub | [Hf _]]]; [| | discriminate];
      revert Hsub; apply IH; lia.
Qed.

(** The position of an assigned plane is a coordinate of an object. *)
Lemma findBestPlane_position (objList : list Geometry) (bbox : BoundingBox)
    (best : KdTree.Plane) :
  KdTree.findBestPlane objList bbox = Some best ->
  exists obj a,
    In obj objList /\ In a [0%Z; 1%Z; 2%Z]
    /\ (KdTree.position best = minOn obj a
        \/ KdTree.position best = maxOn obj a).
Proof.
  unfold KdTree.findBestPlane.
  destruct (bestStep_fold objList bbox (KdTree.planeList objList bbox)
              (Finite KdTree.MIN_S) None)
    as [[-> _] | (pre & q & post & Hl & -> & _)]; [discriminate |].
  cbn [snd]. intros [= <-].
  assert (Hq : In q (KdTree.planeList objList bbox)).
  { rewrite Hl. apply in_app_iff. right. left. reflexivity. }
  apply in_planeList in Hq. destruct Hq as (a & obj & Ha & Hobj & Hq).
  exists obj, a. split; [exact Hobj |]. split; [exact Ha |].
  destruct Hq as [-> | ->]; [left | right]; reflexivity.
Qed.

(** A call that meets a position beyond [int] was given an object with a
    coordinate beyond [int]. *)
Lemma nest_position (n : nat) :
  forall (objList : list Geometry) (bbox : BoundingBox)
         (depthLimit leafSize depth : Z),
    KdTree.nest n (fun _ _ _ _ _ => KdTree.Undefined KdTree.DepthOverflow)
      objList bbox depthLimit leafSize depth
    = KdTree.Undefined KdTree.PositionOverflow ->
    exists obj a,
      In obj objList /\ In a [0%Z; 1%Z; 2%Z]
      /\ (fits_int (minOn obj a) = false \/ fits_int (maxOn obj a) = false).
Proof.
  intros objList bbox depthLimit leafSize depth.
  pose proof (nest_lift
    (fun _ objs _ _ _ _ out =>
       out = KdTree.Undefined KdTree.PositionOverflow ->
       exists (obj : Geometry) a,
         In obj objs /\ In a [0%Z; 1%Z; 2%Z]
         /\ (fits_int (minOn obj a) = false
             \/ fits_int (maxOn obj a) = false)))
    as Hlift.
  cbv beta in Hlift.
  refine (Hlift _ n 0%Z _ ltac:(lia) _ objList bbox depthLimit leafSize depth);
    [| discriminate].
  clear. intros _ rec _ IH objList bbox depthLimit leafSize depth Hout.
  apply body_fault in Hout.
  destruct Hout as (_ & [[Hf _] | (_ & _ & Hcase)]); [discriminate |].
  destruct Hcase as [[Hf _] | (p & Hbest & [Hsub | [Hsub | [_ Hfit]]])].
  - discriminate.
  - destruct (IH _ _ _ _ _ Hsub) as (obj & a & Hin & Ha & Hbad).
    exists obj, a. split; [| split; assumption].
    apply (proj1 (route_members p objList obj)), Hin.
  - destruct (IH _ _ _ _ _ Hsub) as (obj & a & Hin & Ha & Hbad).
    exists obj, a. split; [| split; assumption].
    apply (proj1 (proj2 (route_members p objList obj))), Hin.
  - destruct (findBestPlane_position objList bbox p Hbest)
      as (obj & a & Hin & Ha & Hpos).
    exists obj, a. split; [exact Hin |]. split; [exact Ha |].
    destruct Hpos as [<- | <-]; [left | right]; exact Hfit.
Qed.

(** [buildTreeHelper] satisfies the recursion of the source at every
    depth that is an [int].  With a depth limit between 1 and [INT_MAX]
    it ends within [depthLimit] activations: the depth counter does not
    overflow, and the call returns a tree unless a build step reads the
    plane that [findBestPlane] left unassigned, or a position that does
    not fit the [int] parameter of the node constructor, which is a
    coordinate of an object of the list.  The tree returned holds the
    objects of the list and no other: every object stored in a leaf comes
    from the list, every object of the list with a well-formed box is
    stored in at least one leaf, and no branch has [depthLimit] split
    nodes or more. *)
Theorem buildTree_keeps_objects (objList : list Geometry) (bbox : BoundingBox)
    (depthLimit leafSize : Z) :
  (0 < depthLimit < 2 ^ 31)%Z ->
  let out := KdTree.buildTreeHelper objList bbox depthLimit leafSize 0 in
  (forall (l : list Geometry) b d,
     (0 <= d < 2 ^ 31)%Z ->
     KdTree.buildTreeHelper l b depthLimit leafSize d
     = KdTree.buildTreeHelperBody KdTree.buildTreeHelper l b depthLimit
         leafSize d)
  /\ out <> KdTree.Undefined KdTree.DepthOverflow
  /\ (out = KdTree.Undefined KdTree.PositionOverflow ->
      exists obj a,
        In obj objList /\ In a [0%Z; 1%Z; 2%Z]
        /\ (fits_int (minOn obj a) = false
            \/ fits_int (maxOn obj a) = false))
  /\ (forall root,
        KdTree.buildTree objList bbox depthLimit leafSize = Some root <->
        out = KdTree.Tree root)
  /\ (forall root,
        out = KdTree.Tree root ->
        (forall obj, In obj (KdTree.leafObjects root) -> In obj objList)
        /\ (forall obj, In obj objList ->
              (forall a, minOn obj a <= maxOn obj a) ->
              In obj (KdTree.leafObjects root))
        /\ (Z.of_nat (KdTree.height root) < depthLimit)%Z).
Proof.
  intros Hlimit out. subst out.
  split; [intros l b d Hd; apply buildTreeHelper_unfold, Hd |].
  unfold KdTree.buildTree, KdTree.buildTreeHelper.
  split.
  { apply nest_no_overflow; [lia | lia |].
    change (2 ^ Z.of_nat 31)%Z with (2 ^ 31)%Z. lia. }
  split; [apply nest_position |].
  split.
  { intros root.
    destruct (KdTree.nest 31 _ objList bbox depthLimit leafSize 0);
      split; congruence. }
  intros root Hout. apply nest_keeps in Hout.
  destruct Hout as (Hsub & Hcov & Hh).
  split; [exact Hsub |]. split; [exact Hcov | lia].
Qed.

(** A list of at most [leafSize] objects, or a negative [leafSize] (which
    the comparison with [objList.size()] converts to a large unsigned
    value), gives a tree of one leaf holding the list as it is, whatever
    the depth limit; so does a depth limit of 1, whatever the list. *)
Theorem buildTree_single_leaf (objList : list Geometry) (bbox : BoundingBox)
    (depthLimit leafSize : Z) :
  (- 2 ^ 31 <= leafSize < 2 ^ 31)%Z ->
  (Z.of_nat (length objList) < 2 ^ 63)%Z ->
  (Z.of_nat (length objList) <= leafSize)%Z \/ (leafSize < 0)%Z
  \/ depthLimit = 1%Z ->
  KdTree.buildTree objList bbox depthLimit leafSize
  = Some (KdTree.LeafNode objList).
Proof.
  intros Hint Hsize Hcase. unfold KdTree.buildTree, KdTree.buildTreeHelper.
  destruct (nest_outer 31
              (fun _ _ _ _ _ => KdTree.Undefined KdTree.DepthOverflow))
    as [rec' ->].
  unfold KdTree.buildTreeHelperBody.
  destruct (KdTree.size_le objList leafSize) eqn:Esize; [reflexivity |].
  destruct Hcase as [Hsmall | [Hneg | ->]].
  - unfold KdTree.size_le in Esize. apply Z.leb_gt in Esize.
    rewrite Z.mod_small in Esize by lia. lia.
  - unfold KdTree.size_le in Esize. apply Z.leb_gt in Esize.
    assert (Hmod : (leafSize mod 2 ^ 64 = leafSize + 2 ^ 64)%Z).
    { symmetry. apply Z.mod_unique with (q := (-1)%Z); lia. }
    rewrite Hmod in Esize. lia.
  - reflexivity.
Qed.

(** What a traversal of any subtree leaves behind. *)
Lemma findIntersection_outcome (n : KdTree.Node Material) :
  forall (r : ray) (st : KdTree.Trav Material),
    let res := KdTree.findIntersection n r st in
    (fst res = true ->
       exists obj,
         In obj (KdTree.leafObjects n)
         /\ KdTree.accepts r obj (KdTree.trav_i (snd res)))
    /\ (fst res = false ->
        KdTree.trav_i (snd res) = setT (KdTree.trav_i st) KdTree.T_SENTINEL).
Proof.
  induction n as [ax l IHl rt IHr pos bbox | objs]; intros r st.
  - cbn [KdTree.findIntersection KdTree.leafObjects].
    destruct (BBox.intersect bbox r) as [[ok tmn] tmx].
    set (st0 := KdTree.mkTrav (KdTree.trav_i st) tmn tmx).
    assert (Hst0 : KdTree.trav_i st0 = KdTree.trav_i st) by reflexivity.
    match goal with
    | |- context [if ?c1 then _ else if ?c2 then _ else _] =>
        destruct c1; [| destruct c2]
    end.
    + destruct (IHl r st0) as [Ht Hf]. cbv zeta in *. split.
      * intros Hhit. destruct (Ht Hhit) as (obj & Hin & Hacc).
        exists obj. split; [apply in_app_iff; left; exact Hin | exact Hacc].
      * intros Hmiss. rewrite (Hf Hmiss), Hst0. reflexivity.
    + destruct (IHr r st0) as [Ht Hf]. cbv zeta in *. split.
      * intros Hhit. destruct (Ht Hhit) as (obj & Hin & Hacc).
        exists obj. split; [apply in_app_iff; right; exact Hin | exact Hacc].
      * intros Hmiss. rewrite (Hf Hmiss), Hst0. reflexivity.
    + destruct (IHl r st0) as [Htl Hfl]. cbv zeta in *.
      destruct (KdTree.findIntersection l r st0) as [[|] st1] eqn:El;
        cbn [fst snd] in *.
      * split; [| discriminate]. intros _.
        destruct (Htl eq_refl) as (obj & Hin & Hacc).
        exists obj. split; [apply in_app_iff; left; exact Hin | exact Hacc].
      * destruct (IHr r st1) as [Htr Hfr]. cbv zeta in *. split.
        -- intros Hhit. destruct (Htr Hhit) as (obj & Hin & Hacc).
           exists obj.
           split; [apply in_app_iff; right; exact Hin | exact Hacc].
        -- intros Hmiss. rewrite (Hfr Hmiss), (Hfl eq_refl), Hst0.
           reflexivity.
  - cbn [KdTree.findIntersection KdTree.leafObjects].
    destruct (leafFind_invariant objs r st) as [Hf Ht]. cbv zeta in *.
    split.
    + intros Hhit. exact (proj1 (Ht Hhit)).
    + intros Hmiss. exact (proj1 (Hf Hmiss)).
Qed.

(** A hit reported by the traversal is a hit of an object stored in a
    leaf of the tree, whatever the tree: the isect returned is what that
    object's [intersect] gives for the ray, with [t] below the sentinel
    1e13.  When the leaves hold objects of a list only, as those of a tree
    of [buildTree] do, the object is one of the list. *)
Theorem kd_hit_is_object_hit (objList : list Geometry)
    (root : KdTree.Node Material) (r : ray) (st : KdTree.Trav Material) :
  (forall obj, In obj (KdTree.leafObjects root) -> In obj objList) ->
  fst (KdTree.intersect root r st) = true ->
  exists obj,
    In obj objList /\ In obj (KdTree.leafObjects root)
    /\ Geometry.intersect obj r
       = Some (KdTree.trav_i (snd (KdTree.intersect root r st)))
    /\ getT (KdTree.trav_i (snd (KdTree.intersect root r st)))
       < KdTree.T_SENTINEL.
Proof.
  intros Hleaves Hhit. unfold KdTree.intersect in *.
  destruct (findIntersection_outcome root r st) as [Ht _]. cbv zeta in Ht.
  destruct (Ht Hhit) as (obj & Hin & Hi & Hlt & _).
  exists obj. split; [exact (Hleaves obj Hin) |]. split; [exact Hin |].
  split; assumption.
Qed.

(** A traversal that reports no hit has overwritten [t] of the caller's
    isect with the sentinel 1e13 and left its normal and material as they
    were. *)
Theorem kd_miss_leaves_sentinel (root : KdTree.Node Material) (r : ray)
    (st : KdTree.Trav Material) :
  fst (KdTree.intersect root r st) = false ->
  getT (KdTree.trav_i (snd (KdTree.intersect root r st))) = KdTree.T_SENTINEL
  /\ getN (KdTree.trav_i (snd (KdTree.intersect root r st)))
     = getN (KdTree.trav_i st)
  /\ getMaterial (KdTree.trav_i (snd (KdTree.intersect root r st)))
     = getMaterial (KdTree.trav_i st).
Proof.
  intros Hmiss. unfold KdTree.intersect in *.
  destruct (findIntersection_outcome root r st) as [_ Hf]. cbv zeta in Hf.
  rewrite (Hf Hmiss). repeat split.
Qed.

End KdMoreFacts.

(** ** Lights: bounds *)

Section LightMoreFacts.
Context {Material Scene : Type} `{RayConsts} `{Libm}
        `{MaterialOps Material} `{SceneOps Material Scene}.

(** The attenuation of a point light is never above 1; with non-negative
    coefficients it is not negative; it is the inverse of
    [kc + kl d + kq d^2] when this sum is 1 or more, and 1 when the sum is
    positive and below 1. *)
Theorem point_distanceAttenuation_bounds (l : PointLight.t Scene) (P : dvec3) :
  let d := Glm.distance (PointLight.position l) P in
  let D := PointLight.constantTerm l + PointLight.linearTerm l * d
           + PointLight.quadraticTerm l * d * d in
  PointLight.distanceAttenuation l P <= 1
  /\ (0 <= D -> 0 <= PointLight.distanceAttenuation l P)
  /\ ((forall x, 0 <= sqrt x) -> 0 <= PointLight.constantTerm l ->
      0 <= PointLight.linearTerm l -> 0 <= PointLight.quadraticTerm l ->
      0 <= D)
  /\ (1 <= D -> PointLight.distanceAttenuation l P == 1 / D)
  /\ (0 < D -> D <= 1 -> PointLight.distanceAttenuation l P == 1).
Proof.
  intros d D. unfold PointLight.distanceAttenuation. fold d. fold D.
  split; [apply Q.le_min_l |]. split; [| split; [| split]].
  - intros HD. apply Q.min_glb; [lra |].
    unfold Qdiv. rewrite Qmult_1_l. apply Qinv_le_0_compat. exact HD.
  - intros Hsqrt Hc Hl Hq.
    assert (Hd : 0 <= d) by (unfold d, Glm.distance, Glm.length; apply Hsqrt).
    unfold D. nra.
  - intros HD. apply Q.min_r. apply Qle_shift_div_r; lra.
  - intros Hpos HD. apply Q.min_l. apply Qle_shift_div_l; lra.
Qed.

(** The shadow attenuation never brightens a light: when the colour of the
    light is not negative and [kt] of the occluder met by the shadow ray
    lies between 0 and 1 in each channel, the result lies between 0 and the
    colour of the light in each channel.  The ray argument is not read. *)
Theorem shadowAttenuation_within_color
    (dl : DirectionalLight.t Scene) (pl : PointLight.t Scene)
    (r r' : ray) (p : dvec3) :
  let ddir := Glm.normalize (DirectionalLight.getDirection dl p) in
  let pdir := Glm.normalize (PointLight.getDirection pl p) in
  Glm.le (Dvec3 0 0 0) (DirectionalLight.color dl) ->
  Glm.le (Dvec3 0 0 0) (PointLight.color pl) ->
  (forall i,
     scene_intersect (DirectionalLight.getScene dl)
       (DirectionalLight.shadowRay p ddir) = Some i ->
     Glm.le (Dvec3 0 0 0) (kt (getMaterial i) i)
     /\ Glm.le (kt (getMaterial i) i) (Dvec3 1 1 1)) ->
  (forall i,
     scene_intersect (PointLight.getScene pl)
       (DirectionalLight.shadowRay p pdir) = Some i ->
     Glm.le (Dvec3 0 0 0) (kt (getMaterial i) i)
     /\ Glm.le (kt (getMaterial i) i) (Dvec3 1 1 1)) ->
  Glm.le (Dvec3 0 0 0) (DirectionalLight.shadowAttenuation dl r p)
  /\ Glm.le (DirectionalLight.shadowAttenuation dl r p)
       (DirectionalLight.color dl)
  /\ Glm.le (Dvec3 0 0 0) (PointLight.shadowAttenuation pl r p)
  /\ Glm.le (PointLight.shadowAttenuation pl r p) (PointLight.color pl)
  /\ DirectionalLight.shadowAttenuation dl r' p
     = DirectionalLight.shadowAttenuation dl r p
  /\ PointLight.shadowAttenuation pl r' p
     = PointLight.shadowAttenuation pl r p.
Proof.
  intros ddir pdir Hdc Hpc Hdk Hpk.
  assert (Hscale : forall k c : dvec3,
             Glm.le (Dvec3 0 0 0) c -> Glm.le (Dvec3 0 0 0) k ->
             Glm.le k (Dvec3 1 1 1) ->
             Glm.le (Dvec3 0 0 0) (k * c)%vec /\ Glm.le (k * c)%vec c).
  { intros [kx ky kz] [cx cy cz]. unfold Glm.le, Glm.mul. cbn.
    intros (? & ? & ?) (? & ? & ?) (? & ? & ?). repeat split; nra. }
  assert (Hrefl : forall c : dvec3,
             Glm.le (Dvec3 0 0 0) c -> Glm.le (Dvec3 0 0 0) c /\ Glm.le c c).
  { intros c Hc. split; [exact Hc |]. unfold Glm.le. repeat split; lra. }
  unfold DirectionalLight.shadowAttenuation, PointLight.shadowAttenuation.
  fold ddir. fold pdir.
  assert (Hd : Glm.le (Dvec3 0 0 0)
                 match scene_intersect (DirectionalLight.getScene dl)
                         (DirectionalLight.shadowRay p ddir) with
                 | Some i => (kt (getMaterial i) i * DirectionalLight.color dl)%vec
                 | None => DirectionalLight.color dl
                 end
               /\ Glm.le
                    match scene_intersect (DirectionalLight.getScene dl)
                            (DirectionalLight.shadowRay p ddir) with
                    | Some i =>
                        (kt (getMaterial i) i * DirectionalLight.color dl)%vec
                    | None => DirectionalLight.color dl
                    end (DirectionalLight.color dl)).
  { destruct (scene_intersect (DirectionalLight.getScene dl) _) as [i |].
    - destruct (Hdk i eq_refl). apply Hscale; assumption.
    - apply Hrefl, Hdc. }
  assert (Hp : Glm.le (Dvec3 0 0 0) (PointLight.shadowAttenuation pl r p)
               /\ Glm.le (PointLight.shadowAttenuation pl r p)
                    (PointLight.color pl)).
  { unfold PointLight.shadowAttenuation. fold pdir.
    destruct (scene_intersect (PointLight.getScene pl) _) as [i |].
    - destruct (Hpk i eq_refl).
      destruct (Qltb (getT i) _); [apply Hscale | apply Hrefl]; assumption.
    - apply Hrefl, Hpc. }
  unfold PointLight.shadowAttenuation in Hp. fold pdir in Hp.
  destruct Hd as [Hd1 Hd2]. destruct Hp as [Hp1 Hp2].
  split; [exact Hd1 |]. split; [exact Hd2 |]. split; [exact Hp1 |].
  split; [exact Hp2 |]. split; reflexivity.
Qed.

End LightMoreFacts.
(** ** traceRay: when the children contribute nothing *)

Section TraceMoreFacts.
Context {Material Scene : Type} `{RayConsts} `{Libm} `{TraceUI}
        `{MaterialOps Material} `{SceneOps Material Scene}.

Lemma traceRay_cut (sc : Scene) (r : ray) (thresh : dvec3) (depth : Z)
    (t : Q) :
  (depth < 0)%Z \/ RayTracer.belowThreshold thresh = true ->
  RayTracer.traceRay sc r thresh depth t = (Dvec3 0 0 0, t).
Proof.
  intros Hcut. rewrite traceRay_unfold. unfold RayTracer.traceRay_body.
  destruct (Z.ltb_spec depth 0) as [Hneg | Hpos]; [reflexivity |].
  destruct Hcut as [Hneg | ->]; [lia | reflexivity].
Qed.

Lemma equiv_add_black (a k : dvec3) :
  Glm.equiv (a + k * Dvec3 0 0 0)%vec a.
Proof.
  destruct a, k. unfold Glm.equiv, Glm.add, Glm.mul. cbn.
  repeat split; ring.
Qed.

Lemma equiv_trans (a b c : dvec3) :
  Glm.equiv a b -> Glm.equiv b c -> Glm.equiv a c.
Proof.
  unfold Glm.equiv. intros (? & ? & ?) (? & ? & ?).
  repeat split; etransitivity; eassumption.
Qed.

Lemma equiv_refl (a : dvec3) : Glm.equiv a a.
Proof. unfold Glm.equiv. repeat split; reflexivity. Qed.

(** On a hit at depth 0 the children are cut by the depth test, and at
    any depth a child whose weight [kr * thresh] (or [kt * thresh]) is
    below the threshold in all channels is cut by the weight test: the
    colour is then the value of [shade] (the cut children add [k * 0]),
    and [t] is the distance of the hit. *)
Theorem traceRay_direct_shade_only (sc : Scene) (r : ray) (thresh : dvec3)
    (depth : Z) (t : Q) (i : isect Material) :
  (0 <= depth)%Z ->
  RayTracer.belowThreshold thresh = false ->
  scene_intersect sc r = Some i ->
  depth = 0%Z
  \/ ((Refl (getMaterial i) = true ->
       RayTracer.belowThreshold (kr (getMaterial i) i * thresh)%vec = true)
      /\ (Trans (getMaterial i) = true ->
          RayTracer.belowThreshold (kt (getMaterial i) i * thresh)%vec
          = true)) ->
  Glm.equiv (fst (RayTracer.traceRay sc r thresh depth t))
    (shade (getMaterial i) sc r i)
  /\ snd (RayTracer.traceRay sc r thresh depth t) = getT i
  /\ (Refl (getMaterial i) = false -> Trans (getMaterial i) = false ->
      RayTracer.traceRay sc r thresh depth t
      = (shade (getMaterial i) sc r i, getT i)).
Proof.
  intros Hd Hb Hi Hcut.
  rewrite traceRay_unfold. unfold RayTracer.traceRay_body.
  destruct (Z.ltb_spec depth 0); [lia |].
  rewrite Hb. unfold RayTracer.traceHit. rewrite Hi.
  set (m := getMaterial i) in *.
  set (P := ray_at r (getT i)).
  set (d := Glm.normalize (getDirection r)).
  set (n := Glm.normalize (getN i)).
  set (child := fun r' thresh' t' =>
                  RayTracer.traceRay sc r' thresh' (depth - 1) t').
  assert (Hrefl : Refl m = true -> forall r' t',
             child r' (kr m i * thresh)%vec t' = (Dvec3 0 0 0, t')).
  { intros Hr r' t'. unfold child. apply traceRay_cut.
    destruct Hcut as [-> | [Hk _]]; [left; lia | right; apply Hk, Hr]. }
  assert (Htrans : Trans m = true -> forall r' t',
             child r' (kt m i * thresh)%vec t' = (Dvec3 0 0 0, t')).
  { intros Hr r' t'. unfold child. apply traceRay_cut.
    destruct Hcut as [-> | [_ Hk]]; [left; lia | right; apply Hk, Hr]. }
  unfold RayTracer.refractStep, RayTracer.reflectStep. fold m.
  destruct (Refl m) eqn:Er; destruct (Trans m) eqn:Et;
    rewrite ?(Hrefl eq_refl); cbn [fst snd];
    try destruct (Qltb 0 (RayTracer.refr_k i d n));
    rewrite ?(Htrans eq_refl); cbn [fst snd];
    (split; [| split; [reflexivity | try discriminate; reflexivity]]);
    repeat (eapply equiv_trans; [apply equiv_add_black |]);
    apply equiv_refl.
Qed.

Lemma traceRay_plain_hit (sc : Scene) (r : ray) (thresh : dvec3) (depth : Z)
    (t : Q) (i : isect Material) :
  (0 <= depth)%Z ->
  RayTracer.belowThreshold thresh = false ->
  scene_intersect sc r = Some i ->
  Refl (getMaterial i) = false -> Trans (getMaterial i) = false ->
  RayTracer.traceRay sc r thresh depth t
  = (shade (getMaterial i) sc r i, getT i).
Proof.
  intros Hd Hb Hi Hr Ht.
  rewrite traceRay_unfold. unfold RayTracer.traceRay_body.
  destruct (Z.ltb_spec depth 0); [lia |].
  rewrite Hb. unfold RayTracer.traceHit. rewrite Hi.
  unfold RayTracer.refractStep, RayTracer.reflectStep. cbv zeta.
  rewrite Hr, Ht. reflexivity.
Qed.

(** A ray that meets nothing takes the colour of the cube map when one is
    enabled and black otherwise, and leaves [t] as it was.  [trace]
    returns that colour clamped.  With a negative depth setting, or a
    threshold above 1, the first ray is already cut and [trace] returns
    black whatever the scene. *)
Theorem trace_background_or_black (sc : Scene) (x y : Q) :
  let r := rayThrough sc x y
             (Ray (Dvec3 0 0 0) (Dvec3 0 0 0) (Dvec3 1 1 1) VISIBILITY) in
  (forall r' thresh depth t,
     (0 <= depth)%Z -> RayTracer.belowThreshold thresh = false ->
     scene_intersect sc r' = None ->
     RayTracer.traceRay sc r' thresh depth t
     = (if cubeMap then getCubeMapColor r' else Dvec3 0 0 0, t))
  /\ ((0 <= getDepth)%Z -> getThreshold <= 1 ->
      scene_intersect sc r = None ->
      RayTracer.trace sc x y
      = Glm.clamp (if cubeMap then getCubeMapColor r else Dvec3 0 0 0) 0 1)
  /\ ((getDepth < 0)%Z \/ 1 < getThreshold ->
      RayTracer.trace sc x y = Dvec3 0 0 0).
Proof.
  intros r.
  assert (Hmiss : forall r' thresh depth t,
            (0 <= depth)%Z -> RayTracer.belowThreshold thresh = false ->
            scene_intersect sc r' = None ->
            RayTracer.traceRay sc r' thresh depth t
            = (if cubeMap then getCubeMapColor r' else Dvec3 0 0 0, t)).
  { intros r' thresh depth t Hd Hb Hi.
    rewrite traceRay_unfold. unfold RayTracer.traceRay_body.
    destruct (Z.ltb_spec depth 0); [lia |].
    rewrite Hb. unfold RayTracer.traceHit. rewrite Hi. reflexivity. }
  split; [exact Hmiss |]. split.
  - intros Hd Hth Hi. unfold RayTracer.trace. fold r.
    rewrite Hmiss; [reflexivity | exact Hd | | exact Hi].
    destruct (RayTracer.belowThreshold (Dvec3 1 1 1)) eqn:Eb;
      [| reflexivity].
    apply belowThreshold_iff in Eb. destruct Eb as [Eb _].
    unfold Glm.idx in Eb. cbn [Z.eqb vx] in Eb. lra.
  - intros Hcut. unfold RayTracer.trace. fold r.
    rewrite traceRay_cut; [reflexivity |].
    destruct Hcut as [Hd | Hth]; [left; exact Hd | right].
    apply belowThreshold_iff. unfold Glm.idx.
    cbn [Z.eqb Pos.eqb vx vy vz]. repeat split; exact Hth.
Qed.

(** A hit on a material that reflects and does not transmit: the colour is
    [shade + kr * child], the child being [traceRay] on the mirrored ray
    from [P + eps * dir] with weight [kr * thresh] at [depth - 1].  [t] is
    handed to the child by reference: when the mirrored ray is traced and
    meets a plain surface, [traceRay] leaves in [t] the distance of that
    second hit, not the distance of the hit of the ray itself. *)
Theorem traceRay_reflection_overwrites_t (sc : Scene) (r : ray)
    (thresh : dvec3) (depth : Z) (t : Q) (i : isect Material) :
  (0 <= depth)%Z ->
  RayTracer.belowThreshold thresh = false ->
  scene_intersect sc r = Some i ->
  Refl (getMaterial i) = true -> Trans (getMaterial i) = false ->
  let m := getMaterial i in
  let P := ray_at r (getT i) in
  let d := Glm.normalize (getDirection r) in
  let n := Glm.normalize (getN i) in
  let dir := Glm.normalize (d - (2 * Glm.dot d n) *| n)%vec in
  let reflect := Ray (P + RAY_EPSILON *| dir)%vec dir (Dvec3 1 1 1)
                   REFLECTION in
  let child := RayTracer.traceRay sc reflect (kr m i * thresh)%vec
                 (depth - 1) (getT i) in
  RayTracer.traceRay sc r thresh depth t
  = ((shade m sc r i + kr m i * fst child)%vec, snd child)
  /\ (forall i',
        (1 <= depth)%Z ->
        RayTracer.belowThreshold (kr m i * thresh)%vec = false ->
        scene_intersect sc reflect = Some i' ->
        Refl (getMaterial i') = false -> Trans (getMaterial i') = false ->
        RayTracer.traceRay sc r thresh depth t
        = ((shade m sc r i
            + kr m i * shade (getMaterial i') sc reflect i')%vec,
           getT i')).
Proof.
  intros Hd Hb Hi Hr Ht m P d n dir reflect child.
  assert (Hmain : RayTracer.traceRay sc r thresh depth t
                  = ((shade m sc r i + kr m i * fst child)%vec, snd child)).
  { rewrite traceRay_unfold. unfold RayTracer.traceRay_body.
    destruct (Z.ltb_spec depth 0); [lia |].
    rewrite Hb. unfold RayTracer.traceHit. rewrite Hi.
    unfold RayTracer.refractStep, RayTracer.reflectStep. cbv zeta.
    rewrite Ht, Hr. cbn [fst snd].
    change (RayTracer.traceRay sc
              (Ray (ray_at r (getT i)
                    + RAY_EPSILON
                      *| Glm.normalize
                           (Glm.normalize (getDirection r)
                            - (2 * Glm.dot (Glm.normalize (getDirection r))
                                     (Glm.normalize (getN i)))
                              *| Glm.normalize (getN i)))%vec
                 (Glm.normalize
                    (Glm.normalize (getDirection r)
                     - (2 * Glm.dot (Glm.normalize (getDirection r))
                              (Glm.normalize (getN i)))
                       *| Glm.normalize (getN i))%vec)
                 Glm.ones REFLECTION)
              (kr (getMaterial i) i * thresh)%vec (depth - 1) (getT i))
      with child.
    destruct child as [c t']. reflexivity. }
  split; [exact Hmain |].
  intros i' Hd1 Hb' Hi' Hr' Ht'. rewrite Hmain. unfold child.
  rewrite (traceRay_plain_hit sc reflect (kr m i * thresh)%vec (depth - 1)
             (getT i) i' ltac:(lia) Hb' Hi' Hr' Ht').
  reflexivity.
Qed.

End TraceMoreFacts.

(** ** The frame buffer: reading back *)

Section PixelMoreFacts.
Context {Material Scene : Type} `{RayConsts} `{Libm} `{TraceUI}
        `{MaterialOps Material} `{SceneOps Material Scene}.

Lemma pixelBytes_offsets (rt : RayTracer.t Scene) (ij : Z * Z) (b : Z) :
  In b (RayTracer.pixelBytes rt ij) <->
  exists k, (0 <= k < 3)%Z
            /\ b = (RayTracer.pixelOffset rt (fst ij) (snd ij) + k)%Z.
Proof.
  unfold RayTracer.pixelBytes. cbn [In]. split.
  - intros [<- | [<- | [<- | []]]];
      [exists 0%Z | exists 1%Z | exists 2%Z]; split; lia.
  - intros (k & Hk & ->).
    assert (k = 0 \/ k = 1 \/ k = 2)%Z as [-> | [-> | ->]] by lia;
      [left | right; left | right; right; left]; lia.
Qed.

(** What [storePixel] does to any buffer, in range or not: the bytes
    outside the three offsets are kept, and so is the size. *)
Lemma storePixel_frame (buf : list Z) (off : Z) (col : dvec3) :
  length (RayTracer.storePixel buf off col) = length buf
  /\ forall b, b <> off -> b <> (off + 1)%Z -> b <> (off + 2)%Z ->
       RayTracer.load (RayTracer.storePixel buf off col) b
       = RayTracer.load buf b.
Proof.
  unfold RayTracer.storePixel. split.
  - rewrite !length_store. reflexivity.
  - intros b Ha Hb Hc. rewrite !load_store_ne by lia. reflexivity.
Qed.

Lemma to_uchar_range (v : Z) : (0 <= to_uchar v < 256)%Z.
Proof. unfold to_uchar. apply Z.mod_pos_bound. lia. Qed.

(** [getPixel] after [setPixel] on an in-range pixel, for a colour whose
    products [255 * c] fit an [int] (the casts of [setPixel] are defined
    for these): the colour read back is the stored bytes over 255, each
    channel in [0, 1] also when the colour given was not; every other
    in-range pixel reads as before, and nothing but the buffer changes. *)
Theorem getPixel_after_setPixel (rt : RayTracer.t Scene) (i j h : Z)
    (color : dvec3) :
  (0 <= i < RayTracer.buffer_width rt)%Z -> (0 <= j < h)%Z ->
  Z.of_nat (length (RayTracer.buffer rt))
  = (RayTracer.buffer_width rt * h * 3)%Z ->
  fits_int (255 * vx color) = true -> fits_int (255 * vy color) = true ->
  fits_int (255 * vz color) = true ->
  let rt' := RayTracer.setPixel rt i j color in
  RayTracer.getPixel rt' i j
  = Dvec3 (inject_Z (Spec.quantize_trunc (vx color)) / 255)
          (inject_Z (Spec.quantize_trunc (vy color)) / 255)
          (inject_Z (Spec.quantize_trunc (vz color)) / 255)
  /\ Glm.le (Dvec3 0 0 0) (RayTracer.getPixel rt' i j)
  /\ Glm.le (RayTracer.getPixel rt' i j) (Dvec3 1 1 1)
  /\ (forall i' j',
        (0 <= i' < RayTracer.buffer_width rt)%Z -> (0 <= j' < h)%Z ->
        (i', j') <> (i, j) ->
        RayTracer.getPixel rt' i' j' = RayTracer.getPixel rt i' j')
  /\ rt' = RayTracer.with_buffer rt (RayTracer.buffer rt')
  /\ length (RayTracer.buffer rt') = length (RayTracer.buffer rt).
Proof.
  intros Hi Hj Hlen _ _ _ rt'.
  destruct (pixelOffset_in_range rt i j h Hi Hj Hlen) as [Hlo Hhi].
  destruct (storePixel_spec (RayTracer.buffer rt)
              (RayTracer.pixelOffset rt i j) color Hlo Hhi)
    as (S0 & S1 & S2 & Slen & Srest).
  cbv zeta in *.
  assert (Hget : RayTracer.getPixel rt' i j
                 = Dvec3 (inject_Z (Spec.quantize_trunc (vx color)) / 255)
                     (inject_Z (Spec.quantize_trunc (vy color)) / 255)
                     (inject_Z (Spec.quantize_trunc (vz color)) / 255)).
  { unfold rt', RayTracer.getPixel, RayTracer.setPixel. cbn.
    change (RayTracer.pixelOffset
              (RayTracer.with_buffer rt
                 (RayTracer.storePixel (RayTracer.buffer rt)
                    (RayTracer.pixelOffset rt i j) color)) i j)
      with (RayTracer.pixelOffset rt i j).
    rewrite S0, S1, S2. reflexivity. }
  assert (Hbyte : forall v,
             0 <= inject_Z (Spec.quantize_trunc v) / 255
             /\ inject_Z (Spec.quantize_trunc v) / 255 <= 1).
  { intros v. pose proof (to_uchar_range (double_to_int (255 * v))) as Hr.
    unfold Spec.quantize_trunc.
    set (z := to_uchar (double_to_int (255 * v))) in *.
    assert (0 <= inject_Z z)
      by (change 0 with (inject_Z 0); rewrite <- Zle_Qle; lia).
    assert (inject_Z z <= 255)
      by (change 255 with (inject_Z 255); rewrite <- Zle_Qle; lia).
    split.
    - apply Qle_shift_div_l; lra.
    - apply Qle_shift_div_r; lra. }
  split; [exact Hget |]. rewrite Hget.
  split; [unfold Glm.le; cbn; repeat split; apply Hbyte |].
  split; [unfold Glm.le; cbn; repeat split; apply Hbyte |].
  split; [| split; [reflexivity | exact Slen]].
  intros i' j' Hi' Hj' Hne.
  unfold rt', RayTracer.getPixel, RayTracer.setPixel. cbn.
  change (RayTracer.pixelOffset
            (RayTracer.with_buffer rt
               (RayTracer.storePixel (RayTracer.buffer rt)
                  (RayTracer.pixelOffset rt i j) color)) i' j')
    with (RayTracer.pixelOffset rt i' j').
  assert (Hoff : forall k k', (0 <= k < 3)%Z -> (0 <= k' < 3)%Z ->
             (RayTracer.pixelOffset rt i' j' + k)%Z
             <> (RayTracer.pixelOffset rt i j + k')%Z).
  { intros k k' Hk Hk' Heq. apply Hne.
    apply (pixelBytes_disjoint rt h (RayTracer.pixelOffset rt i' j' + k)
             (i', j') (i, j)); cbn [fst snd]; try assumption.
    - apply pixelBytes_offsets. exists k. split; [exact Hk | reflexivity].
    - apply pixelBytes_offsets. exists k'. split; [exact Hk' | exact Heq]. }
  rewrite !Srest; try reflexivity;
    try (pose proof (Hoff 0%Z 0%Z); pose proof (Hoff 0%Z 1%Z);
         pose proof (Hoff 0%Z 2%Z); pose proof (Hoff 1%Z 0%Z);
         pose proof (Hoff 1%Z 1%Z); pose proof (Hoff 1%Z 2%Z);
         pose proof (Hoff 2%Z 0%Z); pose proof (Hoff 2%Z 1%Z);
         pose proof (Hoff 2%Z 2%Z); lia).
Qed.

End PixelMoreFacts.

(** ** The workers of a pass *)

Section WorkerMoreFacts.
Context {Material Scene : Type} `{RayConsts} `{Libm} `{TraceUI}
        `{MaterialOps Material} `{SceneOps Material Scene}.

Lemma keepsSettings_refl (rt : RayTracer.t Scene) : keepsSettings rt rt.
Proof. unfold keepsSettings. destruct rt. reflexivity. Qed.

Lemma sameConfig_refl (rt : RayTracer.t Scene) : sameConfig rt rt.
Proof. split; [apply keepsSettings_refl | reflexivity]. Qed.

Lemma keepsSettings_fields (rt rt' : RayTracer.t Scene) :
  keepsSettings rt rt' ->
  RayTracer.scene rt' = RayTracer.scene rt
  /\ RayTracer.buffer_width rt' = RayTracer.buffer_width rt
  /\ RayTracer.buffer_height rt' = RayTracer.buffer_height rt
  /\ RayTracer.threads rt' = RayTracer.threads rt
  /\ RayTracer.samples rt' = RayTracer.samples rt
  /\ RayTracer.aaThresh rt' = RayTracer.aaThresh rt.
Proof.
  unfold keepsSettings. intros ->. repeat split.
Qed.

Lemma keepsSettings_with_buffer (rt rt' : RayTracer.t Scene) (b : list Z) :
  keepsSettings rt rt' -> keepsSettings rt (RayTracer.with_buffer rt' b).
Proof.
  unfold keepsSettings. intros Hk. rewrite Hk at 1. reflexivity.
Qed.

Lemma keepsSettings_with_finished (rt rt' : RayTracer.t Scene) (f : list Z) :
  keepsSettings rt rt' -> keepsSettings rt (RayTracer.with_finished rt' f).
Proof.
  unfold keepsSettings. intros Hk. rewrite Hk at 1. reflexivity.
Qed.

Lemma keepsSettings_trans (rt rt' rt'' : RayTracer.t Scene) :
  keepsSettings rt rt' -> keepsSettings rt' rt'' -> keepsSettings rt rt''.
Proof.
  unfold keepsSettings. intros Hk Hk'. rewrite Hk', Hk. reflexivity.
Qed.

(** Colour, offset and counter-to-pixel map depend on the settings only. *)
Lemma settings_determine (rt rt' : RayTracer.t Scene) :
  keepsSettings rt rt' ->
  (forall i j, fst (RayTracer.tracePixel rt' i j)
               = fst (RayTracer.tracePixel rt i j))
  /\ (forall i j, RayTracer.pixelOffset rt' i j = RayTracer.pixelOffset rt i j)
  /\ (forall p, RayTracer.pixelOf rt' p = RayTracer.pixelOf rt p)
  /\ (forall ij, RayTracer.pixelBytes rt' ij = RayTracer.pixelBytes rt ij).
Proof.
  intros Hk. destruct (keepsSettings_fields rt rt' Hk)
    as (Hsc & Hw & Hh & _).
  repeat split.
  - intros i j. unfold RayTracer.tracePixel, RayTracer.sceneLoaded.
    rewrite Hsc, Hw, Hh. destruct (RayTracer.scene rt); reflexivity.
  - intros i j. unfold RayTracer.pixelOffset. rewrite Hw. reflexivity.
  - intros p. unfold RayTracer.pixelOf. rewrite Hh. reflexivity.
  - intros ij. unfold RayTracer.pixelBytes, RayTracer.pixelOffset.
    rewrite Hw. reflexivity.
Qed.

(** What one call of [tracePixel] does to the tracer. *)
Lemma tracePixel_step (rt : RayTracer.t Scene) (i j : Z) :
  let rt' := snd (RayTracer.tracePixel rt i j) in
  sameConfig rt rt'
  /\ RayTracer.finishedThreads rt' = RayTracer.finishedThreads rt
  /\ (RayTracer.scene rt = None -> rt' = rt)
  /\ (RayTracer.scene rt <> None ->
      RayTracer.buffer rt'
      = RayTracer.storePixel (RayTracer.buffer rt)
          (RayTracer.pixelOffset rt i j)
          (fst (RayTracer.tracePixel rt i j)))
  /\ (forall b, ~ In b (RayTracer.pixelBytes rt (i, j)) ->
        RayTracer.load (RayTracer.buffer rt') b
        = RayTracer.load (RayTracer.buffer rt) b).
Proof.
  unfold RayTracer.tracePixel, RayTracer.sceneLoaded.
  destruct (RayTracer.scene rt) as [sc |] eqn:Esc; cbn [negb fst snd].
  - destruct (storePixel_frame (RayTracer.buffer rt)
                (RayTracer.pixelOffset rt i j)
                (RayTracer.trace sc
                   (inject_Z i / inject_Z (RayTracer.buffer_width rt))
                   (inject_Z j / inject_Z (RayTracer.buffer_height rt))))
      as [Hlen Hframe].
    split; [split; [apply keepsSettings_with_buffer, keepsSettings_refl
                   | exact Hlen] |].
    split; [reflexivity |]. split; [discriminate |].
    split; [reflexivity |].
    intros b Hb. apply Hframe; intros ->; apply Hb;
      unfold RayTracer.pixelBytes; cbn [fst snd In]; auto.
  - split; [apply sameConfig_refl |]. split; [reflexivity |].
    split; [reflexivity |]. split; [congruence | reflexivity].
Qed.

Lemma sameConfig_trans (rt rt' rt'' : RayTracer.t Scene) :
  sameConfig rt rt' -> sameConfig rt' rt'' -> sameConfig rt rt''.
Proof.
  intros [Hk Hl] [Hk' Hl']. split.
  - eapply keepsSettings_trans; eassumption.
  - congruence.
Qed.

(** A loop whose rounds each write inside the three bytes of the pixel of
    their counter, and keep the settings, writes inside the bytes of the
    pixels of its counters. *)
Lemma fold_steps_frame
    (body : Z -> RayTracer.t Scene -> RayTracer.t Scene)
    (rt0 : RayTracer.t Scene) :
  (forall rt p, sameConfig rt0 rt ->
     sameConfig rt (body p rt)
     /\ RayTracer.finishedThreads (body p rt) = RayTracer.finishedThreads rt
     /\ forall b, ~ In b (RayTracer.pixelBytes rt0 (RayTracer.pixelOf rt0 p)) ->
          RayTracer.load (RayTracer.buffer (body p rt)) b
          = RayTracer.load (RayTracer.buffer rt) b) ->
  forall ps rt, sameConfig rt0 rt ->
    let rt' := fold_left (fun s q => body q s) ps rt in
    sameConfig rt0 rt'
    /\ RayTracer.finishedThreads rt' = RayTracer.finishedThreads rt
    /\ forall b,
         (forall p, In p ps ->
            ~ In b (RayTracer.pixelBytes rt0 (RayTracer.pixelOf rt0 p))) ->
         RayTracer.load (RayTracer.buffer rt') b
         = RayTracer.load (RayTracer.buffer rt) b.
Proof.
  intros Hbody ps. induction ps as [| p ps IH]; intros rt Hcfg;
    cbn [fold_left].
  - split; [exact Hcfg |]. split; reflexivity.
  - destruct (Hbody rt p Hcfg) as (Hstep & Hfin & Hframe).
    assert (Hcfg' : sameConfig rt0 (body p rt))
      by (eapply sameConfig_trans; eassumption).
    destruct (IH (body p rt) Hcfg') as (Hc & Hf & Hfr). cbv zeta in *.
    split; [exact Hc |]. split; [congruence |].
    intros b Hb. rewrite Hfr, Hframe; auto.
    + apply Hb. left. reflexivity.
    + intros q Hq. apply Hb. right. exact Hq.
Qed.

(** The round of [traceImageThread] at counter [p]. *)
Local Abbreviation traceRound :=
  (fun (p : Z) (rt : RayTracer.t Scene) =>
     let '(i, j) := RayTracer.pixelOf rt p in
     snd (RayTracer.tracePixel rt i j)).

Lemma traceRound_step (rt0 rt : RayTracer.t Scene) (p : Z) :
  sameConfig rt0 rt ->
  sameConfig rt (traceRound p rt)
  /\ RayTracer.finishedThreads (traceRound p rt)
     = RayTracer.finishedThreads rt
  /\ (forall b, ~ In b (RayTracer.pixelBytes rt0 (RayTracer.pixelOf rt0 p)) ->
        RayTracer.load (RayTracer.buffer (traceRound p rt)) b
        = RayTracer.load (RayTracer.buffer rt) b)
  /\ (RayTracer.scene rt0 = None -> traceRound p rt = rt)
  /\ (RayTracer.scene rt0 <> None ->
      inImage rt0 (RayTracer.pixelOf rt0 p) ->
      Z.of_nat (length (RayTracer.buffer rt0))
      = (RayTracer.buffer_width rt0 * RayTracer.buffer_height rt0 * 3)%Z ->
      renderedAt rt0 (RayTracer.buffer (traceRound p rt))
        (RayTracer.pixelOf rt0 p)).
Proof.
  intros [Hk Hlen].
  destruct (settings_determine rt0 rt Hk) as (Hcol & Hoff & Hpix & Hbytes).
  destruct (keepsSettings_fields rt0 rt Hk) as (Hsc & Hw & Hh & _).
  rewrite Hpix. destruct (RayTracer.pixelOf rt0 p) as [i j] eqn:Ep.
  destruct (tracePixel_step rt i j) as (Hcfg & Hfin & Hnone & Hsome & Hframe).
  cbv zeta in *.
  split; [exact Hcfg |]. split; [exact Hfin |].
  split; [intros b Hb; apply Hframe; rewrite Hbytes; exact Hb |].
  split; [intros Hn; apply Hnone; congruence |].
  intros Hloaded [Hi Hj] Hsize. cbn [fst snd] in Hi, Hj.
  rewrite Hsome by congruence. rewrite Hoff, Hcol.
  destruct (pixelOffset_in_range rt0 i j (RayTracer.buffer_height rt0)
              Hi Hj Hsize) as [Hlo Hhi].
  destruct (storePixel_spec (RayTracer.buffer rt)
              (RayTracer.pixelOffset rt0 i j)
              (fst (RayTracer.tracePixel rt0 i j)))
    as (S0 & S1 & S2 & _); [exact Hlo | lia |].
  cbv zeta in *. intros k Hk3. cbn [fst snd].
  assert (k = 0 \/ k = 1 \/ k = 2)%Z as [-> | [-> | ->]] by lia.
  - rewrite Z.add_0_r. exact S0.
  - exact S1.
  - exact S2.
Qed.

(** Rendered pixels stay rendered through a round, and the pixel of the
    round is rendered after it. *)
Lemma traceRound_keeps_rendered (rt0 rt : RayTracer.t Scene) (p : Z)
    (ij : Z * Z) :
  sameConfig rt0 rt ->
  RayTracer.scene rt0 <> None ->
  inImage rt0 (RayTracer.pixelOf rt0 p) -> inImage rt0 ij ->
  Z.of_nat (length (RayTracer.buffer rt0))
  = (RayTracer.buffer_width rt0 * RayTracer.buffer_height rt0 * 3)%Z ->
  renderedAt rt0 (RayTracer.buffer rt) ij ->
  renderedAt rt0 (RayTracer.buffer (traceRound p rt)) ij.
Proof.
  intros Hcfg Hloaded Hp Hij Hsize Hrend.
  destruct (traceRound_step rt0 rt p Hcfg) as (_ & _ & Hframe & _ & Hnew).
  destruct (decide (ij = RayTracer.pixelOf rt0 p)) as [-> | Hne].
  - apply Hnew; assumption.
  - intros k Hk. rewrite Hframe; [apply Hrend, Hk |].
    intros Hb. apply Hne.
    destruct Hp as [Hpi Hpj]. destruct Hij as [Hi Hj].
    apply (pixelBytes_disjoint rt0 (RayTracer.buffer_height rt0)
             (RayTracer.pixelOffset rt0 (fst ij) (snd ij) + k));
      try assumption.
    apply pixelBytes_offsets. exists k. split; [exact Hk | reflexivity].
Qed.

Lemma fold_trace_rendered (rt0 : RayTracer.t Scene) :
  RayTracer.scene rt0 <> None ->
  Z.of_nat (length (RayTracer.buffer rt0))
  = (RayTracer.buffer_width rt0 * RayTracer.buffer_height rt0 * 3)%Z ->
  forall ps rt,
    sameConfig rt0 rt ->
    (forall p, In p ps -> inImage rt0 (RayTracer.pixelOf rt0 p)) ->
    let rt' := fold_left (fun s q => traceRound q s) ps rt in
    (forall ij, inImage rt0 ij -> renderedAt rt0 (RayTracer.buffer rt) ij ->
       renderedAt rt0 (RayTracer.buffer rt') ij)
    /\ (forall p, In p ps ->
          renderedAt rt0 (RayTracer.buffer rt') (RayTracer.pixelOf rt0 p)).
Proof.
  intros Hloaded Hsize ps. induction ps as [| p ps IH]; intros rt Hcfg Hin;
    cbn [fold_left].
  - split; [auto | intros p []].
  - destruct (traceRound_step rt0 rt p Hcfg) as (Hstep & _ & _ & _ & Hnew).
    assert (Hcfg' : sameConfig rt0 (traceRound p rt))
      by (eapply sameConfig_trans; eassumption).
    assert (Hp : inImage rt0 (RayTracer.pixelOf rt0 p))
      by (apply Hin; left; reflexivity).
    destruct (IH (traceRound p rt) Hcfg') as [Hkeep Hrest].
    { intros q Hq. apply Hin. right. exact Hq. }
    cbv zeta in *. split.
    + intros ij Hij Hrend. apply Hkeep; [exact Hij |].
      apply traceRound_keeps_rendered; assumption.
    + intros q [<- | Hq].
      * apply Hkeep; [exact Hp |]. apply Hnew; assumption.
      * apply Hrest, Hq.
Qed.

Lemma workerIds_In (n i : Z) :
  In i (RayTracer.workerIds n) <-> (0 <= i < n)%Z.
Proof.
  unfold RayTracer.workerIds. rewrite in_map_iff. split.
  - intros (k & <- & Hk). apply in_seq in Hk. lia.
  - intros Hi. exists (Z.to_nat i). split; [lia |]. apply in_seq. lia.
Qed.

(** The counters of a worker stand for pixels of the image, and every
    pixel of the image is the pixel of a counter of some worker. *)
Lemma counters_in_image (rt : RayTracer.t Scene) (w h id p : Z) :
  RayTracer.buffer_width rt = w -> RayTracer.buffer_height rt = h ->
  (0 < h)%Z -> (0 < RayTracer.threads rt)%Z -> (0 <= id)%Z ->
  In p (strideSeq (rounds id (w * h) (RayTracer.threads rt)) id
          (RayTracer.threads rt)) ->
  inImage rt (RayTracer.pixelOf rt p).
Proof.
  intros Hw Hh Hhpos Hn Hid Hin.
  apply strideSeq_rounds_In in Hin; [| exact Hn]. destruct Hin as [Hp _].
  destruct (pixelOf_in_range rt w p) as (Hi & Hj & _);
    [lia | rewrite Hh; lia |].
  unfold inImage. rewrite Hw. split; assumption.
Qed.

Lemma pixel_has_counter (rt : RayTracer.t Scene) (w h : Z) (ij : Z * Z) :
  RayTracer.buffer_width rt = w -> RayTracer.buffer_height rt = h ->
  (0 < h)%Z -> (0 < RayTracer.threads rt)%Z ->
  inImage rt ij ->
  exists id p,
    (0 <= id < RayTracer.threads rt)%Z
    /\ In p (strideSeq (rounds id (w * h) (RayTracer.threads rt)) id
               (RayTracer.threads rt))
    /\ RayTracer.pixelOf rt p = ij.
Proof.
  intros Hw Hh Hhpos Hn [Hi Hj]. destruct ij as [i j]. cbn [fst snd] in *.
  rewrite Hw in Hi. rewrite Hh in Hj.
  set (n := RayTracer.threads rt) in *. set (p0 := (i * h + j)%Z).
  assert (Hp0 : (0 <= p0 < w * h)%Z) by (unfold p0; nia).
  destruct (residue_stride n p0 Hn ltac:(lia)) as [Hle Hres].
  pose proof (Z.mod_pos_bound p0 n Hn) as Hm.
  exists (p0 mod n)%Z, p0. split; [exact Hm |]. split.
  - apply strideSeq_rounds_In; [exact Hn |]. split; [lia | exact Hres].
  - unfold p0. rewrite <- Hh. apply pixelOf_of_pixel; rewrite ?Hh; lia.
Qed.

Lemma fold_trace_no_scene (rt0 : RayTracer.t Scene) :
  RayTracer.scene rt0 = None ->
  forall ps rt, sameConfig rt0 rt ->
    fold_left (fun s q => traceRound q s) ps rt = rt.
Proof.
  intros Hnone ps. induction ps as [| p ps IH]; intros rt Hcfg;
    cbn [fold_left]; [reflexivity |].
  destruct (traceRound_step rt0 rt p Hcfg) as (_ & _ & _ & Hsame & _).
  rewrite (Hsame Hnone). apply IH, Hcfg.
Qed.

(** One worker, run on a tracer that has the settings of [rt0]. *)
Lemma worker_run (rt0 rt : RayTracer.t Scene) (id w h : Z) :
  RayTracer.buffer_width rt0 = w -> RayTracer.buffer_height rt0 = h ->
  (0 < w)%Z -> (0 < h)%Z -> (0 < RayTracer.threads rt0)%Z -> (0 <= id)%Z ->
  Z.of_nat (length (RayTracer.buffer rt0)) = (w * h * 3)%Z ->
  sameConfig rt0 rt ->
  let counters := strideSeq (rounds id (w * h) (RayTracer.threads rt0)) id
                    (RayTracer.threads rt0) in
  exists rt',
    RayTracer.traceImageThread rt id w h = Some rt'
    /\ sameConfig rt0 rt'
    /\ RayTracer.finishedThreads rt' = id :: RayTracer.finishedThreads rt
    /\ (RayTracer.scene rt0 = None ->
        RayTracer.buffer rt' = RayTracer.buffer rt)
    /\ (RayTracer.scene rt0 <> None ->
        (forall ij, inImage rt0 ij ->
           renderedAt rt0 (RayTracer.buffer rt) ij ->
           renderedAt rt0 (RayTracer.buffer rt') ij)
        /\ (forall p, In p counters ->
              renderedAt rt0 (RayTracer.buffer rt') (RayTracer.pixelOf rt0 p)))
    /\ (forall b,
          (forall p, In p counters ->
             ~ In b (RayTracer.pixelBytes rt0 (RayTracer.pixelOf rt0 p))) ->
          RayTracer.load (RayTracer.buffer rt') b
          = RayTracer.load (RayTracer.buffer rt) b).
Proof.
  intros Hw Hh Hwpos Hhpos Hn Hid Hsize Hcfg counters.
  destruct (keepsSettings_fields rt0 rt (proj1 Hcfg))
    as (_ & _ & _ & Hthreads & _).
  unfold RayTracer.traceImageThread. rewrite Hthreads.
  rewrite strideLoop_fold by lia. fold counters.
  destruct (fold_steps_frame traceRound rt0) with (ps := counters) (rt := rt)
    as (Hc & Hf & Hframe).
  { intros rt1 p Hcfg1.
    destruct (traceRound_step rt0 rt1 p Hcfg1) as (Ha & Hb & Hc & _).
    split; [exact Ha |]. split; [exact Hb | exact Hc]. }
  { exact Hcfg. }
  cbv beta zeta in *.
  set (rt1 := fold_left _ counters rt) in *.
  exists (RayTracer.with_finished rt1 (id :: RayTracer.finishedThreads rt1)).
  split; [reflexivity |].
  split.
  { split; [apply keepsSettings_with_finished, Hc | apply Hc]. }
  split.
  { cbn [RayTracer.finishedThreads RayTracer.with_finished].
    rewrite Hf. reflexivity. }
  split.
  { intros Hnone. cbn [RayTracer.buffer RayTracer.with_finished]. unfold rt1.
    rewrite (fold_trace_no_scene rt0 Hnone counters rt Hcfg). reflexivity. }
  split; [| exact Hframe].
  intros Hloaded.
  assert (Hsize' : Z.of_nat (length (RayTracer.buffer rt0))
                   = (RayTracer.buffer_width rt0
                      * RayTracer.buffer_height rt0 * 3)%Z)
    by (rewrite Hw, Hh; exact Hsize).
  apply (fold_trace_rendered rt0 Hloaded Hsize' counters rt Hcfg).
  intros p Hp. apply (counters_in_image rt0 w h id p); assumption.
Qed.



Lemma isFinished_In (rt : RayTracer.t Scene) (i : Z) :
  RayTracer.isFinished rt i = true <-> In i (RayTracer.finishedThreads rt).
Proof.
  unfold RayTracer.isFinished. rewrite existsb_exists. split.
  - intros (x & Hx & Heq). apply Z.eqb_eq in Heq. subst x. exact Hx.
  - intros Hin. exists i. split; [exact Hin | apply Z.eqb_refl].
Qed.

Lemma checkRender_true_iff (rt : RayTracer.t Scene) :
  fst (RayTracer.checkRender rt) = true <->
  forall i, (0 <= i < RayTracer.threads rt)%Z ->
            In i (RayTracer.finishedThreads rt).
Proof.
  unfold RayTracer.checkRender.
  destruct (forallb (RayTracer.isFinished rt)
              (RayTracer.workerIds (RayTracer.threads rt))) eqn:E;
    cbn [fst].
  - split; [intros _ | reflexivity]. intros i Hi.
    apply isFinished_In. rewrite forallb_forall in E.
    apply E, workerIds_In, Hi.
  - split; [discriminate |]. intros Hall.
    rewrite <- E. apply forallb_forall. intros i Hi.
    apply isFinished_In, Hall, workerIds_In, Hi.
Qed.

(** [checkRender] answers true exactly when every worker id below
    [threads] is in the set of finished workers; it then empties the set
    and changes nothing else, and on false it changes nothing.  With no
    worker ([threads <= 0]) the answer is true.  Because the set is emptied,
    an immediate second call answers false when there is a worker, and so
    does a call after [waitRender]. *)
Theorem checkRender_rearms (rt : RayTracer.t Scene) :
  (fst (RayTracer.checkRender rt) = true <->
   forall i, (0 <= i < RayTracer.threads rt)%Z ->
             In i (RayTracer.finishedThreads rt))
  /\ (fst (RayTracer.checkRender rt) = true ->
      snd (RayTracer.checkRender rt) = RayTracer.with_finished rt [])
  /\ (fst (RayTracer.checkRender rt) = false ->
      snd (RayTracer.checkRender rt) = rt)
  /\ ((RayTracer.threads rt <= 0)%Z -> fst (RayTracer.checkRender rt) = true)
  /\ ((0 < RayTracer.threads rt)%Z ->
      fst (RayTracer.checkRender (snd (RayTracer.checkRender rt))) = false
      /\ fst (RayTracer.checkRender (RayTracer.waitRender rt)) = false).
Proof.
  assert (Hempty : forall rt0 : RayTracer.t Scene,
             (0 < RayTracer.threads rt0)%Z ->
             RayTracer.finishedThreads rt0 = [] ->
             fst (RayTracer.checkRender rt0) = false).
  { intros rt0 Hn Hfin.
    destruct (fst (RayTracer.checkRender rt0)) eqn:E; [| reflexivity].
    pose proof (proj1 (checkRender_true_iff rt0) E 0%Z ltac:(lia)) as E0.
    rewrite Hfin in E0. destruct E0. }
  split; [apply checkRender_true_iff |].
  split; [| split; [| split]].
  - unfold RayTracer.checkRender.
    destruct (forallb _ _); [reflexivity | discriminate].
  - unfold RayTracer.checkRender.
    destruct (forallb _ _); [discriminate | reflexivity].
  - intros Hn. apply checkRender_true_iff. intros i Hi. lia.
  - intros Hn. split; [| apply Hempty; auto].
    destruct (fst (RayTracer.checkRender rt)) eqn:E.
    + unfold RayTracer.checkRender in *.
      destruct (forallb (RayTracer.isFinished rt) _); [| discriminate].
      cbn [snd]. apply Hempty; auto.
    + unfold RayTracer.checkRender in *.
      destruct (forallb (RayTracer.isFinished rt) _) eqn:E';
        [discriminate |].
      cbn [snd]. rewrite E'. reflexivity.
Qed.

(** The workers of a pass, run one after another in any order. *)
Lemma runWorkers_invariant (rt0 : RayTracer.t Scene) (w h : Z) :
  RayTracer.buffer_width rt0 = w -> RayTracer.buffer_height rt0 = h ->
  (0 < w)%Z -> (0 < h)%Z -> (0 < RayTracer.threads rt0)%Z ->
  Z.of_nat (length (RayTracer.buffer rt0)) = (w * h * 3)%Z ->
  RayTracer.scene rt0 <> None ->
  forall order rt,
    sameConfig rt0 rt ->
    (forall id, In id order -> (0 <= id)%Z) ->
    exists rt',
      RayTracer.runWorkers order rt w h = Some rt'
      /\ sameConfig rt0 rt'
      /\ RayTracer.finishedThreads rt'
         = rev order ++ RayTracer.finishedThreads rt
      /\ (forall ij, inImage rt0 ij ->
            renderedAt rt0 (RayTracer.buffer rt) ij ->
            renderedAt rt0 (RayTracer.buffer rt') ij)
      /\ (forall id p,
            In id order ->
            In p (strideSeq (rounds id (w * h) (RayTracer.threads rt0)) id
                    (RayTracer.threads rt0)) ->
            renderedAt rt0 (RayTracer.buffer rt') (RayTracer.pixelOf rt0 p)).
Proof.
  intros Hw Hh Hwpos Hhpos Hn Hsize Hloaded order.
  induction order as [| id order IH]; intros rt Hcfg Hids;
    cbn [RayTracer.runWorkers].
  - exists rt. split; [reflexivity |]. split; [exact Hcfg |].
    split; [reflexivity |]. split; [auto |]. intros id p [].
  - destruct (worker_run rt0 rt id w h Hw Hh Hwpos Hhpos Hn
                (Hids id (or_introl eq_refl)) Hsize Hcfg)
      as (rt1 & Hrun & Hcfg1 & Hfin1 & _ & Hsome & _).
    destruct (Hsome Hloaded) as [Hkeep1 Hown1].
    rewrite Hrun.
    destruct (IH rt1 Hcfg1) as (rt' & Hrest & Hcfg' & Hfin' & Hkeep & Hown).
    { intros id' Hid'. apply Hids. right. exact Hid'. }
    exists rt'. split; [exact Hrest |]. split; [exact Hcfg' |].
    split.
    { rewrite Hfin', Hfin1. cbn [rev]. rewrite <- app_assoc. reflexivity. }
    split.
    { intros ij Hij Hrend. apply Hkeep; [exact Hij |].
      apply Hkeep1; assumption. }
    intros id' p [<- | Hid'] Hp.
    + apply Hkeep; [| apply Hown1, Hp].
      apply (counters_in_image rt0 w h id p); try assumption.
      apply Hids. left. reflexivity.
    + apply (Hown id' p Hid' Hp).
Qed.


End WorkerMoreFacts.

(** ** The anti-aliasing pass *)

Section AaMoreFacts.
Context {Material Scene : Type} `{RayConsts} `{Libm} `{TraceUI}
        `{MaterialOps Material} `{SceneOps Material Scene}.

Lemma In_range (lo hi v : Z) :
  In v (RayTracer.range lo hi) <-> (lo <= v < hi)%Z.
Proof.
  unfold RayTracer.range. rewrite in_map_iff. split.
  - intros (k & <- & Hk). apply in_seq in Hk. lia.
  - intros Hv. exists (Z.to_nat (v - lo)). split; [lia |].
    apply in_seq. lia.
Qed.

(** The loop over [b]: it ends with the flag set when the flag was set at
    its entry, or when one of the values of [b] passes both [continue]
    tests and reaches a neighbour that differs. *)
Lemma neighbourRow_spec (rt : RayTracer.t Scene) (color : dvec3)
    (i j a : Z) (bs : list Z) (flag : bool) :
  RayTracer.neighbourRow rt color i j a bs flag = true <->
  flag = true
  \/ exists b,
       In b bs /\ (a, b) <> (0, 0)%Z
       /\ (0 <= j + b < RayTracer.buffer_height rt)%Z
       /\ RayTracer.differs rt color (i + a) (j + b) = true.
Proof.
  induction bs as [| b bs IH]; cbn [RayTracer.neighbourRow].
  - split; [auto | intros [Hf | (b & [] & _)]; exact Hf].
  - destruct ((a =? 0)%Z && (b =? 0)%Z) eqn:Ezero.
    { apply andb_true_iff in Ezero. destruct Ezero as [Ea Eb].
      apply Z.eqb_eq in Ea, Eb. subst a b. rewrite IH. split.
      - intros [Hf | (b & Hb & Hrest)]; [left; exact Hf |].
        right. exists b. split; [right; exact Hb | exact Hrest].
      - intros [Hf | (b & [<- | Hb] & Hne & Hrest)]; [left; exact Hf | |].
        + exfalso. apply Hne. reflexivity.
        + right. exists b. auto. }
    assert (Hne : (a, b) <> (0, 0)%Z).
    { intros [= -> ->]. discriminate. }
    destruct (Z.ltb_spec (j + b) 0) as [Hlo | Hlo]; cbn [orb].
    { rewrite IH. split.
      - intros [Hf | (b' & Hb & Hrest)]; [left; exact Hf |].
        right. exists b'. split; [right; exact Hb | exact Hrest].
      - intros [Hf | (b' & [<- | Hb] & Hne' & Hj & Hrest)];
          [left; exact Hf | lia |].
        right. exists b'. auto. }
    destruct (Z.leb_spec (RayTracer.buffer_height rt) (j + b)) as [Hhi | Hhi].
    { rewrite IH. split.
      - intros [Hf | (b' & Hb & Hrest)]; [left; exact Hf |].
        right. exists b'. split; [right; exact Hb | exact Hrest].
      - intros [Hf | (b' & [<- | Hb] & Hne' & Hj & Hrest)];
          [left; exact Hf | lia |].
        right. exists b'. auto. }
    destruct (RayTracer.differs rt color (i + a) (j + b)) eqn:Ediff.
    { split; [| reflexivity]. intros _. right. exists b.
      split; [left; reflexivity |]. split; [exact Hne |].
      split; [lia | exact Ediff]. }
    rewrite IH. split.
    + intros [Hf | (b' & Hb & Hrest)]; [left; exact Hf |].
      right. exists b'. split; [right; exact Hb | exact Hrest].
    + intros [Hf | (b' & [<- | Hb] & Hne' & Hj & Hrest)];
        [left; exact Hf | congruence |].
      right. exists b'. auto.
Qed.

(** The loop over [a] with the loop over [b] inside. *)
Lemma neighbourRows_spec (rt : RayTracer.t Scene) (color : dvec3)
    (i j : Z) (avals : list Z) (flag : bool) :
  RayTracer.neighbourRows rt color i j avals flag = true <->
  flag = true
  \/ exists a b,
       In a avals /\ (-1 <= b < 2)%Z /\ (a, b) <> (0, 0)%Z
       /\ (0 <= i + a < RayTracer.buffer_width rt)%Z
       /\ (0 <= j + b < RayTracer.buffer_height rt)%Z
       /\ RayTracer.differs rt color (i + a) (j + b) = true.
Proof.
  revert flag. induction avals as [| a avals IH]; intros flag;
    cbn [RayTracer.neighbourRows].
  - split; [auto | intros [Hf | (a & b & [] & _)]; exact Hf].
  - assert (Htail : (flag = true
                     \/ exists a' b,
                          In a' avals /\ (-1 <= b < 2)%Z
                          /\ (a', b) <> (0, 0)%Z
                          /\ (0 <= i + a' < RayTracer.buffer_width rt)%Z
                          /\ (0 <= j + b < RayTracer.buffer_height rt)%Z
                          /\ RayTracer.differs rt color (i + a') (j + b)
                             = true) ->
                    flag = true
                    \/ exists a' b,
                         In a' (a :: avals) /\ (-1 <= b < 2)%Z
                         /\ (a', b) <> (0, 0)%Z
                         /\ (0 <= i + a' < RayTracer.buffer_width rt)%Z
                         /\ (0 <= j + b < RayTracer.buffer_height rt)%Z
                         /\ RayTracer.differs rt color (i + a') (j + b)
                            = true).
    { intros [Hf | (a' & b & Ha & Hrest)]; [left; exact Hf |].
      right. exists a', b. split; [right; exact Ha | exact Hrest]. }
    destruct ((i + a <? 0)%Z || (RayTracer.buffer_width rt <=? i + a)%Z)
      eqn:Eout.
    { rewrite IH. split; [exact Htail |].
      intros [Hf | (a' & b & [<- | Ha] & Hb & Hne & Hi & Hrest)];
        [left; exact Hf | | right; exists a', b; auto].
      apply orb_true_iff in Eout.
      destruct Eout as [E | E]; [apply Z.ltb_lt in E | apply Z.leb_le in E];
        lia. }
    apply orb_false_iff in Eout. destruct Eout as [Elo Ehi].
    apply Z.ltb_ge in Elo. apply Z.leb_gt in Ehi.
    cbv zeta.
    pose proof (neighbourRow_spec rt color i j a (RayTracer.range (-1) 2) flag) as Hrow.
    destruct (RayTracer.neighbourRow rt color i j a (RayTracer.range (-1) 2) flag)
      eqn:Erow.
    + split; [| reflexivity]. intros _.
      destruct (proj1 Hrow eq_refl) as [Hf | (b & Hb & Hne & Hj & Hd)];
        [left; exact Hf |].
      apply In_range in Hb.
      right. exists a, b. split; [left; reflexivity |].
      split; [exact Hb |]. split; [exact Hne |]. split; [lia |].
      split; [exact Hj | exact Hd].
    + assert (Hflag : flag = false).
      { destruct flag; [| reflexivity].
        pose proof (proj2 Hrow (or_introl eq_refl)). discriminate. }
      subst flag. rewrite IH. split; [exact Htail |].
      intros [Hf | (a' & b & [<- | Ha] & Hb & Hne & Hi & Hj & Hd)];
        [left; exact Hf | | right; exists a', b; auto 8].
      assert (Hyes : false = true).
      { apply Hrow. right. exists b. split; [apply In_range; exact Hb |].
        split; [exact Hne |]. split; [exact Hj | exact Hd]. }
      discriminate.
Qed.

Lemma differs_iff (rt : RayTracer.t Scene) (color : dvec3) (i j : Z) :
  RayTracer.differs rt color i j = true <->
  let diff := Glm.abs (RayTracer.getPixel rt i j - color)%vec in
  RayTracer.aaThresh rt < vx diff \/ RayTracer.aaThresh rt < vy diff
  \/ RayTracer.aaThresh rt < vz diff.
Proof.
  unfold RayTracer.differs. cbv zeta.
  rewrite !orb_true_iff, !Qltb_lt. cbn. tauto.
Qed.

(** The two loops of [aaImageThread], run with their flag, their
    [continue] and their [break], leave [onBoundary] set exactly when one
    of the eight neighbours that lie inside the image differs from the
    pixel by more than [aaThresh] in some channel: no [break] cuts off a
    neighbour that would have set the flag, and no [continue] skips
    one. *)
Theorem onBoundary_iff_neighbour_differs (rt : RayTracer.t Scene) (i j : Z) :
  RayTracer.onBoundary rt i j = true <->
  exists a b,
    (-1 <= a <= 1)%Z /\ (-1 <= b <= 1)%Z /\ (a, b) <> (0, 0)%Z
    /\ (0 <= i + a < RayTracer.buffer_width rt)%Z
    /\ (0 <= j + b < RayTracer.buffer_height rt)%Z
    /\ let diff := Glm.abs (RayTracer.getPixel rt (i + a) (j + b)
                            - RayTracer.getPixel rt i j)%vec in
       RayTracer.aaThresh rt < vx diff \/ RayTracer.aaThresh rt < vy diff
       \/ RayTracer.aaThresh rt < vz diff.
Proof.
  unfold RayTracer.onBoundary. cbv zeta. rewrite neighbourRows_spec. split.
  - intros [Hf | (a & b & Ha & Hb & Hne & Hi & Hj & Hd)]; [discriminate |].
    apply In_range in Ha. apply differs_iff in Hd.
    exists a, b. split; [lia |]. split; [lia |]. split; [exact Hne |].
    split; [exact Hi |]. split; [exact Hj | exact Hd].
  - intros (a & b & Ha & Hb & Hne & Hi & Hj & Hd). right.
    exists a, b. split; [apply In_range; lia |]. split; [lia |].
    split; [exact Hne |]. split; [exact Hi |]. split; [exact Hj |].
    apply differs_iff. exact Hd.
Qed.

Lemma differs_same (rt : RayTracer.t Scene) (color : dvec3) (i j : Z) :
  0 <= RayTracer.aaThresh rt ->
  RayTracer.getPixel rt i j = color ->
  RayTracer.differs rt color i j = false.
Proof.
  intros Hth <-. unfold RayTracer.differs. cbv zeta.
  assert (Hzero : forall x : Q, Qabs (x - x) <= RayTracer.aaThresh rt).
  { intros x. assert (Hx : x - x == 0) by ring. rewrite Hx. exact Hth. }
  destruct (RayTracer.getPixel rt i j) as [x y z].
  unfold Glm.abs, Glm.sub, Glm.idx. cbn [vx vy vz Z.eqb Pos.eqb].
  rewrite !(proj2 (Qltb_ge _ _) (Hzero _)). reflexivity.
Qed.

(** A pixel whose neighbours inside the image all read the same colour as
    itself is not on a boundary, for a threshold that is not negative. *)
Lemma onBoundary_flat (rt : RayTracer.t Scene) (i j : Z) :
  0 <= RayTracer.aaThresh rt ->
  (forall i' j',
     (0 <= i' < RayTracer.buffer_width rt)%Z ->
     (0 <= j' < RayTracer.buffer_height rt)%Z ->
     RayTracer.getPixel rt i' j' = RayTracer.getPixel rt i j) ->
  RayTracer.onBoundary rt i j = false.
Proof.
  intros Hth Hflat. unfold RayTracer.onBoundary. cbv zeta.
  apply not_true_is_false. intros E. apply neighbourRows_spec in E.
  destruct E as [E | (a & b & _ & _ & _ & Hi & Hj & Hd)]; [discriminate |].
  rewrite differs_same in Hd; [discriminate | exact Hth |].
  apply Hflat; assumption.
Qed.

Lemma fold_unchanged (body : Z -> RayTracer.t Scene -> RayTracer.t Scene)
    (rt : RayTracer.t Scene) (ps : list Z) :
  (forall p, In p ps -> body p rt = rt) ->
  fold_left (fun s q => body q s) ps rt = rt.
Proof.
  induction ps as [| p ps IH]; intros Hbody; cbn [fold_left];
    [reflexivity |].
  rewrite (Hbody p (or_introl eq_refl)). apply IH.
  intros q Hq. apply Hbody. right. exact Hq.
Qed.


(** The round of [aaImageThread] at a counter keeps the settings and
    writes inside the bytes of the pixel of the counter. *)
Lemma aaPixel_step (rt0 rt : RayTracer.t Scene) (p : Z) :
  sameConfig rt0 rt ->
  sameConfig rt (RayTracer.aaPixel rt p)
  /\ RayTracer.finishedThreads (RayTracer.aaPixel rt p)
     = RayTracer.finishedThreads rt
  /\ forall b, ~ In b (RayTracer.pixelBytes rt0 (RayTracer.pixelOf rt0 p)) ->
       RayTracer.load (RayTracer.buffer (RayTracer.aaPixel rt p)) b
       = RayTracer.load (RayTracer.buffer rt) b.
Proof.
  intros [Hk Hlen].
  destruct (settings_determine rt0 rt Hk) as (_ & Hoff & Hpix & Hbytes).
  unfold RayTracer.aaPixel. rewrite Hpix.
  destruct (RayTracer.pixelOf rt0 p) as [i j].
  destruct (RayTracer.onBoundary rt i j);
    [| split; [apply sameConfig_refl | split; reflexivity]].
  destruct (RayTracer.scene rt) as [sc |];
    [| split; [apply sameConfig_refl | split; reflexivity]].
  unfold RayTracer.setPixel.
  destruct (storePixel_frame (RayTracer.buffer rt)
              (RayTracer.pixelOffset rt i j)
              (RayTracer.superSample rt sc i j)) as [Hl Hframe].
  split; [split; [apply keepsSettings_with_buffer, keepsSettings_refl
                 | exact Hl] |].
  split; [reflexivity |].
  intros b Hb. cbn [RayTracer.buffer RayTracer.with_buffer].
  rewrite <- Hbytes in Hb.
  apply Hframe; intros ->; apply Hb;
    unfold RayTracer.pixelBytes; cbn [fst snd In]; auto.
Qed.


(** Adding [g b / N] for each [b] of a list, with every [g b] between 0
    and 1, raises each channel by at most the length of the list over
    [N]. *)
Lemma fold_add_samples (g : Z -> dvec3) (N : Q) (l : list Z) :
  0 < N ->
  (forall b, Glm.le (Dvec3 0 0 0) (g b) /\ Glm.le (g b) (Dvec3 1 1 1)) ->
  forall acc : dvec3,
    let res := fold_left
                 (fun newColor b => (newColor + Glm.div_scalar (g b) N)%vec)
                 l acc in
    let k := inject_Z (Z.of_nat (length l)) / N in
    Glm.le acc res /\ Glm.le res (acc + Dvec3 k k k)%vec.
Proof.
  intros HN Hg. unfold Glm.div_scalar, Qdiv.
  assert (Hu : 0 < / N) by (apply Qinv_lt_0_compat; exact HN).
  set (u := / N) in *. clearbody u.
  induction l as [| b l IH]; intros acc.
  - cbn [fold_left length]. unfold Glm.le, Glm.add. cbn [vx vy vz].
    change (inject_Z (Z.of_nat 0)) with 0. repeat split; lra.
  - cbn [fold_left length].
    specialize (IH (acc + Dvec3 (vx (g b) * u) (vy (g b) * u)
                            (vz (g b) * u))%vec).
    cbv zeta in IH |- *.
    set (res := fold_left _ l _) in *. clearbody res.
    rewrite Nat2Z.inj_succ, <- Z.add_1_r, inject_Z_plus.
    change (inject_Z 1) with 1.
    set (n := inject_Z (Z.of_nat (length l))) in *. clearbody n.
    destruct (Hg b) as [(Hx0 & Hy0 & Hz0) (Hx1 & Hy1 & Hz1)].
    destruct IH as [(Ix0 & Iy0 & Iz0) (Ix1 & Iy1 & Iz1)].
    unfold Glm.add in *. cbn [vx vy vz] in *.
    unfold Glm.le. cbn [vx vy vz].
    split; (split; [| split]); nra.
Qed.

(** The two nested loops over the grid. *)
Lemma fold_add_grid (g : Z -> Z -> dvec3) (N : Q) (la lb : list Z) :
  0 < N ->
  (forall a b, Glm.le (Dvec3 0 0 0) (g a b) /\ Glm.le (g a b) (Dvec3 1 1 1)) ->
  forall acc : dvec3,
    let res := fold_left
                 (fun newColor a =>
                    fold_left
                      (fun newColor b =>
                         (newColor + Glm.div_scalar (g a b) N)%vec)
                      lb newColor)
                 la acc in
    let k := inject_Z (Z.of_nat (length la) * Z.of_nat (length lb)) / N in
    Glm.le acc res /\ Glm.le res (acc + Dvec3 k k k)%vec.
Proof.
  intros HN Hg.
  induction la as [| a la IH]; intros acc.
  - cbn [fold_left length]. unfold Glm.le, Glm.add. cbn [vx vy vz].
    change (inject_Z (Z.of_nat 0 * Z.of_nat (length lb))) with 0.
    unfold Qdiv. rewrite !Qmult_0_l. repeat split; lra.
  - cbn [fold_left length].
    pose proof (fold_add_samples (g a) N lb HN (Hg a) acc) as Hin.
    cbv zeta in Hin, IH |- *.
    set (mid := fold_left _ lb acc) in *. clearbody mid.
    specialize (IH mid).
    set (res := fold_left _ la mid) in *. clearbody res.
    rewrite Nat2Z.inj_succ, <- Z.add_1_r, Z.mul_add_distr_r, Z.mul_1_l,
      inject_Z_plus.
    unfold Qdiv in *.
    assert (Hu : 0 < / N) by (apply Qinv_lt_0_compat; exact HN).
    set (u := / N) in *. clearbody u.
    set (n := inject_Z (Z.of_nat (length la) * Z.of_nat (length lb))) in *.
    set (m := inject_Z (Z.of_nat (length lb))) in *.
    clearbody n m.
    destruct Hin as [(Hx0 & Hy0 & Hz0) (Hx1 & Hy1 & Hz1)].
    destruct IH as [(Ix0 & Iy0 & Iz0) (Ix1 & Iy1 & Iz1)].
    unfold Glm.add, Glm.le in *. cbn [vx vy vz] in *.
    split; (split; [| split]); lra.
Qed.

Lemma trace_clamped (sc : Scene) (x y : Q) :
  Glm.le (Dvec3 0 0 0) (RayTracer.trace sc x y)
  /\ Glm.le (RayTracer.trace sc x y) (Dvec3 1 1 1).
Proof.
  unfold RayTracer.trace, Glm.clamp, Glm.le. cbn [vx vy vz].
  repeat split; apply clampQ_bounds.
Qed.

Lemma length_workerIds (n : Z) :
  (0 <= n)%Z -> Z.of_nat (length (RayTracer.workerIds n)) = n.
Proof.
  intros Hn. unfold RayTracer.workerIds.
  rewrite length_map, length_seq. lia.
Qed.

(** In exact arithmetic the grid loop sums [samples ^ 2] quotients
    [c / samples ^ 2] of components [c] between 0 and 1. *)
Lemma gridSum_exact (g : Z -> Z -> dvec3) (samples : Z) :
  (0 < samples)%Z ->
  (forall a b, Glm.le (Dvec3 0 0 0) (g a b) /\ Glm.le (g a b) (Dvec3 1 1 1)) ->
  Glm.le (Dvec3 0 0 0) (RayTracer.gridSum g samples)
  /\ Glm.le (RayTracer.gridSum g samples) (Dvec3 1 1 1).
Proof.
  intros Hs Hg.
  assert (HN : 0 < inject_Z (samples ^ 2)).
  { change 0 with (inject_Z 0). rewrite <- Zlt_Qlt. nia. }
  unfold RayTracer.gridSum. cbv zeta.
  pose proof (fold_add_grid g (inject_Z (samples ^ 2))
                (RayTracer.workerIds samples) (RayTracer.workerIds samples)
                HN Hg (Dvec3 0 0 0)) as Hgrid.
  cbv beta zeta in Hgrid.
  set (res := fold_left _ _ _) in *. clearbody res.
  rewrite length_workerIds in Hgrid by lia.
  assert (Hone : inject_Z (samples * samples) / inject_Z (samples ^ 2) == 1).
  { rewrite Z.pow_2_r in HN |- *. apply Qmult_inv_r.
    apply Qnot_eq_sym, Qlt_not_eq, HN. }
  destruct Hgrid as [Hlo (Hx & Hy & Hz)].
  split; [exact Hlo |].
  unfold Glm.add in Hx, Hy, Hz. cbn [vx vy vz] in Hx, Hy, Hz.
  unfold Glm.le. cbn [vx vy vz].
  rewrite Hone in Hx, Hy, Hz. repeat split; lra.
Qed.

(** The colour that the grid loop of [aaImageThread] hands to [setPixel]
    is stored without wrap-around, with room for the rounding of the
    doubles.  The loop sums samples that [trace] has clamped to the
    interval from 0 to 1.  Whatever such samples are, for a positive
    number of samples whose square is an [int], no channel of their exact
    sum [c] is negative, and every value from 0 up to [c + 2 ^ -20] (the
    sum of at most [2 ^ 31] rounded quotients of these samples, added in
    doubles, is such a value) has a cast [(int)(255 * c')] that is defined
    and lies between 0 and 255, which the assignment to the
    [unsigned char] keeps. *)
Theorem superSample_bytes_do_not_wrap (g : Z -> Z -> dvec3) (samples : Z) :
  (0 < samples)%Z -> (samples ^ 2 < 2 ^ 31)%Z ->
  (forall a b, Glm.le (Dvec3 0 0 0) (g a b) /\ Glm.le (g a b) (Dvec3 1 1 1)) ->
  let c := RayTracer.gridSum g samples in
  (forall (rt : RayTracer.t Scene) (sc : Scene) (i j : Z),
     exists g',
       (forall a b, Glm.le (Dvec3 0 0 0) (g' a b)
                    /\ Glm.le (g' a b) (Dvec3 1 1 1))
       /\ RayTracer.superSample rt sc i j
          = RayTracer.gridSum g' (RayTracer.samples rt))
  /\ Glm.le (Dvec3 0 0 0) c
  /\ forall k c',
       (0 <= k < 3)%Z ->
       0 <= c' <= c.[k] + (1 # 1048576) ->
       fits_int (255 * c') = true
       /\ (0 <= double_to_int (255 * c') <= 255)%Z
       /\ Spec.quantize_trunc c' = double_to_int (255 * c').
Proof.
  intros Hs _ Hg c.
  split.
  { intros rt sc i j. eexists. split; [| reflexivity].
    intros a b. cbv zeta. apply trace_clamped. }
  destruct (gridSum_exact g samples Hs Hg) as [Hlo Hhi]. fold c in Hlo, Hhi.
  split; [exact Hlo |].
  intros k c' Hk Hc'.
  assert (Hck : 0 <= c.[k] <= 1).
  { destruct Hlo as (Hx0 & Hy0 & Hz0), Hhi as (Hx1 & Hy1 & Hz1).
    cbn [vx vy vz] in *.
    assert (Hcases : k = 0%Z \/ k = 1%Z \/ k = 2%Z) by lia.
    destruct Hcases as [-> | [-> | ->]]; unfold Glm.idx;
      cbn [Z.eqb Pos.eqb]; split; assumption. }
  assert (Hr : (0 <= double_to_int (255 * c') <= 255)%Z).
  { rewrite double_to_int_floor by lra. split.
    - exact (Qfloor_resp_le 0 (255 * c') ltac:(lra)).
    - assert (Hlt : 255 * c' < 256) by lra.
      pose proof (Qfloor_le (255 * c')) as Hfl.
      assert (Hz : inject_Z (Qfloor (255 * c')) < inject_Z 256)
        by (change (inject_Z 256) with 256; lra).
      rewrite <- Zlt_Qlt in Hz. lia. }
  split; [| split; [exact Hr |]].
  - unfold fits_int. apply andb_true_iff.
    split; [apply Z.leb_le | apply Z.ltb_lt]; lia.
  - unfold Spec.quantize_trunc, to_uchar. apply Z.mod_small. lia.
Qed.

End AaMoreFacts.

(** ** Concrete runs *)

Import Fixtures.


(** C1, evaluated.  Two boxes side by side on the x axis, leaf size 1: the
    tree splits at x = 1 with one box per leaf.  A ray that runs against
    the x axis meets the right box at [t = 2] and the left one at [t = 5].
    The linear scan returns the hit at 2 on the blue box; the traversal
    asks the left child first, returns as soon as it reports a hit, and
    answers [t = 5] on the red box.  Second scene: the plane chosen lies at
    x = 0.5 and is stored as 0 by the constructor's [int] parameter; the
    ray along y at x = 0.375, through the first box only, is sent to the
    right child and the traversal reports no hit, the linear scan a hit at
    [t = 1]. *)
Theorem kd_intersect_differs_from_linear_scan :
  KdTree.buildTree [boxA; boxB] boundsAB 15 1
  = Some (KdTree.SplitNode 0 (KdTree.LeafNode [boxA]) (KdTree.LeafNode [boxB])
            1 boundsAB)
  /\ hitSummary (Scene.linearIntersect [boxA; boxB] rayAgainstX)
     = Some (2, 2%Z)
  /\ option_map hitSummary (kdIntersect [boxA; boxB] boundsAB 15 1 rayAgainstX)
     = Some (Some (5, 1%Z))
  /\ option_map KdTree.position (KdTree.findBestPlane [boxC; boxD] boundsCD)
     = Some 0.5
  /\ KdTree.buildTree [boxC; boxD] boundsCD 15 1
     = Some (KdTree.SplitNode 0 (KdTree.LeafNode [boxC]) (KdTree.LeafNode [boxD])
               0 boundsCD)
  /\ hitSummary (Scene.linearIntersect [boxC; boxD] rayAlongY)
     = Some (1, 1%Z)
  /\ option_map hitSummary (kdIntersect [boxC; boxD] boundsCD 15 1 rayAlongY)
     = Some None.
Proof.
  repeat split; vm_compute; reflexivity.
Qed.

(** C5 fails as stated.  The leaf holding the unit box is handed the
    interval [0, 1]; the ray meets the box at [t = 5], outside it, and the
    leaf reports the hit.  The leaf holding the far box is handed the whole
    interval; the ray meets the box at [t = 2e13 - 1], inside it, and the
    leaf reports nothing. *)
Lemma leaf_ignores_given_interval :
  ~ Spec.leaf_reports_hits_in_interval [boxA] rayAgainstX
      (KdTree.mkTrav (KdTree.trav_i freshTrav) 0 1)
  /\ ~ Spec.leaf_reports_hits_in_interval [farBox] rayAlongX freshTrav.
Proof.
  split; unfold Spec.leaf_reports_hits_in_interval; intros [Hto Hfrom].
  - assert (Hhit : fst (KdTree.findIntersection (KdTree.LeafNode [boxA])
                          rayAgainstX
                          (KdTree.mkTrav (KdTree.trav_i freshTrav) 0 1))
                   = true) by (vm_compute; reflexivity).
    destruct (Hto Hhit) as (obj & cur & [<- | []] & Hcur & _ & Hle).
    vm_compute in Hcur. injection Hcur as <-.
    apply Hle. reflexivity.
  - assert (Hmiss : fst (KdTree.findIntersection (KdTree.LeafNode [farBox])
                           rayAlongX freshTrav) = false)
      by (vm_compute; reflexivity).
    rewrite Hfrom in Hmiss; [discriminate |].
    exists farBox, (Isect (2e13 - 1) (Dvec3 0 0 1) red).
    split; [left; reflexivity |].
    split; [vm_compute; reflexivity |].
    split; vm_compute; discriminate.
Qed.

Lemma sqrt_down_nonneg (x : Q) : 0 <= sqrt_down x.
Proof.
  unfold sqrt_down, Qle. simpl.
  pose proof (Z.sqrt_nonneg (Qnum x * Z.pos (Qden x))). lia.
Qed.

(** The base cases of [traceRay] on the first scene: a negative depth, a
    weight below the cut-off in all components, and a weight with one
    component at the cut-off, which is traced and shades red. *)
Lemma traceRay_base_cases_witness :
  RayTracer.traceRay [boxA] rayAgainstX (Dvec3 1 1 1) (-1) 0 = (Dvec3 0 0 0, 0)
  /\ RayTracer.traceRay [boxA] rayAgainstX (Dvec3 0.4 0 0.1) 1 0
     = (Dvec3 0 0 0, 0)
  /\ fst (RayTracer.traceRay [boxA] rayAgainstX (Dvec3 0.5 0 0) 0 0)
     = Dvec3 1 0 0.
Proof.
  split; [| split].
  - apply (proj1 (traceRay_base_cases [boxA] rayAgainstX (Dvec3 1 1 1)
                    (-1) 0)).
    reflexivity.
  - apply (proj1 (proj2 (traceRay_base_cases [boxA] rayAgainstX
                           (Dvec3 0.4 0 0.1) 1 0))).
    vm_compute. repeat split.
  - rewrite (proj2 (proj2 (traceRay_base_cases [boxA] rayAgainstX
                             (Dvec3 0.5 0 0) 0 0))).
    + vm_compute. reflexivity.
    + discriminate.
    + left. vm_compute. discriminate.
Defined.

(** Total internal reflection for the ray leaving the glass cube, and a
    refracted child for the ray entering it. *)
Lemma traceRay_refraction_witness :
  RayTracer.traceRay [glassBox] rayLeavingGlass (Dvec3 1 1 1) 1 0
  = (Dvec3 0.2 0.2 0.2, 5 # 30)
  /\ reduced
       (fst (RayTracer.traceRay [glassBox] rayEnteringGlass (Dvec3 1 1 1) 1 0))
     = Dvec3 0.3 0.3 0.3.
Proof.
  split.
  - assert (Hd : (0 <= 1)%Z) by lia.
    assert (Hb : RayTracer.belowThreshold (Dvec3 1 1 1) = false)
      by (vm_compute; reflexivity).
    assert (Hi : scene_intersect [glassBox] rayLeavingGlass
                 = Some (Isect (5 # 30) (Dvec3 0 0 1) glass))
      by (vm_compute; reflexivity).
    assert (Ht : Trans glass = true) by reflexivity.
    pose proof (traceRay_refraction [glassBox] rayLeavingGlass (Dvec3 1 1 1)
                  1 0 _ Hd Hb Hi Ht) as Hthm.
    cbv zeta in Hthm. destruct Hthm as (_ & Htir & _).
    rewrite Htir; [vm_compute; reflexivity | vm_compute; discriminate].
  - assert (Hd : (0 <= 1)%Z) by lia.
    assert (Hb : RayTracer.belowThreshold (Dvec3 1 1 1) = false)
      by (vm_compute; reflexivity).
    assert (Hi : scene_intersect [glassBox] rayEnteringGlass
                 = Some (Isect 1 (Dvec3 0 0 1) glass))
      by (vm_compute; reflexivity).
    assert (Ht : Trans glass = true) by reflexivity.
    pose proof (traceRay_refraction [glassBox] rayEnteringGlass (Dvec3 1 1 1)
                  1 0 _ Hd Hb Hi Ht) as Hthm.
    cbv zeta in Hthm. destruct Hthm as (_ & _ & Hrefr).
    rewrite Hrefr; [vm_compute; reflexivity | vm_compute; reflexivity].
Defined.

(** A tracer without a scene on a 2 by 2 buffer. *)
Lemma tracePixel_without_scene_witness :
  RayTracer.sceneLoaded (tracer None 2 2) = false
  /\ RayTracer.tracePixel (tracer None 2 2) 1 1
     = (Dvec3 0 0 0, tracer None 2 2).
Proof.
  split; [reflexivity |].
  apply (tracePixel_without_scene (tracer None 2 2) 1 1). reflexivity.
Defined.


(** The leaf holding both boxes of the first scene reports the nearer
    hit. *)
Lemma leaf_findIntersection_nearest_accepted_witness :
  let res :=
    KdTree.findIntersection (KdTree.LeafNode [boxA; boxB]) rayAgainstX
      freshTrav in
  fst res = true
  /\ getT (KdTree.trav_i (snd res)) <= 5
  /\ getT (KdTree.trav_i (snd res)) <= 2.
Proof.
  pose proof (leaf_findIntersection_nearest_accepted [boxA; boxB] rayAgainstX
                freshTrav) as Hthm.
  cbv zeta in Hthm. destruct Hthm as [Hiff Hmin].
  assert (Hfound : fst (KdTree.findIntersection (KdTree.LeafNode [boxA; boxB])
                          rayAgainstX freshTrav) = true).
  { apply Hiff. exists boxA, (Isect 5 (Dvec3 0 0 1) red).
    split; [left; reflexivity |].
    split; [vm_compute; reflexivity |].
    split; [vm_compute; reflexivity | vm_compute; split; discriminate]. }
  destruct (Hmin Hfound) as [_ Hleast].
  cbv zeta. split; [exact Hfound |]. split.
  - apply (Hleast boxA (Isect 5 (Dvec3 0 0 1) red)).
    + left. reflexivity.
    + split; [vm_compute; reflexivity |].
      split; [vm_compute; reflexivity | vm_compute; split; discriminate].
  - apply (Hleast boxB (Isect 2 (Dvec3 0 0 1) blue)).
    + right. left. reflexivity.
    + split; [vm_compute; reflexivity |].
      split; [vm_compute; reflexivity | vm_compute; split; discriminate].
Defined.



(** A flat square in the plane of the split goes right. *)
Lemma degenerate_object_routed_right_witness :
  In flatSquare
    (snd (KdTree.route (KdTree.candidate boundsAB 0 1) [flatSquare; boxB]))
  /\ ~ In flatSquare
       (fst (KdTree.route (KdTree.candidate boundsAB 0 1) [flatSquare; boxB])).
Proof.
  apply (degenerate_object_routed_right (KdTree.candidate boundsAB 0 1)
           [flatSquare; boxB] flatSquare).
  - exact sqrt_down_nonneg.
  - left. reflexivity.
  - reflexivity.
  - reflexivity.
Defined.

(** Below the glass cube: the sun is attenuated by the cube's [kt], the
    lamp between the point and the cube is not. *)
Lemma shadowAttenuation_one_bounce_witness :
  DirectionalLight.shadowAttenuation sun rayAlongX belowCube
  = Dvec3 (1 # 2) (1 # 2) (1 # 2)
  /\ PointLight.shadowAttenuation lamp rayAlongX belowCube = white.
Proof.
  pose proof (shadowAttenuation_one_bounce sun lamp rayAlongX belowCube)
    as Hthm.
  cbv zeta in Hthm. destruct Hthm as (_ & Hsun & _ & Hlamp & _).
  split.
  - etransitivity.
    + apply Hsun. vm_compute. reflexivity.
    + vm_compute. reflexivity.
  - etransitivity.
    + eapply Hlamp; [vm_compute; reflexivity | vm_compute; discriminate].
    + reflexivity.
Defined.


(** ** Concrete runs: tree, lights and workers *)

(** The plane x = 1 over the flat square and the two boxes: one object on
    the left, one on the right by count, and the flat square added to the
    right list. *)
Lemma route_sizes_match_counts_witness :
  let p := KdTree.candidate boundsAB 0 1 in
  let l := [flatSquare; boxA; boxB] in
  Z.of_nat (length (fst (KdTree.route p l))) = KdTree.countP l p true
  /\ Z.of_nat (length (snd (KdTree.route p l)))
     = (KdTree.countP l p false
        + Z.of_nat (length (List.filter (KdTree.inPlane p) l)))%Z
  /\ (length (fst (KdTree.route p l)) <= length l)%nat.
Proof.
  apply (route_sizes_match_counts (KdTree.candidate boundsAB 0 1)
           [flatSquare; boxA; boxB]).
  exact sqrt_down_nonneg.
Defined.

(** The tree of the first scene: the call returns, the tree holds the two
    boxes and has height 1. *)
Lemma buildTree_keeps_objects_witness :
  let root := KdTree.SplitNode 0 (KdTree.LeafNode [boxA])
                (KdTree.LeafNode [boxB]) 1 boundsAB in
  KdTree.buildTree [boxA; boxB] boundsAB 15 1 = Some root
  /\ KdTree.buildTreeHelper [boxA; boxB] boundsAB 15 1 0
     <> KdTree.Undefined KdTree.DepthOverflow
  /\ (forall obj, In obj (KdTree.leafObjects root) -> In obj [boxA; boxB])
  /\ In boxB (KdTree.leafObjects root)
  /\ (Z.of_nat (KdTree.height root) < 15)%Z.
Proof.
  intros root.
  pose proof (buildTree_keeps_objects [boxA; boxB] boundsAB 15 1
                ltac:(lia)) as Hthm.
  cbv zeta in Hthm. destruct Hthm as (_ & Hno & _ & Hiff & Hkeeps).
  assert (Hb : KdTree.buildTree [boxA; boxB] boundsAB 15 1 = Some root)
    by reflexivity.
  destruct (Hkeeps root (proj1 (Hiff root) Hb)) as (Hfrom & Hto & Hheight).
  split; [exact Hb |]. split; [exact Hno |]. split; [exact Hfrom |].
  split; [| exact Hheight].
  apply Hto.
  - right. left. reflexivity.
  - intros a. vm_compute. destruct a as [| [p | p |] | p]; discriminate.
Defined.

(** With a depth limit of 0 and a leaf size of 2 the first scene is one
    leaf. *)
Lemma buildTree_single_leaf_witness :
  KdTree.buildTree [boxA; boxB] boundsAB 0 2
  = Some (KdTree.LeafNode [boxA; boxB]).
Proof.
  apply (buildTree_single_leaf [boxA; boxB] boundsAB 0 2).
  - lia.
  - reflexivity.
  - left. cbn. lia.
Defined.

(** The hit the traversal reports on the first scene is a hit of one of
    the two boxes. *)
Lemma kd_hit_is_object_hit_witness :
  let root := KdTree.SplitNode 0 (KdTree.LeafNode [boxA])
                (KdTree.LeafNode [boxB]) 1 boundsAB in
  exists obj,
    In obj [boxA; boxB] /\ In obj (KdTree.leafObjects root)
    /\ Geometry.intersect obj rayAgainstX
       = Some (KdTree.trav_i
                 (snd (KdTree.intersect root rayAgainstX freshTrav)))
    /\ getT (KdTree.trav_i
               (snd (KdTree.intersect root rayAgainstX freshTrav)))
       < KdTree.T_SENTINEL.
Proof.
  intros root.
  apply (kd_hit_is_object_hit [boxA; boxB] root rayAgainstX freshTrav).
  - intros obj Hin. exact Hin.
  - vm_compute. reflexivity.
Defined.

(** The miss of the traversal on the second scene. *)
Lemma kd_miss_leaves_sentinel_witness :
  let root := KdTree.SplitNode 0 (KdTree.LeafNode [boxC])
                (KdTree.LeafNode [boxD]) 0 boundsCD in
  let res := KdTree.intersect root rayAlongY freshTrav in
  fst res = false
  /\ getT (KdTree.trav_i (snd res)) = KdTree.T_SENTINEL
  /\ getN (KdTree.trav_i (snd res)) = getN (KdTree.trav_i freshTrav)
  /\ getMaterial (KdTree.trav_i (snd res))
     = getMaterial (KdTree.trav_i freshTrav).
Proof.
  intros root res.
  assert (Hmiss : fst res = false) by (vm_compute; reflexivity).
  split; [exact Hmiss |].
  apply (kd_miss_leaves_sentinel root rayAlongY freshTrav). exact Hmiss.
Defined.

(** A point light with the coefficients 1, 1, 1 at distance 1/2: the sum
    is 7/4 and the attenuation its inverse. *)
Lemma point_distanceAttenuation_bounds_witness :
  let l := PointLight.Build [glassBox] white (Dvec3 0.5 0.5 (-0.5)) 1 1 1 in
  PointLight.distanceAttenuation l belowCube <= 1
  /\ 0 <= PointLight.distanceAttenuation l belowCube
  /\ PointLight.distanceAttenuation l belowCube == 4 # 7.
Proof.
  intros l.
  pose proof (point_distanceAttenuation_bounds l belowCube) as Hthm.
  cbv zeta in Hthm. destruct Hthm as (Hle & Hpos & Hsum & Hinv & _).
  assert (Hc : 0 <= PointLight.constantTerm l) by (vm_compute; discriminate).
  assert (Hl : 0 <= PointLight.linearTerm l) by (vm_compute; discriminate).
  assert (Hq : 0 <= PointLight.quadraticTerm l)
    by (vm_compute; discriminate).
  split; [exact Hle |].
  split; [exact (Hpos (Hsum sqrt_down_nonneg Hc Hl Hq)) |].
  rewrite Hinv; vm_compute; [reflexivity | discriminate].
Defined.

(** Below the glass cube both lights are dimmed, not brightened. *)
Lemma shadowAttenuation_within_color_witness :
  Glm.le (Dvec3 0 0 0) (DirectionalLight.shadowAttenuation sun rayAlongX
                          belowCube)
  /\ Glm.le (DirectionalLight.shadowAttenuation sun rayAlongX belowCube)
       (DirectionalLight.color sun)
  /\ Glm.le (PointLight.shadowAttenuation lamp rayAlongX belowCube)
       (PointLight.color lamp)
  /\ DirectionalLight.shadowAttenuation sun rayAgainstX belowCube
     = DirectionalLight.shadowAttenuation sun rayAlongX belowCube.
Proof.
  assert (Hsun : Glm.le (Dvec3 0 0 0) (DirectionalLight.color sun))
    by (vm_compute; repeat split; discriminate).
  assert (Hlamp : Glm.le (Dvec3 0 0 0) (PointLight.color lamp))
    by (vm_compute; repeat split; discriminate).
  pose proof (shadowAttenuation_within_color sun lamp rayAlongX rayAgainstX
                belowCube) as Hthm.
  cbv zeta in Hthm.
  destruct (Hthm Hsun Hlamp) as (H0 & H1 & _ & H3 & H4 & _).
  - intros i Hi. vm_compute in Hi. injection Hi as <-.
    vm_compute. repeat split; discriminate.
  - intros i Hi. vm_compute in Hi. injection Hi as <-.
    vm_compute. repeat split; discriminate.
  - split; [exact H0 |]. split; [exact H1 |]. split; [exact H3 | exact H4].
Defined.

(** At depth 0 the ray entering the glass cube returns the cube's own
    shade: the refracted child is cut. *)
Lemma traceRay_direct_shade_only_witness :
  Glm.equiv
    (fst (RayTracer.traceRay [glassBox] rayEnteringGlass (Dvec3 1 1 1) 0 0))
    (Dvec3 0.2 0.2 0.2)
  /\ snd (RayTracer.traceRay [glassBox] rayEnteringGlass (Dvec3 1 1 1) 0 0)
     = 1.
Proof.
  assert (Hb : RayTracer.belowThreshold (Dvec3 1 1 1) = false)
    by (vm_compute; reflexivity).
  assert (Hi : scene_intersect [glassBox] rayEnteringGlass
               = Some (Isect 1 (Dvec3 0 0 1) glass))
    by (vm_compute; reflexivity).
  destruct (traceRay_direct_shade_only [glassBox] rayEnteringGlass
              (Dvec3 1 1 1) 0 0 _ ltac:(lia) Hb Hi (or_introl eq_refl))
    as (Hcol & Ht & _).
  split; [exact Hcol | exact Ht].
Defined.

(** Storing the colour (3/16, 1/2, 2) in the last pixel of a 2 by 2
    buffer: it reads back as (47, 127, 254) over 255, the third byte
    wrapped, and the first pixel still reads black. *)
Lemma getPixel_after_setPixel_witness :
  let rt := tracer (Some []) 2 2 in
  let rt' := RayTracer.setPixel rt 1 1 (Dvec3 (3 # 16) (1 # 2) 2) in
  RayTracer.getPixel rt' 1 1 = Dvec3 (47 # 255) (127 # 255) (254 # 255)
  /\ RayTracer.getPixel rt' 0 0 = RayTracer.getPixel rt 0 0.
Proof.
  intros rt rt'.
  assert (Hi : (0 <= 1 < RayTracer.buffer_width rt)%Z)
    by (vm_compute; split; [discriminate | reflexivity]).
  assert (Hlen : Z.of_nat (length (RayTracer.buffer rt))
                 = (RayTracer.buffer_width rt * 2 * 3)%Z)
    by (vm_compute; reflexivity).
  pose proof (getPixel_after_setPixel rt 1 1 2 (Dvec3 (3 # 16) (1 # 2) 2)
                Hi ltac:(lia) Hlen eq_refl eq_refl eq_refl) as Hthm.
  cbv zeta in Hthm. destruct Hthm as (Hread & _ & _ & Hother & _).
  split.
  - etransitivity; [exact Hread | vm_compute; reflexivity].
  - apply Hother.
    + vm_compute. split; [discriminate | reflexivity].
    + lia.
    + discriminate.
Defined.


(** Two workers, both finished: [checkRender] answers true once and false
    on the next call. *)
Lemma checkRender_rearms_witness :
  let rt := RayTracer.with_finished (tracer (Some []) 2 2) [1; 0]%Z in
  fst (RayTracer.checkRender rt) = true
  /\ snd (RayTracer.checkRender rt) = RayTracer.with_finished rt []
  /\ fst (RayTracer.checkRender (snd (RayTracer.checkRender rt))) = false.
Proof.
  intros rt.
  destruct (checkRender_rearms rt) as (Hiff & Htrue & _ & _ & Hnext).
  assert (Hall : fst (RayTracer.checkRender rt) = true).
  { apply Hiff. intros i Hi. change (0 <= i < 2)%Z in Hi.
    assert (Hcases : i = 0%Z \/ i = 1%Z) by lia.
    destruct Hcases as [-> | ->]; cbn; auto. }
  split; [exact Hall |]. split; [exact (Htrue Hall) |].
  apply Hnext. reflexivity.
Defined.


(** One white pixel in a black 2 by 2 image: the pixel across the corner
    is on a boundary. *)
Lemma onBoundary_iff_neighbour_differs_witness :
  RayTracer.onBoundary
    (RayTracer.setPixel (tracer (Some []) 2 2) 0 0 white) 1 1 = true.
Proof.
  apply (proj2 (onBoundary_iff_neighbour_differs
                  (RayTracer.setPixel (tracer (Some []) 2 2) 0 0 white) 1 1)).
  exists (-1)%Z, (-1)%Z.
  split; [lia |]. split; [lia |]. split; [discriminate |].
  split; [vm_compute; split; [discriminate | reflexivity] |].
  split; [vm_compute; split; [discriminate | reflexivity] |].
  cbv zeta. left. vm_compute. reflexivity.
Defined.



(** The 3 by 3 grid of grey samples 3/16: the sum is stored as 47. *)
Lemma superSample_bytes_do_not_wrap_witness :
  let g := fun _ _ : Z => Dvec3 (3 # 16) (3 # 16) (3 # 16) in
  let c := RayTracer.gridSum g 3 in
  Glm.le (Dvec3 0 0 0) c
  /\ fits_int (255 * vx c) = true
  /\ Spec.quantize_trunc (vx c) = 47%Z
  /\ RayTracer.superSample (tracer (Some []) 2 2) [] 1 1 = c.
Proof.
  intros g c.
  assert (Hg : forall a b : Z,
            Glm.le (Dvec3 0 0 0) (g a b) /\ Glm.le (g a b) (Dvec3 1 1 1)).
  { intros a b. vm_compute. repeat split; discriminate. }
  destruct (superSample_bytes_do_not_wrap
              (Material := Mat) (Scene := list (Geometry.t Mat))
              g 3 eq_refl eq_refl Hg)
    as (_ & Hlo & Hbytes).
  fold c in Hlo, Hbytes. split; [exact Hlo |].
  destruct (Hbytes 0%Z (vx c) ltac:(lia)) as (Hfit & _ & Hq).
  { vm_compute. split; discriminate. }
  split; [exact Hfit |]. split.
  - etransitivity; [exact Hq | vm_compute; reflexivity].
  - vm_compute. reflexivity.
Defined.

(** Over the empty scene [trace] returns the grey of the cube map. *)
Lemma trace_background_or_black_witness :
  RayTracer.trace ([] : list (Geometry.t Mat)) 0 0
  = Dvec3 (3 # 16) (3 # 16) (3 # 16).
Proof.
  etransitivity.
  - apply (proj1 (proj2 (trace_background_or_black
                           ([] : list (Geometry.t Mat)) 0 0))).
    + discriminate.
    + vm_compute. discriminate.
    + reflexivity.
  - vm_compute. reflexivity.
Defined.

(** A mirror cube below a red box: the ray from between them meets the
    mirror at [t = 1], the mirrored ray meets the red box, and [traceRay]
    returns red with [t] at the distance of the second hit. *)
Lemma traceRay_reflection_overwrites_t_witness :
  let mirror :=
    mkMat 4 (Dvec3 0 0 0) true false (Dvec3 1 1 1) (Dvec3 0 0 0) 1 in
  let sc := [box mirror (mkBBox (Dvec3 0 0 0) (Dvec3 1 1 1));
             box red (mkBBox (Dvec3 0 0 3) (Dvec3 1 1 4))] in
  scene_intersect sc rayEnteringGlass = Some (Isect 1 (Dvec3 0 0 1) mirror)
  /\ RayTracer.traceRay sc rayEnteringGlass (Dvec3 1 1 1) 1 0
     = (Dvec3 1 0 0, 1.999999999999).
Proof.
  intros mirror sc.
  assert (Hb : RayTracer.belowThreshold (Dvec3 1 1 1) = false)
    by (vm_compute; reflexivity).
  assert (Hi : scene_intersect sc rayEnteringGlass
               = Some (Isect 1 (Dvec3 0 0 1) mirror))
    by (vm_compute; reflexivity).
  split; [exact Hi |].
  pose proof (traceRay_reflection_overwrites_t sc rayEnteringGlass
                (Dvec3 1 1 1) 1 0 _ ltac:(lia) Hb Hi eq_refl eq_refl)
    as Hthm.
  cbv zeta in Hthm. destruct Hthm as [_ Hsecond].
  etransitivity.
  - apply (Hsecond (Isect 1.999999999999 (Dvec3 0 0 1) red)).
    + lia.
    + vm_compute. reflexivity.
    + vm_compute. reflexivity.
    + reflexivity.
    + reflexivity.
  - vm_compute. reflexivity.
Defined.
